(* ===================================================================== *)
(* plonkathon: the five-round PLONK prover (prover.py)                    *)
(*                                                                       *)
(* A shallow embedding of Prover.prove and its five rounds, over an       *)
(* arbitrary field of scalars, with the attributes of the Prover object   *)
(* kept in a string-keyed store and the witness dictionary kept in the    *)
(* heap next to it, so that the mutations the Python code performs on     *)
(* both are visible to the theorems.                                      *)
(* ===================================================================== *)

From HB Require Import structures.
From mathcomp Require Import boot algebra.
From Stdlib Require Import String.

Set Warnings "-notation-overridden,-ambiguous-paths".
Set Implicit Arguments.
Unset Strict Implicit.
Unset Printing Implicit Defensive.

Import GRing.Theory.
Local Open Scope ring_scope.

(* Variable names and attribute names are Python strings. *)
HB.instance Definition _ := hasDecEq.Build string String.eqb_spec.

(* --------------------------------------------------------------------- *)
(* Exceptions and the result of a fallible computation                    *)
(* --------------------------------------------------------------------- *)

(* The assert statements of prover.py, by the line they stand on. *)
Inductive assert_site : Type :=
  | GateCheck            (* round_1, line 120 *)
  | GrandProductClose    (* round_2, line 158 *)
  | GrandProductStep     (* round_2, line 162 *)
  | QuotDegree           (* round_3, line 291 *)
  | QuotSplit            (* round_3, line 305 *)
  | RDegree              (* round_5, line 430 *)
  | REval                (* round_5, line 437 *)
  | WzDegree             (* round_5, lines 467 and 471 *)
  | WzwDegree.           (* round_5, lines 487 and 491 *)

Inductive exn : Type :=
  | KeyError of option string      (* witness[k] with k absent *)
  | IndexError                     (* list index out of range *)
  | AttributeError of string       (* self.x read before it is set *)
  | TypeError                      (* an attribute of the wrong kind *)
  | AssertionError of assert_site  (* an assert of prover.py *)
  | BasisError                     (* a polynomial operator rejecting its operands *)
  | ZeroDivisionError.             (* Scalar division by zero *)

Inductive result (A : Type) : Type :=
  | Ok of A
  | Raise of exn.

Arguments Raise {A} e.

Definition rbind {A B : Type} (m : result A) (k : A -> result B) : result B :=
  match m with
  | Ok a => k a
  | Raise e => Raise e
  end.

Definition is_ok {A : Type} (m : result A) : bool :=
  if m is Ok _ then true else false.

Notation "x <-- m ;; k" := (rbind m (fun x => k))
  (at level 100, m at next level, right associativity).

(* Operands of a binary operator are evaluated left to right, then the
   operator is applied. *)
Definition lift2 {A B C : Type} (op : A -> B -> result C)
    (x : result A) (y : result B) : result C :=
  a <-- x ;; b <-- y ;; op a b.

(* l[i] and l[i] = y on a Python list: out of range raises. *)
Definition list_get {A : Type} (x0 : A) (l : seq A) (i : nat) : result A :=
  if (i < size l)%N then Ok (nth x0 l i) else Raise IndexError.

Definition list_set {A : Type} (x0 : A) (l : seq A) (i : nat) (y : A)
    : result (seq A) :=
  if (i < size l)%N then Ok (set_nth x0 l i y) else Raise IndexError.

(* --------------------------------------------------------------------- *)
(* The witness: dict[Optional[str], int]                                  *)
(* --------------------------------------------------------------------- *)

Definition witness : Type := seq (option string * int).

Fixpoint dict_get (w : witness) (k : option string) : option int :=
  match w with
  | [::] => None
  | (k', v) :: w' => if k' == k then Some v else dict_get w' k
  end.

Definition dict_mem (k : option string) (w : witness) : bool :=
  if dict_get w k is Some _ then true else false.

(* w[k] = v : replaces the value of an existing key, appends a new one. *)
Fixpoint dict_set (w : witness) (k : option string) (v : int) : witness :=
  match w with
  | [::] => [:: (k, v)]
  | (k', v') :: w' =>
      if k' == k then (k', v) :: w' else (k', v') :: dict_set w' k v
  end.

Definition dict_lookup (w : witness) (k : option string) : result int :=
  if dict_get w k is Some v then Ok v else Raise (KeyError k).

(* --------------------------------------------------------------------- *)
(* Basis tags                                                             *)
(* --------------------------------------------------------------------- *)

(* The two tags prover.py constructs polynomials with. A coset extended
   polynomial is the output of an FFT and carries the LAGRANGE tag: this is
   how round_3 can divide it by the Z_H it builds with Basis.LAGRANGE. *)
Inductive Basis : Type := LAGRANGE | MONOMIAL.

Definition Basis_eqb (a b : Basis) : bool :=
  match a, b with
  | LAGRANGE, LAGRANGE | MONOMIAL, MONOMIAL => true
  | _, _ => false
  end.

Lemma Basis_eqbP : Equality.axiom Basis_eqb.
Proof. by case; case; constructor. Qed.

HB.instance Definition _ := hasDecEq.Build Basis Basis_eqbP.

(* A gate's three wire names. *)
Record Wire : Type := MkWire {
  wire_L : option string;
  wire_R : option string;
  wire_O : option string
}.

(* ===================================================================== *)
(* The scalar field and the polynomial class                              *)
(* ===================================================================== *)

Section Scalars.

(* Scalar: the prime field of the curve. *)
Variable F : fieldType.

(* Scalar(x) for a Python integer x: reduction modulo the field order. *)
Definition Scalar (x : int) : F := x%:~R.

(* Modelled from the spec: Scalar division, which is not under src/
   ("Failure: division by zero reports an arithmetic error"). *)
Definition sdiv (x y : F) : result F :=
  if y == 0 then Raise ZeroDivisionError else Ok (x / y).

(* Scalar.root_of_unity(n): the generator of the subgroup of order n. *)
Variable root_of_unity : nat -> F.

(* Modelled from the spec: Scalar.roots_of_unity, which is not under src/
   ("returns [w^0, ..., w^(n-1)] where w is a primitive n-th root of
   unity"). *)
Definition roots_of_unity (n : nat) : seq F :=
  [seq root_of_unity n ^+ i | i <- iota 0 n].

(* Polynomial: a list of values with a basis tag. *)
Record Polynomial : Type := MkPolynomial {
  values : seq F;
  basis : Basis
}.

(* Polynomial.__eq__ *)
Definition poly_eqb (p q : Polynomial) : bool :=
  (basis p == basis q) && (values p == values q).

(* Modelled from the spec: the arithmetic operators of Polynomial, which
   are not under src/ ("All arithmetic is permitted only between
   polynomials of the same basis and size; the result has that basis and
   size", "operators reject cross-basis operations", "Elementwise
   arithmetic"). *)
Definition same_shape (p q : Polynomial) : bool :=
  (basis p == basis q) && (size (values p) == size (values q)).

Definition zip_with (op : F -> F -> F) (s t : seq F) : seq F :=
  [seq op xy.1 xy.2 | xy <- zip s t].

Definition padd (p q : Polynomial) : result Polynomial :=
  if same_shape p q
  then Ok (MkPolynomial (zip_with +%R (values p) (values q)) (basis p))
  else Raise BasisError.

Definition psub (p q : Polynomial) : result Polynomial :=
  if same_shape p q
  then Ok (MkPolynomial (zip_with (fun x y => x - y) (values p) (values q))
             (basis p))
  else Raise BasisError.

Definition pmul (p q : Polynomial) : result Polynomial :=
  if same_shape p q
  then Ok (MkPolynomial (zip_with *%R (values p) (values q)) (basis p))
  else Raise BasisError.

(* Modelled from the spec: pointwise division ("Division in a Lagrange or
   coset basis is pointwise; the divisor must be nonzero at every
   evaluation point"). *)
Fixpoint div_values (s t : seq F) : result (seq F) :=
  match s, t with
  | x :: s', y :: t' =>
      z <-- sdiv x y ;; r <-- div_values s' t' ;; Ok (z :: r)
  | _, _ => Ok [::]
  end.

Definition pdiv (p q : Polynomial) : result Polynomial :=
  if same_shape p q
  then r <-- div_values (values p) (values q) ;;
       Ok (MkPolynomial r (basis p))
  else Raise BasisError.

(* Modelled from the spec: a bare scalar operand ("a scalar operand
   promotes to a constant polynomial of the other operand's basis and
   size"). The constant c is [c, c, ..., c] in evaluation form and
   [c, 0, ..., 0] in coefficient form. *)
Definition promote (p : Polynomial) (c : F) : Polynomial :=
  match basis p with
  | LAGRANGE => MkPolynomial (nseq (size (values p)) c) LAGRANGE
  | MONOMIAL =>
      MkPolynomial (take (size (values p)) (c :: nseq (size (values p)).-1 0))
        MONOMIAL
  end.

Definition padd_s (p : Polynomial) (c : F) : result Polynomial :=
  padd p (promote p c).

Definition psub_s (p : Polynomial) (c : F) : result Polynomial :=
  psub p (promote p c).

Definition pmul_s (p : Polynomial) (c : F) : result Polynomial :=
  Ok (MkPolynomial [seq x * c | x <- values p] (basis p)).

(* Modelled from the spec: Polynomial.shift ("only for LAGRANGE: cyclic
   left rotation of values by k"). *)
Definition shift (p : Polynomial) (k : nat) : result Polynomial :=
  if basis p == LAGRANGE then Ok (MkPolynomial (rot k (values p)) LAGRANGE)
  else Raise BasisError.

(* The value of the polynomial with coefficients cs at x. *)
Definition eval_coeffs (cs : seq F) (x : F) : F :=
  foldr (fun c acc => c + x * acc) 0 cs.

(* Modelled from the spec: Polynomial.fft and Polynomial.ifft, which are
   not under src/ ("monomial <-> Lagrange on the size of the polynomial",
   "LAGRANGE of size n: values at the n-th roots of unity"). The transform
   is given by its values, the discrete Fourier transform and its
   inverse. *)
Definition fft (p : Polynomial) : result Polynomial :=
  if basis p == MONOMIAL
  then Ok (MkPolynomial
             [seq eval_coeffs (values p) r
             | r <- roots_of_unity (size (values p))] LAGRANGE)
  else Raise BasisError.

Definition inverse_roots (n : nat) : seq F :=
  [seq root_of_unity n ^+ ((n - j) %% n) | j <- iota 0 n].

Definition ifft (p : Polynomial) : result Polynomial :=
  if basis p == LAGRANGE
  then invlen <-- sdiv 1 (size (values p))%:R ;;
       Ok (MkPolynomial
             [seq eval_coeffs (values p) r * invlen
             | r <- inverse_roots (size (values p))] MONOMIAL)
  else Raise BasisError.

(* [offset^i * x for i, x in enumerate(cs)] *)
Definition scale_coeffs (offset : F) (cs : seq F) : seq F :=
  [seq offset ^+ ix.1 * ix.2 | ix <- zip (iota 0 (size cs)) cs].

(* Modelled from the spec: Polynomial.to_coset_extended_lagrange ("iFFT
   to monomial form, pointwise scale coefficients by h^i, zero-pad to 4n,
   FFT"). *)
Definition to_coset_extended_lagrange (p : Polynomial) (offset : F)
    : result Polynomial :=
  if basis p == LAGRANGE
  then x_powers <-- ifft p ;;
       fft (MkPolynomial
              (scale_coeffs offset (values x_powers)
               ++ nseq (size (values p) * 3) 0) MONOMIAL)
  else Raise BasisError.

(* Modelled from the spec: Polynomial.coset_extended_lagrange_to_coeffs
   ("inverse of the above, producing a monomial polynomial of length
   4n"). *)
Definition coset_extended_lagrange_to_coeffs (p : Polynomial) (offset : F)
    : result Polynomial :=
  if basis p == LAGRANGE
  then shifted_coeffs <-- ifft p ;;
       inv_offset <-- sdiv 1 offset ;;
       Ok (MkPolynomial (scale_coeffs inv_offset (values shifted_coeffs))
             MONOMIAL)
  else Raise BasisError.

(* sum([value * root / (x - root) for value, root in zip(values, roots)]) *)
Fixpoint barycentric_sum (vs rs : seq F) (x : F) : result F :=
  match vs, rs with
  | v :: vs', r :: rs' =>
      t <-- sdiv (v * r) (x - r) ;;
      s <-- barycentric_sum vs' rs' x ;;
      Ok (t + s)
  | _, _ => Ok 0
  end.

(* Modelled from the spec: Polynomial.barycentric_eval ("P(z) = (z^n - 1)/n
   * sum_i v_i * w^i / (z - w^i); fallback to direct lookup when z
   coincides with a root of unity"). *)
Definition barycentric_eval (p : Polynomial) (x : F) : result F :=
  if basis p == LAGRANGE
  then let order := size (values p) in
       let rs := roots_of_unity order in
       if x \in rs then list_get 0 (values p) (seq.index x rs)
       else c <-- sdiv (x ^+ order - 1) order%:R ;;
            s <-- barycentric_sum (values p) rs x ;;
            Ok (c * s)
  else Raise BasisError.

End Scalars.

Arguments MkPolynomial {F} values basis.

Arguments padd : simpl never.
Arguments psub : simpl never.
Arguments pmul : simpl never.
Arguments pdiv : simpl never.
Arguments padd_s : simpl never.
Arguments psub_s : simpl never.
Arguments pmul_s : simpl never.
Arguments fft : simpl never.
Arguments ifft : simpl never.
Arguments to_coset_extended_lagrange : simpl never.
Arguments coset_extended_lagrange_to_coeffs : simpl never.
Arguments barycentric_eval : simpl never.
Arguments shift : simpl never.

(* ===================================================================== *)
(* Messages, the proof, the program and the prover object                 *)
(* ===================================================================== *)

Section Data.

Variable F : fieldType.
Variable G1 : Type.

Record Message1 : Type := MkMessage1 { a_1 : G1; b_1 : G1; c_1 : G1 }.

Record Message2 : Type := MkMessage2 { z_1 : G1 }.

Record Message3 : Type := MkMessage3 { t_lo_1 : G1; t_mid_1 : G1; t_hi_1 : G1 }.

Record Message4 : Type := MkMessage4 {
  a_eval : F;
  b_eval : F;
  c_eval : F;
  s1_eval : F;
  s2_eval : F;
  z_shifted_eval : F
}.

Record Message5 : Type := MkMessage5 { W_z_1 : G1; W_zw_1 : G1 }.

Record Proof : Type := MkProof {
  msg_1 : Message1;
  msg_2 : Message2;
  msg_3 : Message3;
  msg_4 : Message4;
  msg_5 : Message5
}.

(* An entry of the flattened proof: a group element or a scalar. *)
Inductive proof_item : Type :=
  | Point of G1
  | Eval of F.

(* Proof.flatten: the dictionary with its keys in insertion order. *)
Definition flatten (pf : Proof) : seq (string * proof_item) :=
  [:: ("a_1"%string, Point (a_1 (msg_1 pf)));
      ("b_1"%string, Point (b_1 (msg_1 pf)));
      ("c_1"%string, Point (c_1 (msg_1 pf)));
      ("z_1"%string, Point (z_1 (msg_2 pf)));
      ("t_lo_1"%string, Point (t_lo_1 (msg_3 pf)));
      ("t_mid_1"%string, Point (t_mid_1 (msg_3 pf)));
      ("t_hi_1"%string, Point (t_hi_1 (msg_3 pf)));
      ("a_eval"%string, Eval (a_eval (msg_4 pf)));
      ("b_eval"%string, Eval (b_eval (msg_4 pf)));
      ("c_eval"%string, Eval (c_eval (msg_4 pf)));
      ("s1_eval"%string, Eval (s1_eval (msg_4 pf)));
      ("s2_eval"%string, Eval (s2_eval (msg_4 pf)));
      ("z_shifted_eval"%string, Eval (z_shifted_eval (msg_4 pf)));
      ("W_z_1"%string, Point (W_z_1 (msg_5 pf)));
      ("W_zw_1"%string, Point (W_zw_1 (msg_5 pf)))].

(* CommonPreprocessedInput: the selector and permutation polynomials. *)
Record CommonPreprocessedInput : Type := MkCommonPreprocessedInput {
  QM : Polynomial F;
  QL : Polynomial F;
  QR : Polynomial F;
  QO : Polynomial F;
  QC : Polynomial F;
  S1 : Polynomial F;
  S2 : Polynomial F;
  S3 : Polynomial F
}.

(* Program, by what its methods return. *)
Record Program : Type := MkProgram {
  program_group_order : nat;
  wires : seq Wire;
  get_public_assignments : seq (option string);
  common_preprocessed_input : CommonPreprocessedInput
}.

(* What an attribute of the Prover object can hold. *)
Inductive value : Type :=
  | VScalar of F
  | VPoly of Polynomial F
  | VList of seq F
  | VPoint of G1.

(* The attributes that prove and its rounds assign on self. *)
Definition store : Type := string -> option value.

Definition empty_store : store := fun _ => None.

Definition store_set (s : store) (name : string) (v : value) : store :=
  fun k => if String.eqb k name then Some v else s k.

Variable Setup : Type.

(* The Prover object: the four fields of the dataclass, set by __init__
   and never assigned again, and the attributes set later. *)
Record Prover : Type := MkProver {
  group_order : nat;
  setup : Setup;
  program : Program;
  pk : CommonPreprocessedInput;
  attrs : store
}.

(* Prover.__init__ *)
Definition Prover_init (setup : Setup) (program : Program) : Prover :=
  MkProver (program_group_order program) setup program
    (common_preprocessed_input program) empty_store.

Definition set_attr (s : Prover) (name : string) (v : value) : Prover :=
  MkProver (group_order s) (setup s) (program s) (pk s)
    (store_set (attrs s) name v).

(* Reading self.name, at the kind the reader expects. *)
Definition attr_scalar (s : Prover) (name : string) : result F :=
  match attrs s name with
  | Some (VScalar x) => Ok x
  | Some _ => Raise TypeError
  | None => Raise (AttributeError name)
  end.

Definition attr_poly (s : Prover) (name : string) : result (Polynomial F) :=
  match attrs s name with
  | Some (VPoly p) => Ok p
  | Some _ => Raise TypeError
  | None => Raise (AttributeError name)
  end.

Definition attr_list (s : Prover) (name : string) : result (seq F) :=
  match attrs s name with
  | Some (VList l) => Ok l
  | Some _ => Raise TypeError
  | None => Raise (AttributeError name)
  end.

Definition attr_point (s : Prover) (name : string) : result G1 :=
  match attrs s name with
  | Some (VPoint g) => Ok g
  | Some _ => Raise TypeError
  | None => Raise (AttributeError name)
  end.

(* The heap a call of prove works on: the Prover object and the witness
   dictionary of the caller, both mutable and both outliving the call. *)
Record Heap : Type := MkHeap {
  self : Prover;
  wit : witness
}.

(* State and exceptions: a computation returns its result or the
   exception raised, and the heap as it stands at that moment. *)
Definition M (A : Type) : Type := Heap -> result A * Heap.

Definition ret {A : Type} (a : A) : M A := fun h => (Ok a, h).

Definition bind {A B : Type} (m : M A) (k : A -> M B) : M B :=
  fun h =>
    match m h with
    | (Ok a, h') => k a h'
    | (Raise e, h') => (Raise e, h')
    end.

(* An expression evaluated against the current self. *)
Definition with_self {A : Type} (f : Prover -> result A) : M A :=
  fun h => (f (self h), h).

Definition get_witness : M witness := fun h => (Ok (wit h), h).

Definition set_witness (w : witness) : M unit :=
  fun h => (Ok tt, MkHeap (self h) w).

(* self.name = v *)
Definition setattr (name : string) (v : value) : M unit :=
  fun h => (Ok tt, MkHeap (set_attr (self h) name v) (wit h)).

(* assert b *)
Definition assert (site : assert_site) (b : bool) : M unit :=
  fun h => (if b then Ok tt else Raise (AssertionError site), h).

End Data.

Arguments Point {F G1} _.
Arguments Eval {F G1} _.
Arguments VScalar {F G1} _.
Arguments VPoly {F G1} _.
Arguments VList {F G1} _.
Arguments VPoint {F G1} _.
Arguments empty_store {F G1}.
Arguments get_witness {F G1 Setup}.
Arguments set_witness {F G1 Setup} w.
Arguments setattr {F G1 Setup} name v.
Arguments assert {F G1 Setup} site b.

Notation "x <== m ;; k" := (bind m (fun x => k))
  (at level 100, m at next level, right associativity).
Notation "m ;;; k" := (bind m (fun _ => k))
  (at level 100, right associativity).

(* ===================================================================== *)
(* The prover                                                             *)
(* ===================================================================== *)

Section ProverRounds.

Variable F : fieldType.
Variable root_of_unity : nat -> F.
Variable G1 : Type.

(* Setup.commit, an external collaborator. *)
Variable Setup : Type.
Variable commit : Setup -> Polynomial F -> G1.

(* Transcript, an external collaborator: the object is created from a
   label, and each round_k absorbs a message, changes the transcript and
   returns the challenges of the round. *)
Variable Transcript : Type.
Variable Transcript_init : string -> Transcript.
Variable transcript_round_1 : Transcript -> Message1 G1 -> (F * F) * Transcript.
Variable transcript_round_2 : Transcript -> Message2 G1 -> (F * F) * Transcript.
Variable transcript_round_3 : Transcript -> Message3 G1 -> F * Transcript.
Variable transcript_round_4 : Transcript -> Message4 F -> F * Transcript.

Notation Polynomial := (Polynomial F).
Notation Prover := (Prover F G1 Setup).
Notation M := (M F G1 Setup).
Notation roots_of_unity := (roots_of_unity root_of_unity).

(* Lifted operators: polynomial with polynomial, polynomial with scalar,
   scalar with scalar. *)
Notation "x [+] y" := (lift2 (@padd F) x y) (at level 50, left associativity).
Notation "x [-] y" := (lift2 (@psub F) x y) (at level 50, left associativity).
Notation "x [*] y" := (lift2 (@pmul F) x y) (at level 40, left associativity).
Notation "x [/] y" := (lift2 (@pdiv F) x y) (at level 40, left associativity).
Notation "x [+.] c" := (lift2 (@padd_s F) x c)
  (at level 50, left associativity).
Notation "x [-.] c" := (lift2 (@psub_s F) x c)
  (at level 50, left associativity).
Notation "x [*.] c" := (lift2 (@pmul_s F) x c)
  (at level 40, left associativity).
Notation "x {+} y" := (lift2 (fun a b : F => Ok (a + b)) x y)
  (at level 50, left associativity).
Notation "x {-} y" := (lift2 (fun a b : F => Ok (a - b)) x y)
  (at level 50, left associativity).
Notation "x {*} y" := (lift2 (fun a b : F => Ok (a * b)) x y)
  (at level 40, left associativity).
Notation "x {/} y" := (lift2 (@sdiv F) x y)
  (at level 40, left associativity).
Notation "x {^} n" := (a <-- x ;; Ok (a ^+ n)) (at level 30).

(* p.values[i] *)
Definition value_at (p : result Polynomial) (i : nat) : result F :=
  a <-- p ;; list_get 0 (values a) i.

(* rlc on two scalars: term_1 + term_2 * self.beta + self.gamma *)
Definition rlc (s : Prover) (term_1 term_2 : result F) : result F :=
  t1 <-- term_1 ;; t2 <-- term_2 ;;
  Ok t1 {+} Ok t2 {*} attr_scalar s "beta" {+} attr_scalar s "gamma".

(* rlc on two polynomials *)
Definition rlc_poly (s : Prover) (term_1 term_2 : result Polynomial)
    : result Polynomial :=
  t1 <-- term_1 ;; t2 <-- term_2 ;;
  Ok t1 [+] Ok t2 [*.] attr_scalar s "beta" [+.] attr_scalar s "gamma".

Definition fft_expand (s : Prover) (x : result Polynomial)
    : result Polynomial :=
  p <-- x ;; offset <-- attr_scalar s "fft_cofactor" ;;
  to_coset_extended_lagrange root_of_unity p offset.

Definition expanded_evals_to_coeffs (s : Prover) (x : result Polynomial)
    : result Polynomial :=
  p <-- x ;; offset <-- attr_scalar s "fft_cofactor" ;;
  coset_extended_lagrange_to_coeffs root_of_unity p offset.

(* ---------------------------------------------------------------- *)
(* Round 1                                                           *)
(* ---------------------------------------------------------------- *)

(* for i, gates in enumerate(self.program.wires()): ... *)
Fixpoint assign_wires (w : witness) (i : nat) (gs : seq Wire)
    (ABC : seq F * seq F * seq F) : result (seq F * seq F * seq F) :=
  match gs with
  | [::] => Ok ABC
  | gates :: gs' =>
      a <-- dict_lookup w (wire_L gates) ;;
      A_values <-- list_set 0 ABC.1.1 i (Scalar F a) ;;
      b <-- dict_lookup w (wire_R gates) ;;
      B_values <-- list_set 0 ABC.1.2 i (Scalar F b) ;;
      c <-- dict_lookup w (wire_O gates) ;;
      C_values <-- list_set 0 ABC.2 i (Scalar F c) ;;
      assign_wires w i.+1 gs' (A_values, B_values, C_values)
  end.

(* The left-hand side of the gate constraint of round_1. *)
Definition gate_constraint (s : Prover) : result Polynomial :=
  attr_poly s "A" [*] Ok (QL (pk s))
  [+] attr_poly s "B" [*] Ok (QR (pk s))
  [+] attr_poly s "A" [*] attr_poly s "B" [*] Ok (QM (pk s))
  [+] attr_poly s "C" [*] Ok (QO (pk s))
  [+] attr_poly s "PI"
  [+] Ok (QC (pk s)).

Definition round_1 : M (Message1 G1) :=
  w <== get_witness ;;
  (if ~~ dict_mem None w then set_witness (dict_set w None 0) else ret tt) ;;;
  w <== get_witness ;;
  ABC <== with_self (fun s =>
    let zeros := nseq (group_order s) (Scalar F 0) in
    assign_wires w 0 (wires (program s)) (zeros, zeros, zeros)) ;;
  setattr "A" (VPoly (MkPolynomial ABC.1.1 LAGRANGE)) ;;;
  setattr "B" (VPoly (MkPolynomial ABC.1.2 LAGRANGE)) ;;;
  setattr "C" (VPoly (MkPolynomial ABC.2 LAGRANGE)) ;;;
  a_1 <== with_self (fun s => p <-- attr_poly s "A" ;; Ok (commit (setup s) p)) ;;
  b_1 <== with_self (fun s => p <-- attr_poly s "B" ;; Ok (commit (setup s) p)) ;;
  c_1 <== with_self (fun s => p <-- attr_poly s "C" ;; Ok (commit (setup s) p)) ;;
  holds <== with_self (fun s =>
    lhs <-- gate_constraint s ;;
    Ok (poly_eqb lhs
          (MkPolynomial (nseq (group_order s) (Scalar F 0)) LAGRANGE))) ;;
  assert GateCheck holds ;;;
  ret (MkMessage1 a_1 b_1 c_1).

(* ---------------------------------------------------------------- *)
(* Round 2                                                           *)
(* ---------------------------------------------------------------- *)

Definition perm_numerator (s : Prover) (roots : seq F) (i : nat) : result F :=
  rlc s (value_at (attr_poly s "A") i) (list_get 0 roots i)
  {*} rlc s (value_at (attr_poly s "B") i)
        (Ok (Scalar F 2) {*} list_get 0 roots i)
  {*} rlc s (value_at (attr_poly s "C") i)
        (Ok (Scalar F 3) {*} list_get 0 roots i).

Definition perm_denominator (s : Prover) (i : nat) : result F :=
  rlc s (value_at (attr_poly s "A") i) (value_at (Ok (S1 (pk s))) i)
  {*} rlc s (value_at (attr_poly s "B") i) (value_at (Ok (S2 (pk s))) i)
  {*} rlc s (value_at (attr_poly s "C") i) (value_at (Ok (S3 (pk s))) i).

(* for idx, i in enumerate(range(self.group_order), 1): Z_values.append(...) *)
Fixpoint accumulate (s : Prover) (roots : seq F) (steps : seq (nat * nat))
    (Z_values : seq F) : result (seq F) :=
  match steps with
  | [::] => Ok Z_values
  | (idx, i) :: steps' =>
      z <-- list_get 0 Z_values (idx - 1)
            {*} (perm_numerator s roots i {/} perm_denominator s i) ;;
      accumulate s roots steps' (rcons Z_values z)
  end.

(* Z_values.pop() *)
Definition list_pop (l : seq F) : result (F * seq F) :=
  match l with
  | [::] => Raise IndexError
  | x :: l' => Ok (last x l', belast x l')
  end.

(* for i in range(self.group_order): assert ... == 0 *)
Fixpoint check_accumulator (s : Prover) (roots : seq F) (idxs : seq nat)
    (Z_values : seq F) : result unit :=
  match idxs with
  | [::] => Ok tt
  | i :: idxs' =>
      d <-- perm_numerator s roots i {*} list_get 0 Z_values i
            {-} perm_denominator s i
                {*} list_get 0 Z_values ((i + 1) %% group_order s) ;;
      if d == 0 then check_accumulator s roots idxs' Z_values
      else Raise (AssertionError GrandProductStep)
  end.

Definition round_2 : M (Message2 G1) :=
  Z_values <== with_self (fun s =>
    let roots := roots_of_unity (group_order s) in
    Z_values <-- accumulate s roots
                   (zip (iota 1 (group_order s)) (iota 0 (group_order s)))
                   [:: Scalar F 1] ;;
    popped <-- list_pop Z_values ;;
    if popped.1 == Scalar F 1
    then _ <-- check_accumulator s roots (iota 0 (group_order s)) popped.2 ;;
         Ok popped.2
    else Raise (AssertionError GrandProductClose)) ;;
  setattr "Z" (VPoly (MkPolynomial Z_values LAGRANGE)) ;;;
  z_1 <== with_self (fun s => p <-- attr_poly s "Z" ;; Ok (commit (setup s) p)) ;;
  ret (MkMessage2 z_1).

(* ---------------------------------------------------------------- *)
(* Round 3                                                           *)
(* ---------------------------------------------------------------- *)

(* l[-n:] *)
Definition last_n (n : nat) (l : seq F) : seq F :=
  if n == 0%N then l else drop (size l - n) l.

(* for r in self.roots_of_unity: self.Z_H.append(...) *)
Fixpoint vanishing_values (s : Prover) (rs : seq F) (acc : seq F)
    : result (seq F) :=
  match rs with
  | [::] => Ok acc
  | r :: rs' =>
      z <-- (Ok r {*} attr_scalar s "fft_cofactor") {^} group_order s
            {-} Ok (Scalar F 1) ;;
      vanishing_values s rs' (rcons acc z)
  end.

(* The first summand of the quotient: the gate constraints over Z_H. *)
Definition quotient_gates (s : Prover) : result Polynomial :=
  (attr_poly s "A_expanded" [*] attr_poly s "QL_expanded"
   [+] attr_poly s "B_expanded" [*] attr_poly s "QR_expanded"
   [+] attr_poly s "A_expanded" [*] attr_poly s "B_expanded"
       [*] attr_poly s "QM_expanded"
   [+] attr_poly s "C_expanded" [*] attr_poly s "QO_expanded"
   [+] attr_poly s "PI_expanded"
   [+] attr_poly s "QC_expanded") [/] attr_poly s "Z_H".

(* The second summand: the permutation accumulator over Z_H. *)
Definition quotient_permutation (s : Prover) : result Polynomial :=
  ((rlc_poly s (attr_poly s "A_expanded")
      (attr_poly s "roots_of_unity_polynomial"
       [*.] attr_scalar s "fft_cofactor")
    [*] rlc_poly s (attr_poly s "B_expanded")
          (attr_poly s "roots_of_unity_polynomial"
           [*.] (Ok (Scalar F 2) {*} attr_scalar s "fft_cofactor"))
    [*] rlc_poly s (attr_poly s "C_expanded")
          (attr_poly s "roots_of_unity_polynomial"
           [*.] (Ok (Scalar F 3) {*} attr_scalar s "fft_cofactor"))
    [*] attr_poly s "Z_expanded") [*.] attr_scalar s "alpha"
   [-] (rlc_poly s (attr_poly s "A_expanded") (attr_poly s "S1_expanded")
        [*] rlc_poly s (attr_poly s "B_expanded") (attr_poly s "S2_expanded")
        [*] rlc_poly s (attr_poly s "C_expanded") (attr_poly s "S3_expanded")
        [*] attr_poly s "Z_W_expanded" [*.] attr_scalar s "alpha")
   [+] (attr_poly s "Z_expanded" [-.] Ok (Scalar F 1))
       [*] attr_poly s "L0_expanded"
       [*.] (attr_scalar s "alpha" {*} attr_scalar s "alpha"))
  [/] attr_poly s "Z_H".

(* The slice values[lo:hi] of the quotient, as a LAGRANGE polynomial. *)
Definition quotient_part (s : Prover) (lo hi : nat) : result Polynomial :=
  q <-- attr_poly s "QUOT_coefficients" ;;
  fft root_of_unity (MkPolynomial (drop lo (take hi (values q))) MONOMIAL).

Definition quotient_split_holds (s : Prover) : result bool :=
  lhs <-- lift2 (@barycentric_eval F root_of_unity)
            (attr_poly s "T1") (attr_scalar s "fft_cofactor")
          {+} lift2 (@barycentric_eval F root_of_unity)
                (attr_poly s "T2") (attr_scalar s "fft_cofactor")
              {*} (attr_scalar s "fft_cofactor" {^} group_order s)
          {+} lift2 (@barycentric_eval F root_of_unity)
                (attr_poly s "T3") (attr_scalar s "fft_cofactor")
              {*} (attr_scalar s "fft_cofactor" {^} (group_order s * 2)) ;;
  rhs <-- value_at (attr_poly s "QUOT_expanded") 0 ;;
  Ok (lhs == rhs).

Definition round_3 : M (Message3 G1) :=
  rs <== with_self (fun s => Ok (roots_of_unity (group_order s * 4))) ;;
  setattr "roots_of_unity" (VList rs) ;;;
  ABC <== with_self (fun s =>
    a <-- attr_poly s "A" ;; b <-- attr_poly s "B" ;; c <-- attr_poly s "C" ;;
    a' <-- fft_expand s (Ok a) ;; b' <-- fft_expand s (Ok b) ;;
    c' <-- fft_expand s (Ok c) ;; Ok (a', b', c')) ;;
  setattr "A_expanded" (VPoly ABC.1.1) ;;;
  setattr "B_expanded" (VPoly ABC.1.2) ;;;
  setattr "C_expanded" (VPoly ABC.2) ;;;
  PI_expanded <== with_self (fun s => fft_expand s (attr_poly s "PI")) ;;
  setattr "PI_expanded" (VPoly PI_expanded) ;;;
  Qs <== with_self (fun s =>
    ql <-- fft_expand s (Ok (QL (pk s))) ;;
    qr <-- fft_expand s (Ok (QR (pk s))) ;;
    qm <-- fft_expand s (Ok (QM (pk s))) ;;
    qo <-- fft_expand s (Ok (QO (pk s))) ;;
    qc <-- fft_expand s (Ok (QC (pk s))) ;;
    Ok (ql, qr, qm, qo, qc)) ;;
  setattr "QL_expanded" (VPoly Qs.1.1.1.1) ;;;
  setattr "QR_expanded" (VPoly Qs.1.1.1.2) ;;;
  setattr "QM_expanded" (VPoly Qs.1.1.2) ;;;
  setattr "QO_expanded" (VPoly Qs.1.2) ;;;
  setattr "QC_expanded" (VPoly Qs.2) ;;;
  Z_expanded <== with_self (fun s => fft_expand s (attr_poly s "Z")) ;;
  setattr "Z_expanded" (VPoly Z_expanded) ;;;
  Z_W_expanded <== with_self (fun s =>
    fft_expand s (z <-- attr_poly s "Z" ;; shift z 1)) ;;
  setattr "Z_W_expanded" (VPoly Z_W_expanded) ;;;
  Ss <== with_self (fun s =>
    s1 <-- fft_expand s (Ok (S1 (pk s))) ;;
    s2 <-- fft_expand s (Ok (S2 (pk s))) ;;
    s3 <-- fft_expand s (Ok (S3 (pk s))) ;;
    Ok (s1, s2, s3)) ;;
  setattr "S1_expanded" (VPoly Ss.1.1) ;;;
  setattr "S2_expanded" (VPoly Ss.1.2) ;;;
  setattr "S3_expanded" (VPoly Ss.2) ;;;
  setattr "Z_H" (VList [::]) ;;;
  zh <== with_self (fun s =>
    rs <-- attr_list s "roots_of_unity" ;; vanishing_values s rs [::]) ;;
  setattr "Z_H" (VList zh) ;;;
  setattr "Z_H" (VPoly (MkPolynomial zh LAGRANGE)) ;;;
  L0 <== with_self (fun s =>
    Ok (MkPolynomial (Scalar F 1 :: nseq (group_order s - 1) (Scalar F 0))
          LAGRANGE)) ;;
  setattr "L0" (VPoly L0) ;;;
  L0_expanded <== with_self (fun s => fft_expand s (attr_poly s "L0")) ;;
  setattr "L0_expanded" (VPoly L0_expanded) ;;;
  gates <== with_self quotient_gates ;;
  setattr "gates" (VPoly gates) ;;;
  rp <== with_self (fun s =>
    rs <-- attr_list s "roots_of_unity" ;; Ok (MkPolynomial rs LAGRANGE)) ;;
  setattr "roots_of_unity_polynomial" (VPoly rp) ;;;
  pgp <== with_self quotient_permutation ;;
  setattr "permutation_grand_product" (VPoly pgp) ;;;
  quot <== with_self (fun s =>
    attr_poly s "gates" [+] attr_poly s "permutation_grand_product") ;;
  setattr "QUOT_expanded" (VPoly quot) ;;;
  coeffs <== with_self (fun s =>
    expanded_evals_to_coeffs s (attr_poly s "QUOT_expanded")) ;;
  setattr "QUOT_coefficients" (VPoly coeffs) ;;;
  low_degree <== with_self (fun s =>
    q <-- attr_poly s "QUOT_coefficients" ;;
    Ok (last_n (group_order s) (values q)
        == nseq (group_order s) (Scalar F 0))) ;;
  assert QuotDegree low_degree ;;;
  T1 <== with_self (fun s => quotient_part s 0 (group_order s)) ;;
  setattr "T1" (VPoly T1) ;;;
  T2 <== with_self (fun s =>
    quotient_part s (group_order s) (2 * group_order s)) ;;
  setattr "T2" (VPoly T2) ;;;
  T3 <== with_self (fun s =>
    quotient_part s (2 * group_order s) (3 * group_order s)) ;;
  setattr "T3" (VPoly T3) ;;;
  split_ok <== with_self quotient_split_holds ;;
  assert QuotSplit split_ok ;;;
  t_lo_1 <== with_self (fun s =>
    p <-- attr_poly s "T1" ;; Ok (commit (setup s) p)) ;;
  t_mid_1 <== with_self (fun s =>
    p <-- attr_poly s "T2" ;; Ok (commit (setup s) p)) ;;
  t_hi_1 <== with_self (fun s =>
    p <-- attr_poly s "T3" ;; Ok (commit (setup s) p)) ;;
  ret (MkMessage3 t_lo_1 t_mid_1 t_hi_1).

(* ---------------------------------------------------------------- *)
(* Round 4                                                           *)
(* ---------------------------------------------------------------- *)

Definition eval_at_zeta (s : Prover) (p : result Polynomial) : result F :=
  lift2 (@barycentric_eval F root_of_unity) p (attr_scalar s "zeta").

Definition round_4 : M (Message4 F) :=
  x <== with_self (fun s => eval_at_zeta s (attr_poly s "A")) ;;
  setattr "a_eval" (VScalar x) ;;;
  x <== with_self (fun s => eval_at_zeta s (attr_poly s "B")) ;;
  setattr "b_eval" (VScalar x) ;;;
  x <== with_self (fun s => eval_at_zeta s (attr_poly s "C")) ;;
  setattr "c_eval" (VScalar x) ;;;
  x <== with_self (fun s => eval_at_zeta s (Ok (S1 (pk s)))) ;;
  setattr "s1_eval" (VScalar x) ;;;
  x <== with_self (fun s => eval_at_zeta s (Ok (S2 (pk s)))) ;;
  setattr "s2_eval" (VScalar x) ;;;
  x <== with_self (fun s =>
    let root_of_unity_n := root_of_unity (group_order s) in
    lift2 (@barycentric_eval F root_of_unity) (attr_poly s "Z")
      (attr_scalar s "zeta" {*} Ok root_of_unity_n)) ;;
  setattr "z_shifted_eval" (VScalar x) ;;;
  with_self (fun s =>
    a <-- attr_scalar s "a_eval" ;; b <-- attr_scalar s "b_eval" ;;
    c <-- attr_scalar s "c_eval" ;; s1 <-- attr_scalar s "s1_eval" ;;
    s2 <-- attr_scalar s "s2_eval" ;; zs <-- attr_scalar s "z_shifted_eval" ;;
    Ok (MkMessage4 a b c s1 s2 zs)).

(* ---------------------------------------------------------------- *)
(* Round 5                                                           *)
(* ---------------------------------------------------------------- *)

(* The gate constraints, linearized (self.gates of round_5). *)
Definition linearized_gates (s : Prover) : result Polynomial :=
  attr_poly s "QL_expanded" [*.] attr_scalar s "a_eval"
  [+] attr_poly s "QR_expanded" [*.] attr_scalar s "b_eval"
  [+] attr_poly s "QM_expanded" [*.] attr_scalar s "a_eval"
      [*.] attr_scalar s "b_eval"
  [+] attr_poly s "QO_expanded" [*.] attr_scalar s "c_eval"
  [+.] attr_scalar s "PI_eval"
  [+] attr_poly s "QC_expanded".

(* The permutation argument, linearized (self.permutation_grand_product of
   round_5); c_eval is the local constant polynomial of size 4n. *)
Definition linearized_permutation (s : Prover) (c_eval : Polynomial)
    : result Polynomial :=
  attr_poly s "Z_expanded"
  [*.] (rlc s (attr_scalar s "a_eval") (attr_scalar s "zeta")
        {*} rlc s (attr_scalar s "b_eval")
              (Ok (Scalar F 2) {*} attr_scalar s "zeta")
        {*} rlc s (attr_scalar s "c_eval")
              (Ok (Scalar F 3) {*} attr_scalar s "zeta"))
  [-] (rlc_poly s (Ok c_eval) (attr_poly s "S3_expanded")
       [*.] rlc s (attr_scalar s "a_eval") (attr_scalar s "s1_eval")
       [*.] rlc s (attr_scalar s "b_eval") (attr_scalar s "s2_eval"))
      [*.] attr_scalar s "z_shifted_eval".

Definition linearization (s : Prover) : result Polynomial :=
  attr_poly s "gates"
  [+] attr_poly s "permutation_grand_product" [*.] attr_scalar s "alpha"
  [+] attr_poly s "permutation" [*.] (attr_scalar s "alpha" {^} 2)
  [-] attr_poly s "T_argument" [*.] attr_scalar s "Z_H_eval".

Definition opening_at_zeta (s : Prover) : result Polynomial :=
  (attr_poly s "R_argument"
   [+] (attr_poly s "A_expanded" [-.] attr_scalar s "a_eval")
       [*.] attr_scalar s "v"
   [+] (attr_poly s "B_expanded" [-.] attr_scalar s "b_eval")
       [*.] (attr_scalar s "v" {^} 2)
   [+] (attr_poly s "C_expanded" [-.] attr_scalar s "c_eval")
       [*.] (attr_scalar s "v" {^} 3)
   [+] (attr_poly s "S1_expanded" [-.] attr_scalar s "s1_eval")
       [*.] (attr_scalar s "v" {^} 4)
   [+] (attr_poly s "S2_expanded" [-.] attr_scalar s "s2_eval")
       [*.] (attr_scalar s "v" {^} 5))
  [/] (attr_poly s "quarter_roots" [*.] attr_scalar s "fft_cofactor"
       [-.] attr_scalar s "zeta").

Definition opening_at_zeta_omega (s : Prover) : result Polynomial :=
  (attr_poly s "Z_expanded" [-.] attr_scalar s "z_shifted_eval")
  [/] (attr_poly s "quarter_roots" [*.] attr_scalar s "fft_cofactor"
       [-.] (attr_scalar s "root_of_unity" {*} attr_scalar s "zeta")).

Definition round_5 : M (Message5 G1) :=
  x <== with_self (fun s => eval_at_zeta s (attr_poly s "L0")) ;;
  setattr "L0_eval" (VScalar x) ;;;
  x <== with_self (fun s =>
    attr_scalar s "zeta" {^} group_order s {-} Ok (Scalar F 1)) ;;
  setattr "Z_H_eval" (VScalar x) ;;;
  Ts <== with_self (fun s =>
    t1 <-- attr_poly s "T1" ;; t2 <-- attr_poly s "T2" ;;
    t3 <-- attr_poly s "T3" ;;
    t1' <-- fft_expand s (Ok t1) ;; t2' <-- fft_expand s (Ok t2) ;;
    t3' <-- fft_expand s (Ok t3) ;; Ok (t1', t2', t3')) ;;
  setattr "T1_expanded" (VPoly Ts.1.1) ;;;
  setattr "T2_expanded" (VPoly Ts.1.2) ;;;
  setattr "T3_expanded" (VPoly Ts.2) ;;;
  x <== with_self (fun s => eval_at_zeta s (attr_poly s "PI")) ;;
  setattr "PI_eval" (VScalar x) ;;;
  c_eval <== with_self (fun s =>
    c <-- attr_scalar s "c_eval" ;;
    Ok (MkPolynomial (nseq (group_order s * 4) c) LAGRANGE)) ;;
  gates <== with_self linearized_gates ;;
  setattr "gates" (VPoly gates) ;;;
  pgp <== with_self (fun s => linearized_permutation s c_eval) ;;
  setattr "permutation_grand_product" (VPoly pgp) ;;;
  perm <== with_self (fun s =>
    (attr_poly s "Z_expanded" [-.] Ok (Scalar F 1))
    [*.] attr_scalar s "L0_eval") ;;
  setattr "permutation" (VPoly perm) ;;;
  targ <== with_self (fun s =>
    attr_poly s "T1_expanded"
    [+] attr_poly s "T2_expanded" [*.] (attr_scalar s "zeta" {^} group_order s)
    [+] attr_poly s "T3_expanded"
        [*.] (attr_scalar s "zeta" {^} (2 * group_order s))) ;;
  setattr "T_argument" (VPoly targ) ;;;
  rarg <== with_self linearization ;;
  setattr "R_argument" (VPoly rarg) ;;;
  R_coeffs <== with_self (fun s =>
    c <-- expanded_evals_to_coeffs s (attr_poly s "R_argument") ;;
    Ok (values c)) ;;
  low <== with_self (fun s =>
    Ok (drop (group_order s) R_coeffs
        == nseq (group_order s * 3) (Scalar F 0))) ;;
  assert RDegree low ;;;
  R <== with_self (fun s =>
    fft root_of_unity
      (MkPolynomial (take (group_order s) R_coeffs) MONOMIAL)) ;;
  setattr "R" (VPoly R) ;;;
  R_commit <== with_self (fun s =>
    p <-- attr_poly s "R" ;; Ok (commit (setup s) p)) ;;
  setattr "R_commit" (VPoint R_commit) ;;;
  vanishes <== with_self (fun s =>
    y <-- eval_at_zeta s (attr_poly s "R") ;; Ok (y == Scalar F 0)) ;;
  assert REval vanishes ;;;
  qr <== with_self (fun s =>
    rs <-- attr_list s "roots_of_unity" ;; Ok (MkPolynomial rs LAGRANGE)) ;;
  setattr "quarter_roots" (VPoly qr) ;;;
  w <== with_self (fun s => Ok (root_of_unity (group_order s))) ;;
  setattr "root_of_unity" (VScalar w) ;;;
  wz <== with_self opening_at_zeta ;;
  setattr "W_Z_argument" (VPoly wz) ;;;
  W_z_coeffs <== with_self (fun s =>
    c <-- expanded_evals_to_coeffs s (attr_poly s "W_Z_argument") ;;
    Ok (values c)) ;;
  low <== with_self (fun s =>
    Ok (drop (group_order s) W_z_coeffs
        == nseq (group_order s * 3) (Scalar F 0))) ;;
  assert WzDegree low ;;;
  W_z <== with_self (fun s =>
    fft root_of_unity
      (MkPolynomial (take (group_order s) W_z_coeffs) MONOMIAL)) ;;
  setattr "W_z" (VPoly W_z) ;;;
  low <== with_self (fun s =>
    Ok (drop (group_order s) W_z_coeffs
        == nseq (group_order s * 3) (Scalar F 0))) ;;
  assert WzDegree low ;;;
  W_z_1 <== with_self (fun s =>
    p <-- attr_poly s "W_z" ;; Ok (commit (setup s) p)) ;;
  setattr "W_z_1" (VPoint W_z_1) ;;;
  wzw <== with_self opening_at_zeta_omega ;;
  setattr "W_zw_argument" (VPoly wzw) ;;;
  W_zw_coeffs <== with_self (fun s =>
    c <-- expanded_evals_to_coeffs s (attr_poly s "W_zw_argument") ;;
    Ok (values c)) ;;
  low <== with_self (fun s =>
    Ok (drop (group_order s) W_zw_coeffs
        == nseq (group_order s * 3) (Scalar F 0))) ;;
  assert WzwDegree low ;;;
  W_zw <== with_self (fun s =>
    fft root_of_unity
      (MkPolynomial (take (group_order s) W_zw_coeffs) MONOMIAL)) ;;
  setattr "W_zw" (VPoly W_zw) ;;;
  low <== with_self (fun s =>
    Ok (drop (group_order s) W_zw_coeffs
        == nseq (group_order s * 3) (Scalar F 0))) ;;
  assert WzwDegree low ;;;
  W_zw_1 <== with_self (fun s =>
    p <-- attr_poly s "W_zw" ;; Ok (commit (setup s) p)) ;;
  setattr "W_zw_1" (VPoint W_zw_1) ;;;
  with_self (fun s =>
    a <-- attr_point s "W_z_1" ;; b <-- attr_point s "W_zw_1" ;;
    Ok (MkMessage5 a b)).

(* ---------------------------------------------------------------- *)
(* prove                                                             *)
(* ---------------------------------------------------------------- *)

(* [Scalar(-witness[v]) for v in public_vars] *)
Fixpoint public_values (w : witness) (public_vars : seq (option string))
    : result (seq F) :=
  match public_vars with
  | [::] => Ok [::]
  | v :: vs =>
      x <-- dict_lookup w v ;;
      r <-- public_values w vs ;;
      Ok (Scalar F (- x) :: r)
  end.

(* "Collect fixed and public information": self.PI *)
Definition public_inputs : M unit :=
  w <== get_witness ;;
  PI <== with_self (fun s =>
    let public_vars := get_public_assignments (program s) in
    vs <-- public_values w public_vars ;;
    Ok (MkPolynomial
          (vs ++ nseq (group_order s - size public_vars) (Scalar F 0))
          LAGRANGE)) ;;
  setattr "PI" (VPoly PI).

Definition prove : M (Proof F G1) :=
  let transcript := Transcript_init "plonk" in
  public_inputs ;;;
  msg_1 <== round_1 ;;
  let: (beta, gamma, transcript) := transcript_round_1 transcript msg_1 in
  setattr "beta" (VScalar beta) ;;;
  setattr "gamma" (VScalar gamma) ;;;
  msg_2 <== round_2 ;;
  let: (alpha, fft_cofactor, transcript) :=
    transcript_round_2 transcript msg_2 in
  setattr "alpha" (VScalar alpha) ;;;
  setattr "fft_cofactor" (VScalar fft_cofactor) ;;;
  msg_3 <== round_3 ;;
  let: (zeta, transcript) := transcript_round_3 transcript msg_3 in
  setattr "zeta" (VScalar zeta) ;;;
  msg_4 <== round_4 ;;
  let: (v, transcript) := transcript_round_4 transcript msg_4 in
  setattr "v" (VScalar v) ;;;
  msg_5 <== round_5 ;;
  ret (MkProof msg_1 msg_2 msg_3 msg_4 msg_5).

End ProverRounds.

Arguments rlc : simpl never.
Arguments rlc_poly : simpl never.
Arguments fft_expand : simpl never.
Arguments expanded_evals_to_coeffs : simpl never.
Arguments perm_numerator : simpl never.
Arguments perm_denominator : simpl never.
Arguments gate_constraint : simpl never.
Arguments quotient_gates : simpl never.
Arguments quotient_permutation : simpl never.
Arguments quotient_part : simpl never.
Arguments quotient_split_holds : simpl never.
Arguments eval_at_zeta : simpl never.
Arguments linearized_gates : simpl never.
Arguments linearized_permutation : simpl never.
Arguments linearization : simpl never.
Arguments opening_at_zeta : simpl never.
Arguments opening_at_zeta_omega : simpl never.

(* ===================================================================== *)
(* Polynomials in evaluation form, by their value at each position        *)
(* ===================================================================== *)

Section Tabulated.
Variable F : fieldType.

(* The LAGRANGE polynomial with value f i at position i < n. *)
Definition tab (n : nat) (f : nat -> F) : Polynomial F :=
  MkPolynomial [seq f i | i <- iota 0 n] LAGRANGE.

Lemma size_tab n f : size (values (tab n f)) = n.
Proof. by rewrite /= size_map size_iota. Qed.

Lemma eq_tab n f g : (forall i, (i < n)%N -> f i = g i) -> tab n f = tab n g.
Proof.
move=> fg; congr MkPolynomial; apply/eq_in_map => i.
by rewrite mem_iota add0n => /andP[_ /fg].
Qed.

Lemma tab_nth (p : Polynomial F) :
  basis p = LAGRANGE -> p = tab (size (values p)) (nth 0 (values p)).
Proof.
case: p => vs b /= ->; congr MkPolynomial.
by apply: (@eq_from_nth _ 0) => [|i ilt]; rewrite ?size_map ?size_iota // (nth_map 0%N) ?size_iota // nth_iota.
Qed.

Lemma tab_nseq n (c : F) : MkPolynomial (nseq n c) LAGRANGE = tab n (fun=> c).
Proof.
congr MkPolynomial; apply: (@eq_from_nth _ 0); rewrite ?size_nseq ?size_map ?size_iota // => i ilt.
by rewrite nth_nseq ilt (nth_map 0%N) ?size_iota.
Qed.

Lemma zip_with_tab (op : F -> F -> F) n f g :
  zip_with op [seq f i | i <- iota 0 n] [seq g i | i <- iota 0 n]
  = [seq op (f i) (g i) | i <- iota 0 n].
Proof. by rewrite /zip_with zip_map -map_comp. Qed.

Lemma same_shape_tab n f g : same_shape (tab n f) (tab n g).
Proof. by rewrite /same_shape /= !size_map eqxx. Qed.

Lemma padd_tab n f g : padd (tab n f) (tab n g) = Ok (tab n (fun i => f i + g i)).
Proof. by rewrite /padd same_shape_tab /= zip_with_tab. Qed.

Lemma psub_tab n f g : psub (tab n f) (tab n g) = Ok (tab n (fun i => f i - g i)).
Proof. by rewrite /psub same_shape_tab /= zip_with_tab. Qed.

Lemma pmul_tab n f g : pmul (tab n f) (tab n g) = Ok (tab n (fun i => f i * g i)).
Proof. by rewrite /pmul same_shape_tab /= zip_with_tab. Qed.

Lemma promote_tab n f c : promote (tab n f) c = tab n (fun=> c).
Proof. by rewrite /promote /= size_map size_iota tab_nseq. Qed.

Lemma padd_s_tab n f c : padd_s (tab n f) c = Ok (tab n (fun i => f i + c)).
Proof. by rewrite /padd_s promote_tab padd_tab. Qed.

Lemma psub_s_tab n f c : psub_s (tab n f) c = Ok (tab n (fun i => f i - c)).
Proof. by rewrite /psub_s promote_tab psub_tab. Qed.

Lemma pmul_s_tab n f c : pmul_s (tab n f) c = Ok (tab n (fun i => f i * c)).
Proof. by rewrite /pmul_s /= -map_comp. Qed.

Lemma div_values_map (s : seq nat) (f g : nat -> F) :
  {in s, forall i, g i != 0} ->
  div_values [seq f i | i <- s] [seq g i | i <- s]
  = Ok [seq f i / g i | i <- s].
Proof.
elim: s => [//|i s IH] nz /=.
rewrite /sdiv (negPf (nz i _)) ?mem_head //= IH // => j js.
by apply: nz; rewrite in_cons js orbT.
Qed.

Lemma pdiv_tab n f g :
  (forall i, (i < n)%N -> g i != 0) ->
  pdiv (tab n f) (tab n g) = Ok (tab n (fun i => f i / g i)).
Proof.
move=> nz; rewrite /pdiv same_shape_tab /= div_values_map //.
by move=> i; rewrite mem_iota add0n => /andP[_ /nz].
Qed.

Lemma poly_eqb_tab n f g :
  poly_eqb (tab n f) (tab n g) = all (fun i => f i == g i) (iota 0 n).
Proof.
rewrite /poly_eqb /=.
elim: (iota 0 n) => [//|i s IH] /=.
by rewrite eqseq_cons IH.
Qed.

End Tabulated.

Arguments tab : simpl never.

(* ===================================================================== *)
(* What a round leaves alone                                              *)
(* ===================================================================== *)

Section Frame.
Variables (F : fieldType) (G1 Setup : Type).
Notation Prover := (Prover F G1 Setup).
Notation Heap := (Heap F G1 Setup).
Notation M := (M F G1 Setup).

(* The four fields of the dataclass. *)
Definition fixed (s : Prover) := (group_order s, setup s, program s, pk s).

(* A computation that assigns attributes of self only: it leaves the
   witness and the four fields alone. *)
Definition attrs_only {A : Type} (m : M A) : Prop :=
  forall h, wit (m h).2 = wit h /\ fixed (self (m h).2) = fixed (self h).

Lemma attrs_only_ret A (a : A) : attrs_only (ret a : M A).
Proof. by []. Qed.

Lemma attrs_only_with_self A (f : Prover -> result A) : attrs_only (with_self f).
Proof. by []. Qed.

Lemma attrs_only_setattr name v : attrs_only (setattr name v : M unit).
Proof. by []. Qed.

Lemma attrs_only_assert site b : attrs_only (assert site b : M unit).
Proof. by []. Qed.

Lemma attrs_only_bind A B (m : M A) (k : A -> M B) :
  attrs_only m -> (forall a, attrs_only (k a)) -> attrs_only (bind m k).
Proof.
move=> Hm Hk h; rewrite /bind; case: (Hm h); case: (m h) => [[a|e] h'] //= <- <-.
exact: Hk.
Qed.

Lemma attrs_only_wit A (m : M A) h : attrs_only m -> wit (m h).2 = wit h.
Proof. by case/(_ h). Qed.

Lemma attrs_only_fixed A (m : M A) h :
  attrs_only m -> fixed (self (m h).2) = fixed (self h).
Proof. by case/(_ h). Qed.

End Frame.

Ltac attrs_only_step :=
  lazymatch goal with
  | |- attrs_only (bind _ _) => refine (attrs_only_bind _ _); [|intro]
  | |- attrs_only (ret _) => refine (attrs_only_ret _)
  | |- attrs_only (with_self _) => refine (attrs_only_with_self _)
  | |- attrs_only (setattr _ _) => refine (attrs_only_setattr _ _)
  | |- attrs_only (assert _ _) => refine (attrs_only_assert _ _)
  | |- attrs_only (let (_, _) := ?e in _) => destruct e
  end.
Ltac attrs_only_tac := repeat attrs_only_step.

Section Frame2.
Variables (F : fieldType) (root_of_unity : nat -> F) (G1 Setup : Type).
Variable commit : Setup -> Polynomial F -> G1.

Lemma attrs_only_round_2 : attrs_only (round_2 root_of_unity commit).
Proof. rewrite /round_2; attrs_only_tac. Qed.


Lemma attrs_only_round_3 : attrs_only (round_3 root_of_unity commit).
Proof. rewrite /round_3; attrs_only_tac. Qed.

Lemma attrs_only_round_4 : attrs_only (@round_4 F root_of_unity G1 Setup).
Proof. rewrite /round_4; attrs_only_tac. Qed.

Lemma attrs_only_round_5 : attrs_only (round_5 root_of_unity commit).
Proof. rewrite /round_5; attrs_only_tac. Qed.
End Frame2.

Ltac attrs_only_round :=
  lazymatch goal with
  | |- attrs_only (round_2 _ _) => refine (@attrs_only_round_2 _ _ _ _ _)
  | |- attrs_only (round_3 _ _) => refine (@attrs_only_round_3 _ _ _ _ _)
  | |- attrs_only (@round_4 _ _ _ _) => refine (@attrs_only_round_4 _ _ _ _)
  | |- attrs_only (round_5 _ _) => refine (@attrs_only_round_5 _ _ _ _ _)
  | |- _ => attrs_only_step
  end.

(* A computation that never assigns the attribute name. *)
Section Leaves.
Variables (F : fieldType) (G1 Setup : Type).
Notation M := (M F G1 Setup).

Definition leaves (name : string) {A : Type} (m : M A) : Prop :=
  forall h, attrs (self (m h).2) name = attrs (self h) name.

Lemma leaves_ret name A (a : A) : leaves name (ret a : M A).
Proof. by []. Qed.

Lemma leaves_with_self name A (f : Prover F G1 Setup -> result A) :
  leaves name (with_self f).
Proof. by []. Qed.

Lemma leaves_assert name site b : leaves name (assert site b : M unit).
Proof. by []. Qed.

Lemma leaves_setattr name k v :
  String.eqb name k = false -> leaves name (setattr k v : M unit).
Proof. by move=> ne h; rewrite /= /store_set ne. Qed.

Lemma leaves_bind name A B (m : M A) (k : A -> M B) :
  leaves name m -> (forall a, leaves name (k a)) -> leaves name (bind m k).
Proof.
move=> Hm Hk h; rewrite /bind; have := Hm h.
by case: (m h) => [[a|e] h'] //= <-; apply: Hk.
Qed.

End Leaves.

Ltac leaves_step :=
  lazymatch goal with
  | |- leaves _ (bind _ _) => refine (leaves_bind _ _); [|intro]
  | |- leaves _ (ret _) => refine (leaves_ret _ _)
  | |- leaves _ (with_self _) => refine (leaves_with_self _ _)
  | |- leaves _ (setattr _ _) => refine (leaves_setattr _ _); reflexivity
  | |- leaves _ (assert _ _) => refine (leaves_assert _ _ _)
  | |- leaves _ (let (_, _) := ?e in _) => destruct e
  end.

Section LeavesRounds.
Variables (F : fieldType) (root_of_unity : nat -> F) (G1 Setup : Type).
Variable commit : Setup -> Polynomial F -> G1.

(* The challenges are assigned by prove, between the rounds, and by
   nothing else. *)
Definition challenge_names : seq string :=
  [:: "beta"; "gamma"; "alpha"; "fft_cofactor"; "zeta"; "v"]%string.

Lemma round_2_leaves_challenges name :
  name \in challenge_names -> leaves name (round_2 root_of_unity commit).
Proof.
rewrite !inE => /or4P[/eqP->|/eqP->|/eqP->|/orP[/eqP->|/orP[/eqP->|/eqP->]]];
  by rewrite /round_2; repeat leaves_step.
Qed.

Lemma round_3_leaves_challenges name :
  name \in challenge_names -> leaves name (round_3 root_of_unity commit).
Proof.
rewrite !inE => /or4P[/eqP->|/eqP->|/eqP->|/orP[/eqP->|/orP[/eqP->|/eqP->]]];
  by rewrite /round_3; repeat leaves_step.
Qed.

Lemma round_4_leaves_challenges name :
  name \in challenge_names -> leaves name (@round_4 F root_of_unity G1 Setup).
Proof.
rewrite !inE => /or4P[/eqP->|/eqP->|/eqP->|/orP[/eqP->|/orP[/eqP->|/eqP->]]];
  by rewrite /round_4; repeat leaves_step.
Qed.

Lemma round_5_leaves_challenges name :
  name \in challenge_names -> leaves name (round_5 root_of_unity commit).
Proof.
rewrite !inE => /or4P[/eqP->|/eqP->|/eqP->|/orP[/eqP->|/orP[/eqP->|/eqP->]]];
  by rewrite /round_5; repeat leaves_step.
Qed.

End LeavesRounds.

(* ===================================================================== *)
(* Round 1                                                                *)
(* ===================================================================== *)

Section Round1.
Variables (F : fieldType) (G1 Setup : Type).
Variable commit : Setup -> Polynomial F -> G1.
Notation Prover := (Prover F G1 Setup).
Notation Heap := (Heap F G1 Setup).

Definition normalize (w : witness) : witness :=
  if dict_mem None w then w else dict_set w None 0.

Definition wires_assigned (s : Prover) (ABC : seq F * seq F * seq F) : Prover :=
  set_attr (set_attr (set_attr s "A" (VPoly (MkPolynomial ABC.1.1 LAGRANGE)))
     "B" (VPoly (MkPolynomial ABC.1.2 LAGRANGE)))
     "C" (VPoly (MkPolynomial ABC.2 LAGRANGE)).

Definition gate_check (s : Prover) (ABC : seq F * seq F * seq F) : result (Message1 G1) :=
  lhs <-- gate_constraint s ;;
  if poly_eqb lhs (MkPolynomial (nseq (group_order s) 0) LAGRANGE)
  then Ok (MkMessage1 (commit (setup s) (MkPolynomial ABC.1.1 LAGRANGE))
             (commit (setup s) (MkPolynomial ABC.1.2 LAGRANGE))
             (commit (setup s) (MkPolynomial ABC.2 LAGRANGE)))
  else Raise (AssertionError GateCheck).

Lemma round_1_run (h : Heap) :
  let w := normalize (wit h) in
  let zeros := nseq (group_order (self h)) (0 : F) in
  round_1 commit h =
  match assign_wires w 0 (wires (program (self h))) (zeros, zeros, zeros) with
  | Raise e => (Raise e, MkHeap (self h) w)
  | Ok ABC => (gate_check (wires_assigned (self h) ABC) ABC,
               MkHeap (wires_assigned (self h) ABC) w)
  end.
Proof.
case: h => s w0 /=; rewrite /round_1 /bind /normalize /=.
have -> : (if ~~ dict_mem None w0 then set_witness (dict_set w0 None 0) else ret tt) (MkHeap s w0)
   = (Ok tt, MkHeap s (if dict_mem None w0 then w0 else dict_set w0 None 0)) :> result unit * Heap.
  by case: (dict_mem None w0).
rewrite /=.
case: (assign_wires _ _ _ _) => [[[A B] C]|e] //=.
rewrite /gate_check.
by case: (gate_constraint _) => [lhs|e] //=; case: (poly_eqb _ _).
Qed.


Definition wire_value (w : witness) (k : option string) : F :=
  Scalar F (odflt 0 (dict_get w k)).

Definition covers (w : witness) (gs : seq Wire) : bool :=
  all (fun g => [&& dict_mem (wire_L g) w, dict_mem (wire_R g) w
                  & dict_mem (wire_O g) w]) gs.

Definition no_wire : Wire := MkWire None None None.

(* Column proj of the wire assignment: the value of wire proj of gate j
   at position i + j, and the earlier content elsewhere. *)
Definition column (proj : Wire -> option string) (w : witness) (i : nat)
    (gs : seq Wire) (old : seq F) (j : nat) : F :=
  if (i <= j < i + size gs)%N
  then wire_value w (proj (nth no_wire gs (j - i)))
  else nth 0 old j.

Lemma dict_lookupE (w : witness) k :
  dict_lookup w k
  = if dict_mem k w then Ok (odflt 0 (dict_get w k)) else Raise (KeyError k).
Proof. by rewrite /dict_lookup /dict_mem; case: (dict_get w k). Qed.

Lemma nth_set_nth_in (s : seq F) i y j :
  nth 0 (set_nth 0 s i y) j = if j == i then y else nth 0 s j.
Proof. by rewrite nth_set_nth. Qed.

Lemma assign_wires_inv w gs : forall i A B C R,
  assign_wires w i gs (A, B, C) = Ok R ->
  [/\ covers w gs,
      [/\ size R.1.1 = size A, size R.1.2 = size B & size R.2 = size C],
      (gs = [::]) \/ [/\ (i + size gs <= size A)%N, (i + size gs <= size B)%N
                         & (i + size gs <= size C)%N]
    & forall j, [/\ nth 0 R.1.1 j = column wire_L w i gs A j,
                    nth 0 R.1.2 j = column wire_R w i gs B j
                  & nth 0 R.2 j = column wire_O w i gs C j]].
Proof.
elim: gs => [|g gs IH] i A B C R /=.
  case=> <- /=; split=> //; first by left.
  by move=> j; rewrite /column addn0 /=; case: ifP => //; case: ltngtP.
rewrite !dict_lookupE /list_set.
case kL: (dict_mem _ _) => //=; case: ifP => // iA /=.
case kR: (dict_mem _ _) => //=; case: ifP => // iB /=.
case kO: (dict_mem _ _) => //=; case: ifP => // iC /=.
move/IH => [cov [sA sB sC] bnd vals]; split => //.
- rewrite sA sB sC !size_set_nth; split; apply/maxn_idPr => //.
- right; case: bnd => [->|[]] /=; first by rewrite addn1.
  by rewrite !size_set_nth !addSnnS !(maxn_idPr _).
move=> j; case: (vals j) => -> -> ->.
rewrite /column /= !nth_set_nth_in.
have -> : (i.+1 <= j < i.+1 + size gs)%N = (i < j)%N && (j < i + (size gs).+1)%N.
  by rewrite addSnnS.
case: (ltngtP i j) => [ij|ji|<-] /=.
- by rewrite -(subnSK ij).
- by [].
by rewrite subnn /= addnS ltnS leq_addr.
Qed.

Lemma assign_wires_ok w gs : covers w gs -> forall i (A B C : seq F),
  (i + size gs <= size A)%N -> (i + size gs <= size B)%N ->
  (i + size gs <= size C)%N ->
  is_ok (assign_wires w i gs (A, B, C)).
Proof.
elim: gs => [//|g gs IH] /= /andP[/and3P[kL kR kO] cov] i A B C.
rewrite !addnS !dict_lookupE kL kR kO /list_set /= => iA iB iC.
rewrite (leq_trans _ iA) ?ltnS ?leq_addr //= (leq_trans _ iB) ?ltnS ?leq_addr //=.
rewrite (leq_trans _ iC) ?ltnS ?leq_addr //=.
by apply: IH => //; rewrite size_set_nth addSn leq_max ?iA ?iB ?iC orbT.
Qed.

(* The value of a wire column at position j, once round_1 has filled it. *)
Definition wire_at (proj : Wire -> option string) (w : witness)
    (gs : seq Wire) (j : nat) : F :=
  if (j < size gs)%N then wire_value w (proj (nth no_wire gs j)) else 0.

Lemma column0 proj w gs n j :
  column proj w 0 gs (nseq n 0) j = wire_at proj w gs j.
Proof. by rewrite /column /wire_at leq0n add0n subn0 nth_nseq if_same. Qed.

Lemma assign_wires_zeros w gs n :
  covers w gs -> (size gs <= n)%N ->
  assign_wires w 0 gs (nseq n 0, nseq n 0, nseq n 0)
  = Ok ([seq wire_at wire_L w gs j | j <- iota 0 n],
        [seq wire_at wire_R w gs j | j <- iota 0 n],
        [seq wire_at wire_O w gs j | j <- iota 0 n]).
Proof.
move=> cov le_n.
have := @assign_wires_ok w gs cov 0 (nseq n 0) (nseq n 0) (nseq n 0).
rewrite add0n size_nseq => /(_ le_n le_n le_n).
case E: (assign_wires _ _ _ _) => [[[A B] C]|//] _.
have [_ [/= sA sB sC] _ vals] := assign_wires_inv E.
rewrite !size_nseq in sA sB sC.
have tabE (X : seq F) proj :
    size X = n -> (forall j, nth 0 X j = column proj w 0 gs (nseq n 0) j) ->
    X = [seq wire_at proj w gs j | j <- iota 0 n].
  move=> sX vX; apply: (@eq_from_nth _ 0); rewrite ?size_map ?size_iota //.
  by move=> j jlt; rewrite (nth_map 0%N) ?size_iota -?sX // nth_iota -?sX // vX column0.
by congr (Ok (_, _, _)); apply: tabE => // j; case: (vals j).
Qed.

Lemma dict_get_set (w : witness) k v k' :
  dict_get (dict_set w k v) k' = if k == k' then Some v else dict_get w k'.
Proof.
elim: w => [|[k0 v0] w IH] /=; first by [].
case: (eqVneq k0 k) => [->|nk] /=; first by case: ifP.
by rewrite IH; case: (eqVneq k0 k') => // <-; rewrite eq_sym (negPf nk).
Qed.

Lemma dict_get_normalize (w : witness) k :
  dict_get (normalize w) k
  = if (k == None) && ~~ dict_mem None w then Some 0 else dict_get w k.
Proof.
rewrite /normalize; case m: (dict_mem None w); first by rewrite andbF.
by rewrite dict_get_set andbT eq_sym.
Qed.

(* The value of PI at position j. *)
Definition public_at (w : witness) (public_vars : seq (option string))
    (j : nat) : F :=
  if (j < size public_vars)%N
  then Scalar F (- odflt 0 (dict_get w (nth None public_vars j)))
  else 0.

Lemma public_values_ok (w : witness) vars :
  all (dict_mem^~ w) vars ->
  public_values F w vars
  = Ok [seq Scalar F (- odflt 0 (dict_get w v)) | v <- vars].
Proof.
elim: vars => [//|v vars IH] /= /andP[kv kvs].
by rewrite dict_lookupE kv /= IH.
Qed.

Lemma public_tab (w : witness) vars n :
  (size vars <= n)%N ->
  MkPolynomial ([seq Scalar F (- odflt 0 (dict_get w v)) | v <- vars]
                ++ nseq (n - size vars) 0) LAGRANGE
  = tab n (public_at w vars).
Proof.
move=> le_n; congr MkPolynomial; apply: (@eq_from_nth _ 0).
  by rewrite size_cat !size_map size_nseq size_iota subnKC.
move=> j; rewrite size_cat size_map size_nseq subnKC // => jn.
rewrite nth_cat size_map (nth_map 0%N) ?size_iota // nth_iota // add0n.
rewrite /public_at; case: ifP => jv; first by rewrite (nth_map None).
by rewrite nth_nseq if_same.
Qed.

(* The heap once self.PI is assigned. *)
Definition with_PI (h : Heap) (PI : Polynomial F) : Heap :=
  MkHeap (set_attr (self h) "PI" (VPoly PI)) (wit h).

Lemma public_inputs_run (h : Heap) :
  public_inputs h
  = match public_values F (wit h)
            (get_public_assignments (program (self h))) with
    | Ok vs =>
        (Ok tt,
         with_PI h
           (MkPolynomial
              (vs ++ nseq (group_order (self h)
                           - size (get_public_assignments (program (self h))))
                      0) LAGRANGE))
    | Raise e => (Raise e, h)
    end.
Proof.
case: h => s w; rewrite /public_inputs /bind /=.
by case: (public_values _ _ _).
Qed.

(* p is in LAGRANGE(n). *)
Definition lagrange (n : nat) (p : Polynomial F) : bool :=
  (basis p == LAGRANGE) && (size (values p) == n).

Lemma lagrange_tab n p : lagrange n p -> p = tab n (nth 0 (values p)).
Proof. by case/andP=> /eqP/tab_nth {2}-> /eqP->. Qed.

End Round1.

Section Round1Claims.

Variables (F : fieldType) (root_of_unity : nat -> F) (G1 Setup : Type).
Variable commit : Setup -> Polynomial F -> G1.
Variable Transcript : Type.
Variable Transcript_init : string -> Transcript.
Variable transcript_round_1 : Transcript -> Message1 G1 -> (F * F) * Transcript.
Variable transcript_round_2 : Transcript -> Message2 G1 -> (F * F) * Transcript.
Variable transcript_round_3 : Transcript -> Message3 G1 -> F * Transcript.
Variable transcript_round_4 : Transcript -> Message4 F -> F * Transcript.

Notation Prover := (Prover F G1 Setup).
Notation Heap := (Heap F G1 Setup).
Notation public_inputs := (@public_inputs F G1 Setup).
Notation prove := (prove root_of_unity commit Transcript_init
                     transcript_round_1 transcript_round_2
                     transcript_round_3 transcript_round_4).

Lemma bind_ok A B (m : M F G1 Setup A) (k : A -> M F G1 Setup B) h a h' :
  m h = (Ok a, h') -> bind m k h = k a h'.
Proof. by rewrite /bind => ->. Qed.

Lemma bind_raise A B (m : M F G1 Setup A) (k : A -> M F G1 Setup B) h e h' :
  m h = (Raise e, h') -> bind m k h = (Raise e, h').
Proof. by rewrite /bind => ->. Qed.

(* The value of A*QL + B*QR + (A*B)*QM + C*QO + PI + QC at position i, for
   the wire values and the public inputs the witness gives. *)
Definition gate_value (s : Prover) (w : witness) (i : nat) : F :=
  let gs := wires (program s) in
  let A := wire_at F wire_L (normalize w) gs i in
  let B := wire_at F wire_R (normalize w) gs i in
  let C := wire_at F wire_O (normalize w) gs i in
  A * (values (QL (pk s)))`_i + B * (values (QR (pk s)))`_i
  + A * B * (values (QM (pk s)))`_i + C * (values (QO (pk s)))`_i
  + public_at F w (get_public_assignments (program s)) i
  + (values (QC (pk s)))`_i.

Definition selectors_in_lagrange (s : Prover) : bool :=
  [&& lagrange (group_order s) (QL (pk s)),
      lagrange (group_order s) (QR (pk s)),
      lagrange (group_order s) (QM (pk s)),
      lagrange (group_order s) (QO (pk s))
    & lagrange (group_order s) (QC (pk s))].

(* Round 1 of prove: the public inputs, then round_1. *)
Definition first_round : M F G1 Setup (Message1 G1) :=
  bind public_inputs (fun _ => round_1 commit).

Lemma first_round_run (h : Heap) :
  let s := self h in
  let n := group_order s in
  let gs := wires (program s) in
  let w' := normalize (wit h) in
  (size gs <= n)%N -> (size (get_public_assignments (program s)) <= n)%N ->
  covers w' gs ->
  all (dict_mem^~ (wit h)) (get_public_assignments (program s)) ->
  selectors_in_lagrange s ->
  (first_round h).1
  = if all (fun i => gate_value s (wit h) i == 0) (iota 0 n)
    then Ok (MkMessage1
               (commit (setup s) (tab n (wire_at F wire_L w' gs)))
               (commit (setup s) (tab n (wire_at F wire_R w' gs)))
               (commit (setup s) (tab n (wire_at F wire_O w' gs))))
    else Raise (AssertionError GateCheck).
Proof.
move=> s n gs w' le_gs le_pubs cov covp /and5P[qL qR qM qO qC].
rewrite /first_round /bind public_inputs_run public_values_ok // public_tab //.
rewrite round_1_run /= assign_wires_zeros //=.
rewrite /gate_check /gate_constraint /attr_poly /= -!/(tab _ _).
rewrite [in LHS](lagrange_tab qL) [in LHS](lagrange_tab qR).
rewrite [in LHS](lagrange_tab qM) [in LHS](lagrange_tab qO).
rewrite [in LHS](lagrange_tab qC).
do !rewrite ?pmul_tab ?padd_tab /=.
by rewrite tab_nseq poly_eqb_tab.
Qed.

Lemma prove_first_round_raise (h : Heap) e :
  (first_round h).1 = Raise e -> (prove h).1 = Raise e.
Proof.
rewrite /first_round /prove /bind.
case: (public_inputs h) => [[[]|e1] h1] /=; last by case=> ->.
by case: (round_1 commit h1) => [[m|e2] h2] //= [->].
Qed.

(** C1: with the selectors in LAGRANGE(n), at most n gates and n public
    inputs, and a witness that defines every wire and public variable,
    Round 1 of prove completes exactly when A*QL + B*QR + (A*B)*QM + C*QO +
    PI + QC vanishes at each of the n positions, where A, B, C hold the
    witness values of the wires and PI holds minus the public values; when
    it does not vanish somewhere, the assertion of round_1 fails and prove
    raises it instead of returning a Proof. *)
Theorem round_1_completes_iff_gates_vanish (h : Heap) :
  let s := self h in
  let n := group_order s in
  let gs := wires (program s) in
  let w' := normalize (wit h) in
  let vanishes := all (fun i => gate_value s (wit h) i == 0) (iota 0 n) in
  (size gs <= n)%N -> (size (get_public_assignments (program s)) <= n)%N ->
  covers w' gs ->
  all (dict_mem^~ (wit h)) (get_public_assignments (program s)) ->
  selectors_in_lagrange s ->
  [/\ is_ok (first_round h).1 = vanishes,
      vanishes ->
      (first_round h).1
      = Ok (MkMessage1
              (commit (setup s) (tab n (wire_at F wire_L w' gs)))
              (commit (setup s) (tab n (wire_at F wire_R w' gs)))
              (commit (setup s) (tab n (wire_at F wire_O w' gs))))
    & ~~ vanishes ->
      (first_round h).1 = Raise (AssertionError GateCheck)
      /\ (prove h).1 = Raise (AssertionError GateCheck)].
Proof.
move=> s n gs w' vanishes le_gs le_pubs cov covp sel.
have := first_round_run le_gs le_pubs cov covp sel.
rewrite -/vanishes; case: vanishes => run; split=> //; rewrite ?run //.
move=> _; split=> //.
exact: prove_first_round_raise.
Qed.

Lemma round_1_witness (h : Heap) :
  wit (round_1 commit h).2 = normalize (wit h).
Proof. by rewrite round_1_run; case: (assign_wires _ _ _ _). Qed.

Lemma prove_witness (h : Heap) :
  wit (prove h).2
  = if is_ok (public_inputs h).1 then normalize (wit h) else wit h.
Proof.
rewrite /prove {1}/bind; have := public_inputs_run h.
case: (public_inputs h) => [[[]|e] h1] /=; last first.
  by case: (public_values _ _ _) => [vs|e1] // [_ <-].
case: (public_values _ _ _) => [vs|e1] // [->] /=.
set hp := with_PI h _; have := round_1_witness hp.
rewrite {1}/bind [wit hp]/=.
case: (round_1 commit hp) => [[m|e] h2] /= <- //.
by refine (attrs_only_wit _ _); repeat attrs_only_round.
Qed.


End Round1Claims.




(* ===================================================================== *)
(* Round 2                                                                *)
(* ===================================================================== *)

Section Round2.

Variables (F : fieldType) (root_of_unity : nat -> F) (G1 Setup : Type).
Variable commit : Setup -> Polynomial F -> G1.

Notation Prover := (Prover F G1 Setup).
Notation Heap := (Heap F G1 Setup).

(* The values of a polynomial attribute and the value of a scalar
   attribute, as the specification refers to them. *)
Definition poly_values (s : Prover) (name : string) : seq F :=
  if attrs s name is Some (VPoly p) then values p else [::].

Definition scalar_value (s : Prover) (name : string) : F :=
  if attrs s name is Some (VScalar x) then x else 0.

Definition lagrange_attr (s : Prover) (name : string) : bool :=
  if attrs s name is Some (VPoly p) then lagrange (group_order s) p
  else false.

Definition scalar_attr (s : Prover) (name : string) : bool :=
  if attrs s name is Some (VScalar _) then true else false.

Lemma attr_poly_lagrange s name :
  lagrange_attr s name ->
  attr_poly s name = Ok (tab (group_order s) (nth 0 (poly_values s name))).
Proof.
rewrite /lagrange_attr /attr_poly /poly_values.
by case: (attrs s name) => [[]|] // p /lagrange_tab {1}->.
Qed.

Lemma attr_scalar_value s name :
  scalar_attr s name -> attr_scalar s name = Ok (scalar_value s name).
Proof.
by rewrite /scalar_attr /attr_scalar /scalar_value; case: (attrs s name) => [[]|].
Qed.

Lemma list_get_map (f : nat -> F) n i :
  (i < n)%N -> list_get 0 [seq f j | j <- iota 0 n] i = Ok (f i).
Proof.
move=> lt_i; rewrite /list_get size_map size_iota lt_i.
by rewrite (nth_map 0%N) ?size_iota // nth_iota.
Qed.

Lemma list_get_lagrange (p : Polynomial F) n i :
  lagrange n p -> (i < n)%N -> list_get 0 (values p) i = Ok (values p)`_i.
Proof. by case/andP=> _ /eqP sz lt_i; rewrite /list_get sz lt_i. Qed.

(* Modelled on the words of the spec: rlc(x, y) = x + beta*y + gamma, the
   accumulator Z_0 = 1, Z_(i+1) = Z_i * (rlc(A_i, w^i) * rlc(B_i, 2*w^i) *
   rlc(C_i, 3*w^i)) / (rlc(A_i, S1_i) * rlc(B_i, S2_i) * rlc(C_i, S3_i)). *)
Definition rlc_of (s : Prover) (x y : F) : F :=
  x + scalar_value s "beta" * y + scalar_value s "gamma".

Definition numerator (s : Prover) (i : nat) : F :=
  let w := root_of_unity (group_order s) ^+ i in
  rlc_of s (poly_values s "A")`_i w
  * rlc_of s (poly_values s "B")`_i (2%:R * w)
  * rlc_of s (poly_values s "C")`_i (3%:R * w).

Definition denominator (s : Prover) (i : nat) : F :=
  rlc_of s (poly_values s "A")`_i (values (S1 (pk s)))`_i
  * rlc_of s (poly_values s "B")`_i (values (S2 (pk s)))`_i
  * rlc_of s (poly_values s "C")`_i (values (S3 (pk s)))`_i.

Fixpoint accumulator (s : Prover) (i : nat) : F :=
  if i is j.+1 then accumulator s j * (numerator s j / denominator s j)
  else 1.

(* What round_2 reads is there: A, B, C, beta and gamma on self, and the
   permutation polynomials in LAGRANGE(n). *)
Definition wires_ready (s : Prover) : bool :=
  [&& lagrange_attr s "A", lagrange_attr s "B", lagrange_attr s "C",
      scalar_attr s "beta" & scalar_attr s "gamma"].

Definition permutation_in_lagrange (s : Prover) : bool :=
  [&& lagrange (group_order s) (S1 (pk s)),
      lagrange (group_order s) (S2 (pk s))
    & lagrange (group_order s) (S3 (pk s))].

Definition round_2_ready (s : Prover) : bool :=
  wires_ready s && permutation_in_lagrange s.

Section Ready.

Variable s : Prover.
Hypothesis ready : round_2_ready s.

Let n := group_order s.
Let roots := roots_of_unity root_of_unity n.

Lemma rlc_ok (x y : F) : rlc s (Ok x) (Ok y) = Ok (rlc_of s x y).
Proof.
case/andP: ready => /and5P[_ _ _ hb hg] _.
rewrite /rlc /= !attr_scalar_value //= /rlc_of.
by rewrite [y * _]mulrC.
Qed.

Lemma perm_numerator_ok i :
  (i < n)%N -> perm_numerator s roots i = Ok (numerator s i).
Proof.
move=> lt_i; case/andP: ready => /and5P[hA hB hC _ _] _.
rewrite /perm_numerator /value_at !attr_poly_lagrange //=.
by rewrite !list_get_map //= !rlc_ok.
Qed.

Lemma perm_denominator_ok i :
  (i < n)%N -> perm_denominator s i = Ok (denominator s i).
Proof.
move=> lt_i; case/andP: ready => /and5P[hA hB hC _ _] /and3P[h1 h2 h3].
rewrite /perm_denominator /value_at !attr_poly_lagrange //=.
by rewrite !list_get_map //= !(list_get_lagrange _ lt_i) //= !rlc_ok.
Qed.

Let Z := accumulator s.

Lemma map_iotaS (f : nat -> F) k :
  [seq f i | i <- iota 0 k.+1] = rcons [seq f i | i <- iota 0 k] (f k).
Proof. by rewrite -addn1 iotaD map_cat /= cats1. Qed.

Lemma accumulate_step idx i steps (Zs : seq F) x :
  list_get 0 Zs (idx - 1) = Ok x -> (i < n)%N ->
  accumulate s roots ((idx, i) :: steps) Zs
  = if denominator s i == 0 then Raise ZeroDivisionError
    else accumulate s roots steps
           (rcons Zs (x * (numerator s i / denominator s i))).
Proof.
move=> get_x lt_i /=.
rewrite get_x perm_numerator_ok // perm_denominator_ok //= /sdiv.
by case: eqP.
Qed.

Lemma accumulate_run m : forall k, (k + m <= n)%N ->
  accumulate s roots (zip (iota k.+1 m) (iota k m))
    [seq Z i | i <- iota 0 k.+1]
  = if all (fun i => denominator s i != 0) (iota k m)
    then Ok [seq Z i | i <- iota 0 (k + m).+1]
    else Raise ZeroDivisionError.
Proof.
elim: m => [|m IH] k; first by rewrite addn0.
rewrite addnS => le_n.
have lt_k : (k < n)%N by apply: leq_trans le_n; rewrite ltnS leq_addr.
rewrite -[iota k m.+1]/(k :: iota k.+1 m).
rewrite -[iota k.+1 m.+1]/(k.+1 :: iota k.+2 m).
rewrite -[zip _ _]/((k.+1, k) :: zip (iota k.+2 m) (iota k.+1 m)).
rewrite (@accumulate_step _ _ _ _ (Z k)) ?subn1 ?list_get_map //.
rewrite -[all _ _]/((denominator s k != 0) && all _ (iota k.+1 m)).
have [//|nz] := eqVneq (denominator s k) 0.
by rewrite -map_iotaS -/(Z k.+1) IH ?addSn // addSnnS.
Qed.

Lemma list_pop_rcons (l : seq F) x : list_pop (rcons l x) = Ok (x, l).
Proof. by case: l => [|y l] //=; rewrite last_rcons belast_rcons. Qed.

Lemma check_accumulator_ok (idxs : seq nat) :
  {in idxs, forall i, (i < n)%N} ->
  (forall i, (i < n)%N -> denominator s i != 0) -> Z n = 1 ->
  check_accumulator s roots idxs [seq Z i | i <- iota 0 n] = Ok tt.
Proof.
move=> lt_n nz closes; elim: idxs lt_n => [//|i idxs IH] lt_n /=.
have lt_i : (i < n)%N by apply: lt_n; rewrite mem_head.
rewrite perm_numerator_ok // perm_denominator_ok //= !list_get_map //=;
  first by rewrite ltn_mod (leq_ltn_trans _ lt_i).
have lt_n' : {in idxs, forall j, (j < n)%N}.
  by move=> j jin; apply: lt_n; rewrite in_cons jin orbT.
rewrite (IH lt_n').
suff -> : numerator s i * Z i - denominator s i * Z ((i + 1) %% n) = 0.
  by rewrite eqxx.
have -> : Z ((i + 1) %% n) = Z i.+1.
  rewrite addn1 -/n; move: (lt_i); rewrite leq_eqVlt => /orP[/eqP->|lt_i1].
    by rewrite modnn closes.
  by rewrite modn_small.
rewrite /Z /= -/(Z i) mulrCA [denominator s i * _]mulrCA divff ?nz //.
by rewrite mulr1 mulrC subrr.
Qed.

End Ready.


(* The polynomial Z that round_2 commits to. *)
Definition Z_polynomial (s : Prover) : Polynomial F :=
  MkPolynomial [seq accumulator s i | i <- iota 0 (group_order s)] LAGRANGE.

Lemma round_2_run (h : Heap) :
  let s := self h in
  round_2_ready s ->
  round_2 root_of_unity commit h
  = if all (fun i => denominator s i != 0) (iota 0 (group_order s))
    then if accumulator s (group_order s) == 1
         then (Ok (MkMessage2 (commit (setup s) (Z_polynomial s))),
               MkHeap (set_attr s "Z" (VPoly (Z_polynomial s))) (wit h))
         else (Raise (AssertionError GrandProductClose), h)
    else (Raise ZeroDivisionError, h).
Proof.
case: h => s w /= ready; rewrite /round_2 /bind /with_self /=.
have := accumulate_run ready (leqnn (0 + group_order s)).
rewrite add0n => ->.
case: ifP => // /allP nz.
rewrite map_iotaS /= list_pop_rcons /=.
case: ifP => // /eqP closes.
rewrite check_accumulator_ok //=.
- by move=> i; rewrite mem_iota add0n.
- by move=> i lt_i; apply: nz; rewrite mem_iota add0n.
Qed.

End Round2.


(* ===================================================================== *)
(* prove, round by round                                                  *)
(* ===================================================================== *)

Section Stages.

Variables (F : fieldType) (root_of_unity : nat -> F) (G1 Setup : Type).
Variable commit : Setup -> Polynomial F -> G1.
Variable Transcript : Type.
Variable Transcript_init : string -> Transcript.
Variable transcript_round_1 : Transcript -> Message1 G1 -> (F * F) * Transcript.
Variable transcript_round_2 : Transcript -> Message2 G1 -> (F * F) * Transcript.
Variable transcript_round_3 : Transcript -> Message3 G1 -> F * Transcript.
Variable transcript_round_4 : Transcript -> Message4 F -> F * Transcript.

Notation Prover := (Prover F G1 Setup).
Notation Heap := (Heap F G1 Setup).
Notation M := (M F G1 Setup).
Notation public_inputs := (@public_inputs F G1 Setup).
Notation prove := (prove root_of_unity commit Transcript_init
                     transcript_round_1 transcript_round_2
                     transcript_round_3 transcript_round_4).

(* The transcript after each round, and the challenges it gave. *)
Definition transcript_1 (m1 : Message1 G1) :=
  transcript_round_1 (Transcript_init "plonk") m1.

Definition transcript_2 (m1 : Message1 G1) (m2 : Message2 G1) :=
  transcript_round_2 (transcript_1 m1).2 m2.

Definition transcript_3 (m1 : Message1 G1) (m2 : Message2 G1)
    (m3 : Message3 G1) :=
  transcript_round_3 (transcript_2 m1 m2).2 m3.

Definition transcript_4 (m1 : Message1 G1) (m2 : Message2 G1)
    (m3 : Message3 G1) (m4 : Message4 F) :=
  transcript_round_4 (transcript_3 m1 m2 m3).2 m4.

Definition set_scalar (h : Heap) (name : string) (x : F) : Heap :=
  MkHeap (set_attr (self h) name (VScalar x)) (wit h).

(* The heap each round starts from: the heap the round before left, with
   the challenges of that round assigned. *)
Definition after_round_1 (h : Heap) (m1 : Message1 G1) : Heap :=
  set_scalar (set_scalar h "beta" (transcript_1 m1).1.1)
    "gamma" (transcript_1 m1).1.2.

Definition after_round_2 (h : Heap) (m1 : Message1 G1) (m2 : Message2 G1)
    : Heap :=
  set_scalar (set_scalar h "alpha" (transcript_2 m1 m2).1.1)
    "fft_cofactor" (transcript_2 m1 m2).1.2.

Definition after_round_3 (h : Heap) (m1 : Message1 G1) (m2 : Message2 G1)
    (m3 : Message3 G1) : Heap :=
  set_scalar h "zeta" (transcript_3 m1 m2 m3).1.

Definition after_round_4 (h : Heap) (m1 : Message1 G1) (m2 : Message2 G1)
    (m3 : Message3 G1) (m4 : Message4 F) : Heap :=
  set_scalar h "v" (transcript_4 m1 m2 m3 m4).1.

(* prove as the five rounds in sequence: the outcome of a round decides
   whether the next one runs. *)
Definition run_rounds (h0 : Heap) : result (Proof F G1) * Heap :=
  match first_round commit h0 with
  | (Raise e, h) => (Raise e, h)
  | (Ok m1, h1) =>
  match round_2 root_of_unity commit (after_round_1 h1 m1) with
  | (Raise e, h) => (Raise e, h)
  | (Ok m2, h2) =>
  match round_3 root_of_unity commit (after_round_2 h2 m1 m2) with
  | (Raise e, h) => (Raise e, h)
  | (Ok m3, h3) =>
  match round_4 root_of_unity (after_round_3 h3 m1 m2 m3) with
  | (Raise e, h) => (Raise e, h)
  | (Ok m4, h4) =>
  match round_5 root_of_unity commit (after_round_4 h4 m1 m2 m3 m4) with
  | (Raise e, h) => (Raise e, h)
  | (Ok m5, h5) => (Ok (MkProof m1 m2 m3 m4 m5), h5)
  end end end end end.

Lemma prove_rounds (h0 : Heap) : prove h0 = run_rounds h0.
Proof.
rewrite /prove /run_rounds /first_round /bind.
rewrite /after_round_4 /after_round_3 /after_round_2 /after_round_1.
rewrite /transcript_4 /transcript_3 /transcript_2 /transcript_1 /set_scalar.
case: (public_inputs h0) => [[[]|e] hp] //.
case: (round_1 commit hp) => [[m1|e] h1] //.
destruct (transcript_round_1 (Transcript_init "plonk") m1)
  as [[beta gamma] tr1].
rewrite /=; destruct (round_2 _ _ _) as [[m2|e] h2]; last by [].
destruct (transcript_round_2 tr1 m2) as [[alpha cofactor] tr2].
rewrite /=; destruct (round_3 _ _ _) as [[m3|e] h3]; last by [].
destruct (transcript_round_3 tr2 m3) as [zeta tr3].
rewrite /=; destruct (round_4 _ _) as [[m4|e] h4]; last by [].
destruct (transcript_round_4 tr3 m4) as [v tr4].
by rewrite /=; destruct (round_5 _ _ _) as [[m5|e] h5].
Qed.

Lemma first_round_inv (h0 : Heap) m1 h1 :
  first_round commit h0 = (Ok m1, h1) ->
  exists vs ABC,
    let s := self h0 in
    let PI := MkPolynomial
                (vs ++ nseq (group_order s
                             - size (get_public_assignments (program s))) 0)
                LAGRANGE in
    let zeros := nseq (group_order s) (0 : F) in
    [/\ public_values F (wit h0) (get_public_assignments (program s)) = Ok vs,
        assign_wires (normalize (wit h0)) 0 (wires (program s))
          (zeros, zeros, zeros) = Ok ABC,
        h1 = MkHeap (wires_assigned (set_attr s "PI" (VPoly PI)) ABC)
               (normalize (wit h0))
      & gate_check commit (wires_assigned (set_attr s "PI" (VPoly PI)) ABC)
          ABC = Ok m1].
Proof.
rewrite /first_round /bind public_inputs_run.
case: (public_values _ _ _) => [vs|e] //; rewrite round_1_run /=.
case E: (assign_wires _ _ _ _) => [ABC|e] // [gc <-].
by exists vs, ABC.
Qed.

Lemma first_round_fixed (h0 : Heap) m1 h1 :
  first_round commit h0 = (Ok m1, h1) -> fixed (self h1) = fixed (self h0).
Proof. by case/first_round_inv=> vs [ABC] /= [_ _ -> _]. Qed.

Lemma first_round_wires_ready (h0 : Heap) m1 h1 :
  first_round commit h0 = (Ok m1, h1) ->
  wires_ready (self (after_round_1 h1 m1)).
Proof.
case/first_round_inv=> vs [[[A B] C]] /= [_ /assign_wires_inv[_ /= []]].
rewrite !size_nseq => sA sB sC _ _ -> _.
by rewrite /wires_ready /lagrange_attr /scalar_attr /lagrange /= sA sB sC eqxx.
Qed.


End Stages.

(* ===================================================================== *)
(* The transcript                                                         *)
(* ===================================================================== *)

Section TranscriptClaims.

Variables (F : fieldType) (root_of_unity : nat -> F) (G1 Setup : Type).
Variable commit : Setup -> Polynomial F -> G1.
Variable Transcript : Type.
Variable Transcript_init : string -> Transcript.
Variable transcript_round_1 : Transcript -> Message1 G1 -> (F * F) * Transcript.
Variable transcript_round_2 : Transcript -> Message2 G1 -> (F * F) * Transcript.
Variable transcript_round_3 : Transcript -> Message3 G1 -> F * Transcript.
Variable transcript_round_4 : Transcript -> Message4 F -> F * Transcript.

Notation Prover := (Prover F G1 Setup).
Notation Heap := (Heap F G1 Setup).
Notation prove := (prove root_of_unity commit Transcript_init
                     transcript_round_1 transcript_round_2
                     transcript_round_3 transcript_round_4).
Notation transcript_1 := (transcript_1 Transcript_init transcript_round_1).
Notation transcript_2 :=
  (transcript_2 Transcript_init transcript_round_1 transcript_round_2).
Notation transcript_3 :=
  (transcript_3 Transcript_init transcript_round_1 transcript_round_2
     transcript_round_3).
Notation transcript_4 :=
  (transcript_4 Transcript_init transcript_round_1 transcript_round_2
     transcript_round_3 transcript_round_4).
Notation after_round_1 := (after_round_1 Transcript_init transcript_round_1).
Notation after_round_2 :=
  (after_round_2 Transcript_init transcript_round_1 transcript_round_2).
Notation after_round_3 :=
  (after_round_3 Transcript_init transcript_round_1 transcript_round_2
     transcript_round_3).
Notation after_round_4 :=
  (after_round_4 Transcript_init transcript_round_1 transcript_round_2
     transcript_round_3 transcript_round_4).

(* A run of prove that returns a proof went through the five rounds. *)
Lemma prove_ok_inv (h0 : Heap) pf hf :
  prove h0 = (Ok pf, hf) ->
  let m1 := msg_1 pf in
  let m2 := msg_2 pf in
  let m3 := msg_3 pf in
  let m4 := msg_4 pf in
  exists h1 h2 h3 h4,
  [/\ first_round commit h0 = (Ok m1, h1),
      round_2 root_of_unity commit (after_round_1 h1 m1) = (Ok m2, h2),
      round_3 root_of_unity commit (after_round_2 h2 m1 m2) = (Ok m3, h3),
      round_4 root_of_unity (after_round_3 h3 m1 m2 m3) = (Ok m4, h4)
    & round_5 root_of_unity commit (after_round_4 h4 m1 m2 m3 m4)
      = (Ok (msg_5 pf), hf)].
Proof.
rewrite prove_rounds /run_rounds.
case E1: (first_round _ _) => [[m1|e] h1] //.
case E2: (round_2 _ _ _) => [[m2|e] h2] //.
case E3: (round_3 _ _ _) => [[m3|e] h3] //.
case E4: (round_4 _ _) => [[m4|e] h4] //.
case E5: (round_5 _ _ _) => [[m5|e] h5] // [<- <-] /=.
by exists h1, h2, h3, h4.
Qed.

Lemma leaves_run name A (m : M F G1 Setup A) h r h' :
  leaves name m -> m h = (r, h') -> attrs (self h') name = attrs (self h) name.
Proof. by move=> /(_ h) + E; rewrite E. Qed.

Lemma gate_check_message (s : Prover) ABC m1 :
  gate_check commit s ABC = Ok m1 ->
  m1 = MkMessage1 (commit (setup s) (MkPolynomial ABC.1.1 LAGRANGE))
         (commit (setup s) (MkPolynomial ABC.1.2 LAGRANGE))
         (commit (setup s) (MkPolynomial ABC.2 LAGRANGE)).
Proof.
rewrite /gate_check; case: (gate_constraint s) => [lhs|e] //=.
by case: ifP => // _ [<-].
Qed.

(* The first message depends on the group order, the setup, the wires
   and the witness, and on nothing else of the circuit. *)
Lemma first_message_ignores_circuit (h0 h0' : Heap) m1 h1 m1' h1' :
  group_order (self h0) = group_order (self h0') ->
  setup (self h0) = setup (self h0') ->
  wires (program (self h0)) = wires (program (self h0')) ->
  wit h0 = wit h0' ->
  first_round commit h0 = (Ok m1, h1) ->
  first_round commit h0' = (Ok m1', h1') ->
  m1 = m1'.
Proof.
move=> eq_n eq_setup eq_wires eq_wit.
case/first_round_inv=> vs [ABC] /= [_ EABC _ /gate_check_message ->].
case/first_round_inv=> vs' [ABC'] /= [_ EABC' _ /gate_check_message ->].
move: EABC'; rewrite -eq_n -eq_wires -eq_wit EABC => -[<-] /=.
by rewrite eq_setup.
Qed.

Lemma final_challenges (h0 : Heap) pf hf :
  prove h0 = (Ok pf, hf) ->
  let m1 := msg_1 pf in
  let m2 := msg_2 pf in
  let m3 := msg_3 pf in
  let m4 := msg_4 pf in
  [/\ attrs (self hf) "beta"%string = Some (VScalar (transcript_1 m1).1.1),
      attrs (self hf) "gamma"%string = Some (VScalar (transcript_1 m1).1.2),
      attrs (self hf) "alpha"%string = Some (VScalar (transcript_2 m1 m2).1.1),
      attrs (self hf) "fft_cofactor"%string
      = Some (VScalar (transcript_2 m1 m2).1.2)
    & attrs (self hf) "zeta"%string = Some (VScalar (transcript_3 m1 m2 m3).1)
      /\ attrs (self hf) "v"%string
         = Some (VScalar (transcript_4 m1 m2 m3 m4).1)].
Proof.
move=> /prove_ok_inv /= [h1 [h2 [h3 [h4 [_ E2 E3 E4 E5]]]]].
have L5 name (in_c : name \in challenge_names) :=
  leaves_run (round_5_leaves_challenges root_of_unity commit in_c) E5.
have L4 name (in_c : name \in challenge_names) :=
  leaves_run (@round_4_leaves_challenges _ root_of_unity _ Setup _ in_c) E4.
have L3 name (in_c : name \in challenge_names) :=
  leaves_run (round_3_leaves_challenges root_of_unity commit in_c) E3.
have L2 name (in_c : name \in challenge_names) :=
  leaves_run (round_2_leaves_challenges root_of_unity commit in_c) E2.
by split; last split; rewrite L5 //= /store_set /= ?L4 //= /store_set /=
  ?L3 //= /store_set /= ?L2 //= /store_set /=.
Qed.

(** C7: the transcript of prove is created with the label "plonk" and
    is given the round messages and nothing else, so each challenge that
    prove stores is what that transcript returns on the messages of the
    proof; and two runs with the same group order, setup, wires and
    witness draw the same beta and gamma, whatever their selector and
    permutation polynomials and their public inputs are. *)
Theorem challenges_ignore_circuit_and_public_inputs (h0 h0' : Heap) :
  [/\ forall pf hf, prove h0 = (Ok pf, hf) ->
        [/\ attrs (self hf) "beta"%string
            = Some (VScalar (transcript_round_1 (Transcript_init "plonk")
                               (msg_1 pf)).1.1),
            attrs (self hf) "gamma"%string
            = Some (VScalar (transcript_round_1 (Transcript_init "plonk")
                               (msg_1 pf)).1.2),
            attrs (self hf) "alpha"%string
            = Some (VScalar (transcript_2 (msg_1 pf) (msg_2 pf)).1.1),
            attrs (self hf) "fft_cofactor"%string
            = Some (VScalar (transcript_2 (msg_1 pf) (msg_2 pf)).1.2)
          & attrs (self hf) "zeta"%string
            = Some (VScalar
                      (transcript_3 (msg_1 pf) (msg_2 pf) (msg_3 pf)).1)
            /\ attrs (self hf) "v"%string
               = Some (VScalar
                         (transcript_4 (msg_1 pf) (msg_2 pf) (msg_3 pf)
                            (msg_4 pf)).1)],
      forall m1 h1 m1' h1',
        group_order (self h0) = group_order (self h0') ->
        setup (self h0) = setup (self h0') ->
        wires (program (self h0)) = wires (program (self h0')) ->
        wit h0 = wit h0' ->
        first_round commit h0 = (Ok m1, h1) ->
        first_round commit h0' = (Ok m1', h1') ->
        m1 = m1' /\ (transcript_1 m1).1 = (transcript_1 m1').1
    & forall pf hf pf' hf',
        group_order (self h0) = group_order (self h0') ->
        setup (self h0) = setup (self h0') ->
        wires (program (self h0)) = wires (program (self h0')) ->
        wit h0 = wit h0' ->
        prove h0 = (Ok pf, hf) -> prove h0' = (Ok pf', hf') ->
        attrs (self hf) "beta"%string = attrs (self hf') "beta"%string
        /\ attrs (self hf) "gamma"%string = attrs (self hf') "gamma"%string].
Proof.
split=> [pf hf|m1 h1 m1' h1' eq_n eq_s eq_w eq_wit E1 E1'|].
- exact: final_challenges.
- by rewrite (first_message_ignores_circuit eq_n eq_s eq_w eq_wit E1 E1').
move=> pf hf pf' hf' eq_n eq_s eq_w eq_wit run run'.
have [-> -> _ _ _] := final_challenges run.
have [-> -> _ _ _] := final_challenges run'.
have [h1 [_ [_ [_ [E1 _ _ _ _]]]]] := prove_ok_inv run.
have [h1' [_ [_ [_ [E1' _ _ _ _]]]]] := prove_ok_inv run'.
by rewrite (first_message_ignores_circuit eq_n eq_s eq_w eq_wit E1 E1').
Qed.

End TranscriptClaims.

(* ===================================================================== *)
(* What a call of prove depends on                                        *)
(* ===================================================================== *)

Section Agreement.

Variables (F : fieldType) (G1 Setup : Type).
Notation Prover := (Prover F G1 Setup).
Notation Heap := (Heap F G1 Setup).
Notation M := (M F G1 Setup).

(* Two stores that hold the same value under each name of D. *)
Fixpoint agree_on (D : seq string) (st1 st2 : store F G1) : Prop :=
  if D is k :: D' then st1 k = st2 k /\ agree_on D' st1 st2 else True.

(* Two heaps with the same four fields and the same witness, whose
   attributes agree on D. *)
Definition agree (D : seq string) (h1 h2 : Heap) : Prop :=
  [/\ fixed (self h1) = fixed (self h2), wit h1 = wit h2
    & agree_on D (attrs (self h1)) (attrs (self h2))].

(* Run from two heaps that agree on D, m has the same outcome, and when
   it completes the heaps it leaves agree on D'. *)
Definition same_run (D D' : seq string) {A : Type} (m : M A) : Prop :=
  forall h1 h2, agree D h1 h2 ->
    (m h1).1 = (m h2).1
    /\ (is_ok (m h1).1 -> agree D' (m h1).2 (m h2).2).

Lemma agree_on_set D st1 st2 k v :
  agree_on D st1 st2 ->
  agree_on (k :: D) (store_set st1 k v) (store_set st2 k v).
Proof.
move=> H; split; first by rewrite /store_set String.eqb_refl.
by elim: D H => [//|k' D IH] /= [E /IH H]; split=> //; rewrite /store_set E.
Qed.

Lemma same_run_ret D A (a : A) : same_run D D (ret a : M A).
Proof. by move=> h1 h2 H. Qed.

Lemma same_run_assert D site b : same_run D D (assert site b : M unit).
Proof. by move=> h1 h2 H. Qed.

Lemma same_run_get_witness D : same_run D D (get_witness : M witness).
Proof. by move=> h1 h2 H; case: (H) => _ /= ->. Qed.

Lemma same_run_set_witness D w : same_run D D (set_witness w : M unit).
Proof. by move=> h1 h2 [Hf _ Ha]. Qed.

Lemma same_run_setattr D k v : same_run D (k :: D) (setattr k v : M unit).
Proof.
move=> [[n1 su1 pr1 pk1 st1] w1] [[n2 su2 pr2 pk2 st2] w2] [/= Hf Hw Ha].
by split=> // _; split=> //; apply: agree_on_set.
Qed.

Lemma same_run_with_self D A (f : Prover -> result A) :
  (forall s1 s2, fixed s1 = fixed s2 ->
     agree_on D (attrs s1) (attrs s2) -> f s1 = f s2) ->
  same_run D D (with_self f).
Proof. by move=> Hf h1 h2 H; case: (H) => Hx _ Ha /=; rewrite (Hf _ _ Hx Ha). Qed.

Lemma same_run_bind D D1 D2 A B (m : M A) (k : A -> M B) :
  same_run D D1 m -> (forall a, same_run D1 D2 (k a)) ->
  same_run D D2 (bind m k).
Proof.
move=> Hm Hk h1 h2 H; rewrite /bind; case: (Hm _ _ H).
case: (m h1) => [[a|e] h1']; case: (m h2) => [[a'|e'] h2'] //= [<-].
  by move=> /(_ isT) /Hk.
by [].
Qed.

End Agreement.

Section Extensionality.
Variables (F : fieldType) (root_of_unity : nat -> F) (G1 Setup : Type).
Variable commit : Setup -> Polynomial F -> G1.
Notation Prover := (Prover F G1 Setup).

(* The loop that fills Z_H reads self.fft_cofactor once per root. *)
Lemma vanishing_valuesE (s : Prover) rs acc :
  vanishing_values s rs acc
  = if rs is [::] then Ok acc
    else h <-- attr_scalar s "fft_cofactor" ;;
         Ok (acc ++ [seq (r * h) ^+ group_order s - 1 | r <- rs]).
Proof.
elim: rs acc => [//|r rs IH] acc /=.
case E: (attr_scalar s _) => [h|e] //=.
rewrite IH; case: rs {IH} => [|r' rs] /=; first by rewrite cats1.
by rewrite E /= cat_rcons.
Qed.

Lemma agree_on_mem D (st1 st2 : store F G1) k :
  agree_on D st1 st2 -> has (String.eqb k) D -> st1 k = st2 k.
Proof.
elim: D => [//|k' D IH] /= [E /IH H] /orP[/String.eqb_spec->|] //.
Qed.

Lemma same_vanishing_values D (s1 s2 : Prover) :
  fixed s1 = fixed s2 -> agree_on D (attrs s1) (attrs s2) ->
  has (String.eqb "roots_of_unity") D -> has (String.eqb "fft_cofactor") D ->
  (rs <-- attr_list s1 "roots_of_unity" ;; vanishing_values s1 rs [::])
  = (rs <-- attr_list s2 "roots_of_unity" ;; vanishing_values s2 rs [::]).
Proof.
move=> [En _ _ _] H /(agree_on_mem H) Er /(agree_on_mem H) Eh.
rewrite /attr_list Er; case: (attrs s2 _) => [[]|] //= rs.
by rewrite !vanishing_valuesE /attr_scalar Eh En.
Qed.

Lemma accumulate_ext (s1 s2 : Prover) roots :
  (forall i, perm_numerator s1 roots i = perm_numerator s2 roots i) ->
  (forall i, perm_denominator s1 i = perm_denominator s2 i) ->
  forall steps Zs,
    accumulate s1 roots steps Zs = accumulate s2 roots steps Zs.
Proof.
move=> En Ed; elim=> [//|[idx i] steps IH] Zs /=.
rewrite En Ed; case: (lift2 _ _ _) => [z|e] //=.
Qed.

Lemma check_accumulator_ext (s1 s2 : Prover) roots :
  group_order s1 = group_order s2 ->
  (forall i, perm_numerator s1 roots i = perm_numerator s2 roots i) ->
  (forall i, perm_denominator s1 i = perm_denominator s2 i) ->
  forall idxs Zs,
    check_accumulator s1 roots idxs Zs = check_accumulator s2 roots idxs Zs.
Proof.
move=> Eo En Ed; elim=> [//|i idxs IH] Zs /=.
by rewrite En Ed Eo IH.
Qed.

Lemma same_run_round_2 D :
  same_run ("gamma" :: "beta" :: "C" :: "B" :: "A" :: D)%string
    ("Z" :: "gamma" :: "beta" :: "C" :: "B" :: "A" :: D)%string
    (round_2 root_of_unity commit).
Proof.
rewrite /round_2.
refine (@same_run_bind _ _ _ _ _ _ _ _ _ _ _ _); [|intro].
  refine (@same_run_with_self _ _ _ _ _ _ _).
  move=> [n su pr pk1 st1] [? ? ? ? st2] [<- <- <- <-] /=.
  move=> [Eg [Eb [EC [EB [EA _]]]]].
  set s1 := MkProver _ _ _ _ st1; set s2 := MkProver _ _ _ _ st2.
  have En i roots : perm_numerator s1 roots i = perm_numerator s2 roots i.
    rewrite /perm_numerator /rlc /value_at /attr_poly /attr_scalar /=.
    by rewrite Eg Eb EC EB EA.
  have Ed i : perm_denominator s1 i = perm_denominator s2 i.
    rewrite /perm_denominator /rlc /value_at /attr_poly /attr_scalar /=.
    by rewrite Eg Eb EC EB EA.
  rewrite (accumulate_ext (En^~ _) Ed).
  case: (accumulate _ _ _ _) => [Zs|e] //=.
  case: (list_pop Zs) => [[z Zs']|e] //=.
  by rewrite (@check_accumulator_ext s1 s2 _ erefl (En^~ _) Ed).
refine (@same_run_bind _ _ _ _ _ _ _ _ _ _ _ _); [|intro].
  exact: same_run_setattr.
refine (@same_run_bind _ _ _ _ _ _ _ _ _ _ _ _); [|intro].
  refine (@same_run_with_self _ _ _ _ _ _ _).
  move=> [n su pr pk1 st1] [? ? ? ? st2] [<- <- <- <-] /=.
  by rewrite /attr_poly /= => -[->].
exact: same_run_ret.
Qed.

End Extensionality.

Ltac split_agreement H :=
  repeat match type of H with
         | _ /\ _ => let E := fresh "E" in destruct H as [E H];
                     try rewrite !E
         end.

Ltac same_expr :=
  let st1 := fresh "st" in let st2 := fresh "st" in let H := fresh "H" in
  move=> [? ? ? ? st1] [? ? ? ? st2] [<- <- <- <-] /= H;
  rewrite /gate_constraint /quotient_gates /quotient_permutation
    /quotient_part /quotient_split_holds /eval_at_zeta /linearized_gates
    /linearized_permutation /linearization /opening_at_zeta
    /opening_at_zeta_omega /rlc_poly /rlc /fft_expand
    /expanded_evals_to_coeffs /value_at
    /attr_poly /attr_scalar /attr_list /attr_point /=;
  split_agreement H; reflexivity.

Ltac same_run_step :=
  lazymatch goal with
  | |- same_run _ _ (bind _ _) =>
      refine (@same_run_bind _ _ _ _ _ _ _ _ _ _ _ _); [|intro]
  | |- same_run _ _ (ret _) => refine (@same_run_ret _ _ _ _ _ _)
  | |- same_run _ _ (with_self
                       (fun s => rbind (attr_list s _)
                                   (fun rs => vanishing_values s rs _))) =>
      refine (@same_run_with_self _ _ _ _ _ _ _);
      let H := fresh "H" in let Hf := fresh "Hf" in
      move=> ? ? Hf H;
      refine (same_vanishing_values Hf H _ _); reflexivity
  | |- same_run _ _ (with_self _) =>
      refine (@same_run_with_self _ _ _ _ _ _ _); same_expr
  | |- same_run _ _ (round_2 _ _) =>
      refine (@same_run_round_2 _ _ _ _ _ _)
  | |- same_run _ _ (setattr _ _) => refine (@same_run_setattr _ _ _ _ _ _)
  | |- same_run _ _ (assert _ _) => refine (@same_run_assert _ _ _ _ _ _)
  | |- same_run _ _ get_witness => refine (@same_run_get_witness _ _ _ _)
  | |- same_run _ _ (set_witness _) =>
      refine (@same_run_set_witness _ _ _ _ _)
  | |- same_run _ _ (let (_, _) := ?e in _) => destruct e
  | |- same_run _ _ (if ?b then _ else _) => destruct b
  end.

Section SameRun.
Variables (F : fieldType) (root_of_unity : nat -> F) (G1 Setup : Type).
Variable commit : Setup -> Polynomial F -> G1.
Variable Transcript : Type.
Variable Transcript_init : string -> Transcript.
Variable transcript_round_1 : Transcript -> Message1 G1 -> (F * F) * Transcript.
Variable transcript_round_2 : Transcript -> Message2 G1 -> (F * F) * Transcript.
Variable transcript_round_3 : Transcript -> Message3 G1 -> F * Transcript.
Variable transcript_round_4 : Transcript -> Message4 F -> F * Transcript.

Notation Heap := (Heap F G1 Setup).
Notation prove := (prove root_of_unity commit Transcript_init
                     transcript_round_1 transcript_round_2
                     transcript_round_3 transcript_round_4).

Lemma same_run_prove : exists D', same_run [::] D' prove.
Proof.
eexists; rewrite /prove /public_inputs /round_1 /round_3 /round_4 /round_5.
cbv zeta.
by repeat same_run_step.
Qed.

(* The outcome of prove is a function of the four fields of the Prover and
   of the witness: the attributes a heap holds when prove starts play no
   part in it. *)
Lemma prove_ignores_attributes (h1 h2 : Heap) :
  fixed (self h1) = fixed (self h2) -> wit h1 = wit h2 ->
  (prove h1).1 = (prove h2).1.
Proof.
move=> Hf Hw; have [D' run] := same_run_prove.
by have [] := run h1 h2 (And3 Hf Hw I).
Qed.

End SameRun.

Section Determinism.
Variables (F : fieldType) (root_of_unity : nat -> F) (G1 Setup : Type).
Variable commit : Setup -> Polynomial F -> G1.
Variable Transcript : Type.
Variable Transcript_init : string -> Transcript.
Variable transcript_round_1 : Transcript -> Message1 G1 -> (F * F) * Transcript.
Variable transcript_round_2 : Transcript -> Message2 G1 -> (F * F) * Transcript.
Variable transcript_round_3 : Transcript -> Message3 G1 -> F * Transcript.
Variable transcript_round_4 : Transcript -> Message4 F -> F * Transcript.

Notation Heap := (Heap F G1 Setup).
Notation public_inputs := (@public_inputs F G1 Setup).
Notation prove := (prove root_of_unity commit Transcript_init
                     transcript_round_1 transcript_round_2
                     transcript_round_3 transcript_round_4).

Lemma normalize_idem (w : witness) : normalize (normalize w) = normalize w.
Proof.
rewrite {1}/normalize; case: ifP => //.
by rewrite {1}/dict_mem dict_get_normalize /dict_mem; case: (dict_get w None).
Qed.

Lemma public_values_normalize (w : witness) vars :
  is_ok (public_values F w vars) ->
  public_values F (normalize w) vars = public_values F w vars.
Proof.
elim: vars => [//|v vars IH] /=.
rewrite !dict_lookupE /dict_mem dict_get_normalize.
case Ev: (dict_get w v) => [x|] //=.
have -> /= : (v == None) && ~~ (if dict_get w None is Some _ then true
                                else false) = false.
  by case: eqP Ev => // -> ->.
case Evs: (public_values F w vars) => [vs|e] //= _.
by rewrite IH Evs.
Qed.

Lemma first_round_normalize (h : Heap) :
  is_ok (public_inputs h).1 ->
  first_round commit (MkHeap (self h) (normalize (wit h)))
  = first_round commit h.
Proof.
rewrite /first_round /bind !public_inputs_run /=.
case Ev: (public_values F (wit h) _) => [vs|e] //= _.
rewrite public_values_normalize Ev //=.
by rewrite !round_1_run /= normalize_idem.
Qed.

Lemma prove_fixed (h : Heap) : fixed (self (prove h).2) = fixed (self h).
Proof.
rewrite /prove {1}/bind; have := public_inputs_run h.
case: (public_inputs h) => [[[]|e] h1] /=; last first.
  by case: (public_values _ _ _) => [vs|e1] // [_ <-].
case: (public_values _ _ _) => [vs|e1] // [->] /=.
set hp := with_PI h _; have := round_1_run commit hp.
rewrite {1}/bind.
case: (round_1 commit hp) => [[m|e] h2] /=.
  case: (assign_wires _ _ _ _) => [ABC|e] [] // _ E2.
  have -> : fixed (self h) = fixed (self h2) by rewrite E2.
  by refine (attrs_only_fixed _ _); repeat attrs_only_round.
by case: (assign_wires _ _ _ _) => [ABC|e'] [] // _ ->.
Qed.

Lemma prove_again (h : Heap) : (prove (prove h).2).1 = (prove h).1.
Proof.
have Hf := prove_fixed h; have Hw := prove_witness root_of_unity commit
  Transcript_init transcript_round_1 transcript_round_2 transcript_round_3
  transcript_round_4 h.
case ok: (is_ok (public_inputs h).1) Hw => Hw.
  rewrite (@prove_ignores_attributes _ root_of_unity _ _ commit _
             Transcript_init transcript_round_1 transcript_round_2
             transcript_round_3 transcript_round_4 _
             (MkHeap (self h) (normalize (wit h)))) //.
  rewrite !prove_rounds /run_rounds first_round_normalize //.
have -> // : (prove h).2 = h.
rewrite /prove {1}/bind public_inputs_run; move: ok.
by rewrite public_inputs_run; case: (public_values _ _ _).
Qed.

(** C6: two calls of prove with the same setup, program and witness have
    the same outcome, and when they return proofs these agree in all
    fifteen fields. The setup commitment and the transcript are functions,
    as the claim supposes; what the theorem adds is that neither the
    attributes a Prover object holds from earlier calls nor the None entry
    prove has put into the witness change the outcome: calling prove again
    on the same object and the same dictionary returns the same. *)
Theorem prove_is_deterministic (h1 h2 : Heap) :
  [/\ fixed (self h1) = fixed (self h2) -> wit h1 = wit h2 ->
      (prove h1).1 = (prove h2).1,
      forall pf1 pf2,
        fixed (self h1) = fixed (self h2) -> wit h1 = wit h2 ->
        (prove h1).1 = Ok pf1 -> (prove h2).1 = Ok pf2 ->
        flatten pf1 = flatten pf2 /\ size (flatten pf1) = 15
    & (prove (prove h1).2).1 = (prove h1).1].
Proof.
split; first exact: prove_ignores_attributes.
  move=> pf1 pf2 Hf Hw E1 E2.
  have := @prove_ignores_attributes _ root_of_unity _ _ commit _
            Transcript_init transcript_round_1 transcript_round_2
            transcript_round_3 transcript_round_4 _ _ Hf Hw.
  by rewrite E1 E2 => -[->].
exact: prove_again.
Qed.

Lemma rounds_leave_wires name :
  name \in [:: "A"; "B"; "C"]%string ->
  [/\ leaves name (round_2 root_of_unity commit),
      leaves name (round_3 root_of_unity commit),
      leaves name (@round_4 F root_of_unity G1 Setup)
    & leaves name (round_5 root_of_unity commit)].
Proof.
rewrite !inE => /or3P[] /eqP->; split;
  by rewrite /round_2 /round_3 /round_4 /round_5; repeat leaves_step.
Qed.


End Determinism.

(* ===================================================================== *)
(* The vanishing polynomial on the coset                                  *)
(* ===================================================================== *)

Section VanishingPolynomial.

Variables (F : fieldType) (root_of_unity : nat -> F) (G1 Setup : Type).
Notation Prover := (Prover F G1 Setup).

Lemma div_values_ok (s t : seq F) :
  all (fun y => y != 0) t -> is_ok (div_values s t).
Proof.
elim: s t => [|x s IH] [|y t] //= /andP[nz /IH].
by rewrite /sdiv (negPf nz) /=; case: (div_values s t).
Qed.

(** C4, as amended: for a coset offset h with h^(4n) different from 1, and
    mu with mu^(4n) = 1, every entry (mu^i * h)^n - 1 of the Z_H that
    round_3 builds, for i = 0 .. 4n-1, is different from zero, and a
    division by Z_H of a polynomial of its shape does not divide by zero.
    That h^n differs from 1 is not enough. *)
Theorem vanishing_polynomial_nonzero_on_coset (s : Prover) (h : F) zh :
  let n := group_order s in
  let mu := root_of_unity (n * 4) in
  attr_scalar s "fft_cofactor" = Ok h ->
  mu ^+ (n * 4) = 1 ->
  h ^+ (n * 4) != 1 ->
  vanishing_values s (roots_of_unity root_of_unity (n * 4)) [::] = Ok zh ->
  [/\ zh = [seq (mu ^+ i * h) ^+ n - 1 | i <- iota 0 (n * 4)],
      forall i, (i < n * 4)%N -> zh`_i != 0
    & forall p, same_shape p (MkPolynomial zh LAGRANGE) ->
        is_ok (pdiv p (MkPolynomial zh LAGRANGE))].
Proof.
move=> n mu Eh mu1 hn1.
rewrite vanishing_valuesE Eh /roots_of_unity -/mu -/n.
have -> : (if [seq mu ^+ i | i <- iota 0 (n * 4)] is [::] then Ok [::]
           else h0 <-- Ok h ;;
                Ok ([::] ++ [seq (r * h0) ^+ n - 1
                            | r <- [seq mu ^+ i | i <- iota 0 (n * 4)]]))
          = Ok [seq (mu ^+ i * h) ^+ n - 1 | i <- iota 0 (n * 4)] :> result _.
  by case: (iota 0 (n * 4)) => [|i l] //=; rewrite -map_comp.
case=> <-.
have nz i : (mu ^+ i * h) ^+ n - 1 != 0.
  apply: contra hn1; rewrite subr_eq0 => /eqP E.
  have : (mu ^+ i * h) ^+ (n * 4) = 1 by rewrite exprM E expr1n.
  by rewrite exprMn -exprM mulnC exprM mu1 expr1n mul1r => ->.
split=> // [i lt_i|p shp].
  by rewrite (nth_map 0%N) ?size_iota // nz.
rewrite /pdiv shp; have := @div_values_ok (values p)
  [seq (mu ^+ i * h) ^+ n - 1 | i <- iota 0 (n * 4)].
case: (div_values _ _) => //= e; apply.
by apply/allP => y /mapP[i _ ->].
Qed.

End VanishingPolynomial.

(* ===================================================================== *)
(* The basis and the size of the operands of the polynomial operators     *)
(* ===================================================================== *)

(* The exception a polynomial operator raises on operands that differ in
   basis or in size. *)
Definition basis_error (e : exn) : bool :=
  if e is BasisError then true else false.

(* An expression that completes with a value satisfying P, or raises
   something other than the exception of the polynomial operators. *)
Definition good {A : Type} (P : A -> Prop) (r : result A) : Prop :=
  match r with
  | Ok a => P a
  | Raise e => ~~ basis_error e
  end.

Section Shapes.

Variables (F : fieldType) (root_of_unity : nat -> F) (G1 Setup : Type).
Notation Prover := (Prover F G1 Setup).
Notation Heap := (Heap F G1 Setup).
Notation M := (M F G1 Setup).

(* The group order, of which every size below is a multiple. *)
Variable n : nat.

(* p has the basis b and c * n values. *)
Definition shaped (b : Basis) (c : nat) (p : Polynomial F) : Prop :=
  basis p = b /\ size (values p) = (c * n)%N.

(* What is known of an attribute: a polynomial of a basis and a size, a
   list of a size, or nothing. *)
Inductive shape : Type :=
  | PolyOf of Basis & nat
  | ListOf of nat
  | Other.

Definition has_shape (sh : shape) (o : option (value F G1)) : Prop :=
  match sh with
  | PolyOf b c => exists2 p, o = Some (VPoly p) & shaped b c p
  | ListOf c => exists2 l, o = Some (VList l) & size l = (c * n)%N
  | Other => True
  end.

(* The shapes of the attributes assigned so far, the latest first. *)
Definition ctx : Type := seq (string * shape).

Fixpoint lookup (D : ctx) (k : string) : shape :=
  if D is (k', sh) :: D' then if String.eqb k k' then sh else lookup D' k
  else Other.

Definition typed_attrs (D : ctx) (s : Prover) : Prop :=
  forall k, has_shape (lookup D k) (attrs s k).

Definition pk_shaped (s : Prover) : Prop :=
  [/\ shaped LAGRANGE 1 (QM (pk s)), shaped LAGRANGE 1 (QL (pk s)),
      shaped LAGRANGE 1 (QR (pk s)), shaped LAGRANGE 1 (QO (pk s))
    & shaped LAGRANGE 1 (QC (pk s))]
  /\ [/\ shaped LAGRANGE 1 (S1 (pk s)), shaped LAGRANGE 1 (S2 (pk s))
       & shaped LAGRANGE 1 (S3 (pk s))].

(* What prove supposes of the Prover it runs on. *)
Definition wf (s : Prover) : Prop :=
  [/\ (0 < n)%N, group_order s = n,
      (size (get_public_assignments (program s)) <= n)%N
    & pk_shaped s].

Definition typed (D : ctx) (h : Heap) : Prop :=
  wf (self h) /\ typed_attrs D (self h).

(* Run from a heap of context D, m raises no BasisError, and when it
   completes its value satisfies P and the heap it leaves has context
   D'. *)
Definition safe (D : ctx) {A : Type} (m : M A) (P : A -> Prop) (D' : ctx)
    : Prop :=
  forall h, typed D h ->
    match m h with
    | (Ok a, h') => P a /\ typed D' h'
    | (Raise e, _) => ~~ basis_error e
    end.

(* --- expressions ---------------------------------------------------- *)

Lemma good_Ok A (P : A -> Prop) a : P a -> good P (Ok a).
Proof. by []. Qed.

Lemma good_Ok_True A (a : A) : good (fun _ => True) (Ok a).
Proof. by []. Qed.

Lemma good_weaken A (P Q : A -> Prop) r :
  good Q r -> (forall a, Q a -> P a) -> good P r.
Proof. by case: r => //= a Qa; apply. Qed.

Lemma good_rbind A B (Q : A -> Prop) (P : B -> Prop) x (k : A -> result B) :
  good Q x -> (forall a, Q a -> good P (k a)) -> good P (rbind x k).
Proof. by case: x => //= a Qa; apply. Qed.

Lemma good_lift2 A B C (Q1 : A -> Prop) (Q2 : B -> Prop) (P : C -> Prop)
    (op : A -> B -> result C) x y :
  good Q1 x -> good Q2 y ->
  (forall a b, Q1 a -> Q2 b -> good P (op a b)) ->
  good P (lift2 op x y).
Proof.
rewrite /lift2; case: x => //= a Qa; case: y => //= b Qb; exact.
Qed.

Lemma good_attr_scalar (s : Prover) k :
  good (fun _ => True) (attr_scalar s k).
Proof. by rewrite /attr_scalar; case: (attrs s k) => [[]|]. Qed.

Lemma good_attr_point (s : Prover) k :
  good (fun _ => True) (attr_point s k).
Proof. by rewrite /attr_point; case: (attrs s k) => [[]|]. Qed.

Lemma good_attr_poly_any (s : Prover) k :
  good (fun _ => True) (attr_poly s k).
Proof. by rewrite /attr_poly; case: (attrs s k) => [[]|]. Qed.

Lemma good_attr_list_any (s : Prover) k :
  good (fun _ => True) (attr_list s k).
Proof. by rewrite /attr_list; case: (attrs s k) => [[]|]. Qed.

Lemma good_attr_poly (s : Prover) k b c :
  has_shape (PolyOf b c) (attrs s k) -> good (shaped b c) (attr_poly s k).
Proof. by rewrite /attr_poly => -[p -> sh]. Qed.

Lemma good_attr_list (s : Prover) k c :
  has_shape (ListOf c) (attrs s k) ->
  good (fun l => size l = (c * n)%N) (attr_list s k).
Proof. by rewrite /attr_list => -[l -> sz]. Qed.

Lemma good_list_get A (x0 : A) l i : good (fun _ => True) (list_get x0 l i).
Proof. by rewrite /list_get; case: ifP. Qed.

Lemma good_sdiv (x y : F) : good (fun _ => True) (sdiv x y).
Proof. by rewrite /sdiv; case: ifP. Qed.

Lemma same_shape_shaped b c (p q : Polynomial F) :
  shaped b c p -> shaped b c q -> same_shape p q.
Proof. by rewrite /same_shape => -[-> ->] [-> ->]; rewrite !eqxx. Qed.

Lemma size_zip_with (op : F -> F -> F) (s t : seq F) :
  size s = size t -> size (zip_with op s t) = size s.
Proof. by move=> E; rewrite /zip_with size_map size_zip -E minnn. Qed.

Lemma good_padd b c (p q : Polynomial F) :
  shaped b c p -> shaped b c q -> good (shaped b c) (padd p q).
Proof.
move=> sp sq; rewrite /padd (same_shape_shaped sp sq) /=.
by case: sp sq => bp zp [_ zq]; split; rewrite // size_zip_with ?zp.
Qed.

Lemma good_psub b c (p q : Polynomial F) :
  shaped b c p -> shaped b c q -> good (shaped b c) (psub p q).
Proof.
move=> sp sq; rewrite /psub (same_shape_shaped sp sq) /=.
by case: sp sq => bp zp [_ zq]; split; rewrite // size_zip_with ?zp.
Qed.

Lemma good_pmul b c (p q : Polynomial F) :
  shaped b c p -> shaped b c q -> good (shaped b c) (pmul p q).
Proof.
move=> sp sq; rewrite /pmul (same_shape_shaped sp sq) /=.
by case: sp sq => bp zp [_ zq]; split; rewrite // size_zip_with ?zp.
Qed.

Lemma good_div_values (s t : seq F) :
  good (fun r => size s = size t -> size r = size s) (div_values s t).
Proof.
elim: s t => [|x s IH] [|y t] //=.
rewrite /sdiv; case: ifP => //= _.
by have := IH t; case: (div_values s t) => //= r sz [/sz->].
Qed.

Lemma good_pdiv b c (p q : Polynomial F) :
  shaped b c p -> shaped b c q -> good (shaped b c) (pdiv p q).
Proof.
move=> sp sq; rewrite /pdiv (same_shape_shaped sp sq) /=.
have := good_div_values (values p) (values q).
case: (div_values _ _) => //= r sz.
by case: sp sq => bp zp [_ zq]; split; rewrite // sz zp.
Qed.

Lemma shaped_promote b c (p : Polynomial F) x :
  shaped b c p -> shaped b c (promote p x).
Proof.
case: p => vs bp [/= -> sz]; rewrite /promote /=.
case: b => /=; split; rewrite // ?size_nseq //.
rewrite size_take /= size_nseq; case: (size vs) sz => [|m] <- //=.
by rewrite ltnn.
Qed.

Lemma good_padd_s b c (p : Polynomial F) x :
  shaped b c p -> good (shaped b c) (padd_s p x).
Proof. by move=> sp; apply: good_padd => //; apply: shaped_promote. Qed.

Lemma good_psub_s b c (p : Polynomial F) x :
  shaped b c p -> good (shaped b c) (psub_s p x).
Proof. by move=> sp; apply: good_psub => //; apply: shaped_promote. Qed.

Lemma good_pmul_s b c (p : Polynomial F) x :
  shaped b c p -> good (shaped b c) (pmul_s p x).
Proof. by case=> bp sz; rewrite /pmul_s /=; split; rewrite // size_map. Qed.

Lemma good_shift c (p : Polynomial F) k :
  shaped LAGRANGE c p -> good (shaped LAGRANGE c) (shift p k).
Proof. by case=> bp sz; rewrite /shift bp /=; split; rewrite // size_rot. Qed.

Lemma good_fft c (p : Polynomial F) :
  shaped MONOMIAL c p -> good (shaped LAGRANGE c) (fft root_of_unity p).
Proof.
case=> bp sz; rewrite /fft bp /=; split=> //.
by rewrite /roots_of_unity !size_map size_iota.
Qed.

Lemma good_ifft c (p : Polynomial F) :
  shaped LAGRANGE c p -> good (shaped MONOMIAL c) (ifft root_of_unity p).
Proof.
case=> bp sz; rewrite /ifft bp /= /sdiv; case: ifP => //= _; split=> //.
by rewrite /inverse_roots !size_map size_iota.
Qed.

Lemma size_scale_coeffs (x : F) cs : size (scale_coeffs x cs) = size cs.
Proof. by rewrite /scale_coeffs size_map size_zip size_iota minnn. Qed.

Lemma good_to_coset c (p : Polynomial F) x :
  shaped LAGRANGE c p ->
  good (shaped LAGRANGE (4 * c))
    (to_coset_extended_lagrange root_of_unity p x).
Proof.
move=> sp; rewrite /to_coset_extended_lagrange (proj1 sp) /=.
have := good_ifft sp; case: (ifft _ _) => //= q [bq zq].
split=> //=; rewrite /roots_of_unity !size_map size_iota.
rewrite size_cat size_scale_coeffs size_nseq zq (proj2 sp).
by rewrite -[(4 * c * n)%N]mulnA mulSn [(c * n * 3)%N]mulnC.
Qed.

Lemma good_coset_to_coeffs c (p : Polynomial F) x :
  shaped LAGRANGE c p ->
  good (shaped MONOMIAL c)
    (coset_extended_lagrange_to_coeffs root_of_unity p x).
Proof.
move=> sp; rewrite /coset_extended_lagrange_to_coeffs (proj1 sp) /=.
have := good_ifft sp; case: (ifft _ _) => //= q [bq zq].
by rewrite /sdiv; case: ifP => //= _; split; rewrite // size_scale_coeffs.
Qed.

Lemma good_barycentric_sum (vs rs : seq F) x :
  good (fun _ => True) (barycentric_sum vs rs x).
Proof.
elim: vs rs => [|v vs IH] [|r rs] //=.
rewrite /sdiv; case: ifP => //= _.
by have := IH rs; case: (barycentric_sum vs rs x).
Qed.

Lemma good_barycentric_eval c (p : Polynomial F) x :
  shaped LAGRANGE c p ->
  good (fun _ => True) (barycentric_eval root_of_unity p x).
Proof.
case=> bp _; rewrite /barycentric_eval bp /=.
case: ifP => _; first exact: good_list_get.
rewrite /sdiv; case: ifP => //= _.
by have := good_barycentric_sum (values p) (roots_of_unity root_of_unity
                                                (size (values p))) x;
  case: (barycentric_sum _ _ _).
Qed.

(* --- sizes ----------------------------------------------------------- *)

Lemma size_times_order c : size (nseq (n * c) (0 : F)) = (c * n)%N.
Proof. by rewrite size_nseq mulnC. Qed.

Lemma size_constant c (x : F) : size (nseq (n * c) x) = (c * n)%N.
Proof. by rewrite size_nseq mulnC. Qed.

Lemma size_roots c :
  size (roots_of_unity root_of_unity (n * c)) = (c * n)%N.
Proof. by rewrite /roots_of_unity size_map size_iota mulnC. Qed.

Lemma size_first_basis (x y : F) :
  (0 < n)%N -> size (x :: nseq (n - 1) y) = (1 * n)%N.
Proof. by move=> n0 /=; rewrite size_nseq subn1 prednK // mul1n. Qed.

Lemma size_low (l : seq F) :
  size l = (4 * n)%N -> size (take n l) = (1 * n)%N.
Proof.
move=> sz; rewrite size_take sz mul1n.
by case: ltngtP => //; rewrite ltnNge leq_pmull.
Qed.

Lemma size_part_1 b (q : Polynomial F) :
  shaped b 4 q -> size (drop 0 (take n (values q))) = (1 * n)%N.
Proof. by case=> _ sz; rewrite drop0 size_low. Qed.

Lemma size_part_2 b (q : Polynomial F) :
  shaped b 4 q -> size (drop n (take (2 * n) (values q))) = (1 * n)%N.
Proof.
case=> _ sz; rewrite size_drop size_take sz.
have -> : (2 * n < 4 * n)%N = (0 < n)%N by rewrite ltn_mul2r andbT.
by case: ifP => [_|/negbT]; rewrite ?mul2n -?addnn ?addnK ?mul1n //
  -eqn0Ngt => /eqP->.
Qed.

Lemma size_part_3 b (q : Polynomial F) :
  shaped b 4 q ->
  size (drop (2 * n) (take (3 * n) (values q))) = (1 * n)%N.
Proof.
case=> _ sz; rewrite size_drop size_take sz.
have -> : (3 * n < 4 * n)%N = (0 < n)%N by rewrite ltn_mul2r andbT.
case: ifP => [_|/negbT]; last by rewrite -eqn0Ngt => /eqP->.
by rewrite -mulnBl.
Qed.

Lemma size_public_values (w : witness) vars vs :
  public_values F w vars = Ok vs -> size vs = size vars.
Proof.
elim: vars vs => [|v vars IH] vs /=; first by case=> <-.
case: (dict_lookup w v) => //= x.
by case E: (public_values F w vars) => [r|] //= [<-] /=; rewrite (IH _ E).
Qed.

Lemma size_public (vs : seq F) (vars : seq (option string)) (x : F) :
  size vs = size vars -> (size vars <= n)%N ->
  size (vs ++ nseq (n - size vars) x) = (1 * n)%N.
Proof. by move=> sz le_n; rewrite size_cat size_nseq sz subnKC ?mul1n. Qed.

Lemma good_public_values (w : witness) vars :
  good (fun vs => size vs = size vars) (public_values F w vars).
Proof.
elim: vars => [|v vars IH] //=.
rewrite /dict_lookup; case: (dict_get w v) => //= x.
by move: IH; case: (public_values F w vars) => //= r ->.
Qed.

Lemma good_assign_wires (w : witness) gs :
  forall i (ABC : seq F * seq F * seq F),
  good (fun R => [/\ size R.1.1 = size ABC.1.1, size R.1.2 = size ABC.1.2
                   & size R.2 = size ABC.2])
    (assign_wires w i gs ABC).
Proof.
elim: gs => [|g gs IH] i [[A B] C] //=.
rewrite /dict_lookup /list_set.
case: (dict_get w (wire_L g)) => //= a; case: ifP => //= iA.
case: (dict_get w (wire_R g)) => //= b; case: ifP => //= iB.
case: (dict_get w (wire_O g)) => //= c; case: ifP => //= iC.
have := IH i.+1 (set_nth 0 A i (Scalar F a), set_nth 0 B i (Scalar F b),
                 set_nth 0 C i (Scalar F c)).
case: (assign_wires _ _ _ _) => //= R [-> -> ->].
by rewrite !size_set_nth !(maxn_idPr _).
Qed.

Lemma good_assign_wires_zeros (w : witness) gs (x : F) :
  good (fun R => [/\ size R.1.1 = (1 * n)%N, size R.1.2 = (1 * n)%N
                   & size R.2 = (1 * n)%N])
    (assign_wires w 0 gs (nseq n x, nseq n x, nseq n x)).
Proof.
apply: good_weaken (good_assign_wires w gs 0 _) _ => R /=.
by rewrite size_nseq mul1n.
Qed.

Lemma good_vanishing_values (s : Prover) rs c :
  size rs = (c * n)%N ->
  good (fun l => size l = (c * n)%N) (vanishing_values s rs [::]).
Proof.
move=> sz; rewrite vanishing_valuesE.
case: rs sz => [|r rs] // <-.
have := good_attr_scalar s "fft_cofactor".
case: (attr_scalar s _) => [h _|e] //.
by rewrite /good /rbind size_cat size_map.
Qed.

Lemma good_list_pop (l : seq F) :
  good (fun p => size p.2 = (size l).-1) (list_pop l).
Proof. by case: l => //= x l; rewrite size_belast. Qed.

Lemma good_Ok_shaped b c (p : Polynomial F) :
  shaped b c p -> good (shaped b c) (Ok p).
Proof. by []. Qed.

Lemma shaped_Mk b c (l : seq F) :
  size l = (c * n)%N -> shaped b c (MkPolynomial l b).
Proof. by []. Qed.

Lemma good_Ok_poly b c (l : seq F) :
  size l = (c * n)%N -> good (shaped b c) (Ok (MkPolynomial l b)).
Proof. by []. Qed.

Lemma good_Ok_values b c (p : Polynomial F) :
  shaped b c p -> good (fun l => size l = (c * n)%N) (Ok (values p)).
Proof. by case. Qed.

Lemma good_Ok_roots c :
  good (fun l => size l = (c * n)%N)
    (Ok (roots_of_unity root_of_unity (n * c))).
Proof. exact: size_roots. Qed.

Lemma good_Ok_3 b1 c1 b2 c2 b3 c3 (x y z : Polynomial F) :
  shaped b1 c1 x -> shaped b2 c2 y -> shaped b3 c3 z ->
  good (fun t => [/\ shaped b1 c1 t.1.1, shaped b2 c2 t.1.2
                   & shaped b3 c3 t.2])
    (Ok (x, y, z)).
Proof. by []. Qed.

Lemma good_Ok_5 b1 c1 b2 c2 b3 c3 b4 c4 b5 c5 (x y z u v : Polynomial F) :
  shaped b1 c1 x -> shaped b2 c2 y -> shaped b3 c3 z -> shaped b4 c4 u ->
  shaped b5 c5 v ->
  good (fun t => [/\ shaped b1 c1 t.1.1.1.1, shaped b2 c2 t.1.1.1.2,
                     shaped b3 c3 t.1.1.2, shaped b4 c4 t.1.2
                   & shaped b5 c5 t.2])
    (Ok (x, y, z, u, v)).
Proof. by []. Qed.

(* --- computations ---------------------------------------------------- *)

Lemma typed_set D (s : Prover) k v sh :
  has_shape sh (Some v) -> typed_attrs D s ->
  typed_attrs ((k, sh) :: D) (set_attr s k v).
Proof.
move=> Hv Ht k' /=; rewrite /store_set.
by case: (String.eqb k' k).
Qed.

Lemma safe_bind D D1 D2 A B (m : M A) (k : A -> M B) (Q : A -> Prop)
    (P : B -> Prop) :
  safe D m Q D1 -> (forall a, Q a -> safe D1 (k a) P D2) ->
  safe D (bind m k) P D2.
Proof.
move=> Hm Hk h /Hm; rewrite /bind.
by case: (m h) => [[a|e] h'] // [Qa /(Hk _ Qa)].
Qed.

Lemma safe_ret D A (a : A) : safe D (ret a : M A) (fun _ => True) D.
Proof. by move=> h. Qed.

Lemma safe_assert D site b : safe D (assert site b : M unit) (fun _ => True) D.
Proof. by move=> h Ht /=; case: b. Qed.

Lemma safe_get_witness D : safe D (get_witness : M witness) (fun _ => True) D.
Proof. by move=> h. Qed.

Lemma safe_set_witness D w :
  safe D (set_witness w : M unit) (fun _ => True) D.
Proof. by move=> h. Qed.

Lemma safe_setattr D k v sh :
  has_shape sh (Some v) ->
  safe D (setattr k v : M unit) (fun _ => True) ((k, sh) :: D).
Proof.
by move=> Hv [s w] [wfs Ht]; split=> //; split=> //; apply: typed_set.
Qed.

Lemma safe_setattr_poly D k b c (p : Polynomial F) :
  shaped b c p ->
  safe D (setattr k (VPoly p) : M unit) (fun _ => True)
    ((k, PolyOf b c) :: D).
Proof. by move=> sp; apply: safe_setattr; exists p. Qed.

Lemma safe_setattr_list D k c (l : seq F) :
  size l = (c * n)%N ->
  safe D (setattr k (VList l) : M unit) (fun _ => True) ((k, ListOf c) :: D).
Proof. by move=> sz; apply: safe_setattr; exists l. Qed.

Lemma safe_setattr_other D k v :
  safe D (setattr k v : M unit) (fun _ => True) ((k, Other) :: D).
Proof. exact: safe_setattr. Qed.

Lemma safe_with_self D A (f : Prover -> result A) (P : A -> Prop) :
  (forall s, wf s -> typed_attrs D s -> good P (f s)) ->
  safe D (with_self f) P D.
Proof.
move=> Hf h [wfs Ht]; rewrite /with_self.
by have := Hf _ wfs Ht; case: (f (self h)).
Qed.

End Shapes.

Ltac size_tac :=
  first
    [ eassumption
    | eapply size_constant
    | eapply size_roots
    | eapply size_first_basis; eassumption
    | eapply size_low; eassumption
    | eapply size_part_1; eassumption
    | eapply size_part_2; eassumption
    | eapply size_part_3; eassumption
    | eapply size_public; eassumption ].

Ltac shaped_tac :=
  first [ eassumption | eapply shaped_Mk; size_tac ].

Ltac typed_lookup :=
  lazymatch goal with
  | Hty : typed_attrs _ _ _ |- has_shape _ _ (attrs _ ?k) => exact (Hty k)
  end.

Ltac good_intro :=
  let a := fresh "a" in let Ha := fresh "Ha" in
  intros a Ha; cbv beta in Ha;
  lazymatch type of Ha with
  | and3 _ _ _ => destruct Ha as [? ? ?]
  | and5 _ _ _ _ _ => destruct Ha as [? ? ? ? ?]
  | _ => idtac
  end.

Ltac good_leaf :=
  lazymatch goal with
  | |- good _ (Ok (_, _, _, _, _)) => eapply good_Ok_5; eassumption
  | |- good _ (Ok (_, _, _)) => eapply good_Ok_3; eassumption
  | |- good _ (Ok (values _)) => eapply good_Ok_values; eassumption
  | |- good _ (Ok (MkPolynomial _ _)) =>
      first [ eapply good_Ok_poly; size_tac | eapply good_Ok_True ]
  | |- good _ (Ok (roots_of_unity _ _)) => eapply good_Ok_roots
  | |- good _ (Ok _) =>
      first [ eapply good_Ok_shaped; eassumption | eapply good_Ok_True ]
  end.

Ltac good_expr :=
  cbv beta;
  lazymatch goal with
  | |- good _ (rbind _ _) =>
      eapply good_rbind; [ good_expr | good_intro; good_expr ]
  | |- good _ (lift2 _ _ _) =>
      eapply good_lift2;
      [ good_expr | good_expr | intros ? ? ? ?; good_expr ]
  | |- good _ (attr_scalar _ _) => eapply good_attr_scalar
  | |- good _ (attr_point _ _) => eapply good_attr_point
  | |- good _ (attr_poly _ _) =>
      first [ eapply good_attr_poly; typed_lookup
            | eapply good_attr_poly_any ]
  | |- good _ (attr_list _ _) =>
      first [ eapply good_attr_list; typed_lookup
            | eapply good_attr_list_any ]
  | |- good _ (list_get _ _ _) => eapply good_list_get
  | |- good _ (sdiv _ _) => eapply good_sdiv
  | |- good _ (padd _ _) => eapply good_padd; eassumption
  | |- good _ (psub _ _) => eapply good_psub; eassumption
  | |- good _ (pmul _ _) => eapply good_pmul; eassumption
  | |- good _ (pdiv _ _) => eapply good_pdiv; eassumption
  | |- good _ (padd_s _ _) => eapply good_padd_s; eassumption
  | |- good _ (psub_s _ _) => eapply good_psub_s; eassumption
  | |- good _ (pmul_s _ _) => eapply good_pmul_s; eassumption
  | |- good _ (shift _ _) => eapply good_shift; eassumption
  | |- good _ (fft _ _) => eapply good_fft; shaped_tac
  | |- good _ (to_coset_extended_lagrange _ _ _) =>
      eapply good_to_coset; eassumption
  | |- good _ (coset_extended_lagrange_to_coeffs _ _ _) =>
      eapply good_coset_to_coeffs; eassumption
  | |- good _ (barycentric_eval _ _ _) =>
      eapply good_barycentric_eval; eassumption
  | |- good _ (public_values _ _ _) => eapply good_public_values
  | |- good _ (assign_wires _ _ _ _) => eapply good_assign_wires_zeros
  | |- good _ (vanishing_values _ _ _) =>
      eapply good_vanishing_values; eassumption
  | |- good _ (list_pop _) => eapply good_list_pop
  | |- good _ (Ok _) => good_leaf
  end.

Ltac unfold_expr :=
  unfold gate_constraint, quotient_gates, quotient_permutation,
    quotient_part, quotient_split_holds, eval_at_zeta, linearized_gates,
    linearized_permutation, linearization, opening_at_zeta,
    opening_at_zeta_omega, perm_numerator, perm_denominator, rlc_poly, rlc,
    fft_expand, expanded_evals_to_coeffs, value_at;
  cbv beta zeta.

Section RoundTwo.

Variables (F : fieldType) (root_of_unity : nat -> F) (G1 Setup : Type).
Variable commit : Setup -> Polynomial F -> G1.
Notation Prover := (Prover F G1 Setup).
Variable n : nat.

Lemma good_accumulate (s : Prover) roots steps : forall Zs,
  good (fun l => size l = (size Zs + size steps)%N)
    (accumulate s roots steps Zs).
Proof.
elim: steps => [|[idx i] steps IH] Zs /=; first by rewrite addn0.
have : good (fun _ => True)
         (lift2 (fun a b : F => Ok (a * b)) (list_get 0 Zs (idx - 1))
            (lift2 (@sdiv F) (perm_numerator s roots i)
               (perm_denominator s i))).
  by unfold_expr; good_expr.
case: (lift2 _ _ _) => //= z _.
by have := IH (rcons Zs z); rewrite size_rcons addSnnS.
Qed.

Lemma good_check_accumulator (s : Prover) roots idxs Zs :
  good (fun _ => True) (check_accumulator s roots idxs Zs).
Proof.
elim: idxs => [|i idxs IH] //=.
have : good (fun _ => True)
         (lift2 (fun a b : F => Ok (a - b))
            (lift2 (fun a b : F => Ok (a * b)) (perm_numerator s roots i)
               (list_get 0 Zs i))
            (lift2 (fun a b : F => Ok (a * b)) (perm_denominator s i)
               (list_get 0 Zs ((i + 1) %% group_order s)))).
  by unfold_expr; good_expr.
by case: (lift2 _ _ _) => //= d _; case: ifP.
Qed.

Lemma safe_round_2 D :
  safe n D (round_2 root_of_unity commit) (fun _ => True)
    (("Z"%string, PolyOf LAGRANGE 1) :: D).
Proof.
rewrite /round_2.
eapply safe_bind with (Q := fun l : seq F => size l = (1 * n)%N).
  eapply safe_with_self => s [_ Hn _ _] _; rewrite Hn.
  have := good_accumulate s (roots_of_unity root_of_unity n)
            (zip (iota 1 n) (iota 0 n)) [:: Scalar F 1].
  case: (accumulate _ _ _ _) => //= Zs sz.
  have := good_list_pop Zs; case: (list_pop Zs) => //= -[z Zs'] /= sz'.
  case: ifP => //= _.
  have := good_check_accumulator s (roots_of_unity root_of_unity n)
            (iota 0 n) Zs'.
  case: (check_accumulator _ _ _ _) => //= _ _.
  by rewrite sz' sz size_zip !size_iota minnn add1n mul1n.
move=> Zs sz; eapply safe_bind.
  by eapply safe_setattr_poly; eapply shaped_Mk; eassumption.
move=> _ _; eapply safe_bind; last by move=> a _; eapply safe_ret.
eapply safe_with_self => s _ _.
by unfold_expr; good_expr.
Qed.

End RoundTwo.

Ltac safe_expr :=
  let s := fresh "s" in let Hty := fresh "Hty" in
  let n_gt0 := fresh "n_gt0" in let Hn := fresh "Hn" in
  let Hpub := fresh "Hpub" in
  intros s [n_gt0 Hn Hpub [[? ? ? ? ?] [? ? ?]]] Hty;
  unfold_expr; rewrite ?Hn; good_expr.

Ltac safe_step :=
  lazymatch goal with
  | |- forall a, _ -> safe _ _ _ _ _ => good_intro
  | |- safe _ _ (bind _ _) _ _ => eapply safe_bind
  | |- safe _ _ (ret _) _ _ => eapply safe_ret
  | |- safe _ _ (with_self _) _ _ => eapply safe_with_self; safe_expr
  | |- safe _ _ (round_2 _ _) _ _ => eapply safe_round_2
  | |- safe _ _ (setattr _ (VPoly _)) _ _ =>
      first [ eapply safe_setattr_poly; shaped_tac
            | eapply safe_setattr_other ]
  | |- safe _ _ (setattr _ (VList _)) _ _ =>
      first [ eapply safe_setattr_list; size_tac
            | eapply safe_setattr_other ]
  | |- safe _ _ (setattr _ _) _ _ => eapply safe_setattr_other
  | |- safe _ _ (assert _ _) _ _ => eapply safe_assert
  | |- safe _ _ get_witness _ _ => eapply safe_get_witness
  | |- safe _ _ (set_witness _) _ _ => eapply safe_set_witness
  | |- safe _ _ (let (_, _) := ?e in _) _ _ => destruct e
  | |- safe _ _ (if ?b then _ else _) _ _ => destruct b
  end.

Section SafeProve.

Variables (F : fieldType) (root_of_unity : nat -> F) (G1 Setup : Type).
Variable commit : Setup -> Polynomial F -> G1.
Variable Transcript : Type.
Variable Transcript_init : string -> Transcript.
Variable transcript_round_1 : Transcript -> Message1 G1 -> (F * F) * Transcript.
Variable transcript_round_2 : Transcript -> Message2 G1 -> (F * F) * Transcript.
Variable transcript_round_3 : Transcript -> Message3 G1 -> F * Transcript.
Variable transcript_round_4 : Transcript -> Message4 F -> F * Transcript.

Notation Heap := (Heap F G1 Setup).
Notation prove := (prove root_of_unity commit Transcript_init
                     transcript_round_1 transcript_round_2
                     transcript_round_3 transcript_round_4).

Variable n : nat.

Lemma safe_prove :
  exists2 D', safe n [::] prove (fun _ => True) D'
  & [/\ lookup D' "Z_H" = PolyOf LAGRANGE 4,
        lookup D' "A_expanded" = PolyOf LAGRANGE 4,
        lookup D' "S3_expanded" = PolyOf LAGRANGE 4,
        lookup D' "Z_expanded" = PolyOf LAGRANGE 4
      & lookup D' "QUOT_expanded" = PolyOf LAGRANGE 4].
Proof.
eexists.
  rewrite /prove /public_inputs /round_1 /round_3 /round_4 /round_5.
  cbv zeta.
  by repeat safe_step.
by split.
Qed.

(* The attribute name holds a LAGRANGE polynomial of 4n values. *)
Definition expanded_attr (s : Prover F G1 Setup) (name : string) : bool :=
  if attrs s name is Some (VPoly p) then lagrange (group_order s * 4) p
  else false.

Lemma shaped_lagrange c (p : Polynomial F) :
  shaped n LAGRANGE c p -> lagrange (n * c) p.
Proof. by case=> bp sz; rewrite /lagrange bp sz mulnC !eqxx. Qed.

Lemma lagrange_shaped (p : Polynomial F) :
  lagrange n p -> shaped n LAGRANGE 1 p.
Proof. by case/andP=> /eqP bp /eqP sz; split; rewrite // mul1n. Qed.

Lemma expanded_attr_lookup D (s : Prover F G1 Setup) name :
  group_order s = n -> typed_attrs n D s ->
  lookup D name = PolyOf LAGRANGE 4 -> expanded_attr s name.
Proof.
move=> Hn Hty E; have := Hty name; rewrite E /= /expanded_attr Hn.
by case=> p -> /shaped_lagrange.
Qed.

(* The polynomial operators complete, or raise another exception than
   BasisError, exactly on operands of the same basis and size. *)
Lemma operators_reject_mismatch (p q : Polynomial F) :
  [/\ good (fun _ => True) (padd p q) <-> same_shape p q,
      good (fun _ => True) (psub p q) <-> same_shape p q,
      good (fun _ => True) (pmul p q) <-> same_shape p q
    & good (fun _ => True) (pdiv p q) <-> same_shape p q].
Proof.
rewrite /padd /psub /pmul /pdiv; case: (same_shape p q); split=> //=.
split=> // _; have := good_div_values (values p) (values q).
by case: (div_values _ _).
Qed.

End SafeProve.

Section BasisAndSize.

Variables (F : fieldType) (root_of_unity : nat -> F) (G1 Setup : Type).
Variable commit : Setup -> Polynomial F -> G1.
Variable Transcript : Type.
Variable Transcript_init : string -> Transcript.
Variable transcript_round_1 : Transcript -> Message1 G1 -> (F * F) * Transcript.
Variable transcript_round_2 : Transcript -> Message2 G1 -> (F * F) * Transcript.
Variable transcript_round_3 : Transcript -> Message3 G1 -> F * Transcript.
Variable transcript_round_4 : Transcript -> Message4 F -> F * Transcript.

Notation Heap := (Heap F G1 Setup).
Notation prove := (prove root_of_unity commit Transcript_init
                     transcript_round_1 transcript_round_2
                     transcript_round_3 transcript_round_4).


End BasisAndSize.

(* ===================================================================== *)
(* Further properties of Proof.flatten, prove and the rounds              *)
(* ===================================================================== *)

Section ProofRecord.

Variables (F : fieldType) (G1 : Type).

(* The keys of the dictionary Proof.flatten builds, in insertion order. *)
Definition flatten_keys : seq string :=
  [:: "a_1"; "b_1"; "c_1"; "z_1"; "t_lo_1"; "t_mid_1"; "t_hi_1"; "a_eval";
      "b_eval"; "c_eval"; "s1_eval"; "s2_eval"; "z_shifted_eval"; "W_z_1";
      "W_zw_1"]%string.

(** X1: Proof.flatten loses nothing. Its fifteen keys are pairwise
    distinct, so no assignment of flatten overwrites an earlier one, they
    are the same for every proof, and two proofs with the same flattened
    dictionary are the same proof. *)
Theorem flatten_determines_the_proof (pf1 pf2 : Proof F G1) :
  [/\ flatten pf1 = flatten pf2 <-> pf1 = pf2,
      [seq kv.1 | kv <- flatten pf1] = flatten_keys
    & uniq flatten_keys].
Proof.
split=> //; split=> [|-> //].
case: pf1 => [[a1 b1 c1] [z1] [tl tm th] [ae be ce s1e s2e zse] [wz wzw]].
case: pf2 => [[a2 b2 c2] [z2] [tl' tm' th'] [ae' be' ce' s1' s2' zs'] [wz' w']].
rewrite /flatten /=.
by do 7![case=> ->]; do 6![case=> ->]; do 2![case=> ->].
Qed.

End ProofRecord.

Section RoundOne.

Variables (F : fieldType) (root_of_unity : nat -> F) (G1 Setup : Type).
Variable commit : Setup -> Polynomial F -> G1.
Variable Transcript : Type.
Variable Transcript_init : string -> Transcript.
Variable transcript_round_1 : Transcript -> Message1 G1 -> (F * F) * Transcript.
Variable transcript_round_2 : Transcript -> Message2 G1 -> (F * F) * Transcript.
Variable transcript_round_3 : Transcript -> Message3 G1 -> F * Transcript.
Variable transcript_round_4 : Transcript -> Message4 F -> F * Transcript.

Notation Prover := (Prover F G1 Setup).
Notation Heap := (Heap F G1 Setup).
Notation public_inputs := (@public_inputs F G1 Setup).
Notation prove := (prove root_of_unity commit Transcript_init
                     transcript_round_1 transcript_round_2
                     transcript_round_3 transcript_round_4).

(* The first key of ks that the dictionary w lacks. *)
Definition first_missing (w : witness) (ks : seq (option string))
    : option string :=
  nth None ks (find (fun k => ~~ dict_mem k w) ks).

Lemma public_values_missing (w : witness) vars :
  ~~ all (dict_mem^~ w) vars ->
  public_values F w vars = Raise (KeyError (first_missing w vars)).
Proof.
rewrite /first_missing; elim: vars => [//|v vars IH] /=.
rewrite dict_lookupE; case: ifP => //= kv /IH -> //.
Qed.

(** X2: the public input polynomial that prove builds. When the witness
    has every public variable, self.PI is a LAGRANGE polynomial that holds
    minus the public values in order, then zeros, and has as many values
    as the larger of the group order and the number of public variables
    (a negative padding count pads nothing). When a public variable is
    missing, the KeyError of the first missing one is raised before
    anything is assigned: the Prover and the witness are as they were. *)
Theorem public_inputs_polynomial (h : Heap) :
  let s := self h in
  let public_vars := get_public_assignments (program s) in
  [/\ all (dict_mem^~ (wit h)) public_vars ->
      exists2 PI : Polynomial F,
        public_inputs h = (Ok tt, with_PI h PI)
        & [/\ basis PI = LAGRANGE,
              size (values PI) = maxn (group_order s) (size public_vars),
              forall i, (i < size public_vars)%N ->
                (values PI)`_i
                = Scalar F (- odflt 0 (dict_get (wit h)
                                         (nth None public_vars i)))
            & forall i, (size public_vars <= i)%N -> (values PI)`_i = 0]
    & ~~ all (dict_mem^~ (wit h)) public_vars ->
      public_inputs h
      = (Raise (KeyError (first_missing (wit h) public_vars)), h)].
Proof.
move=> s public_vars; split=> [cov|miss]; last first.
  by rewrite public_inputs_run public_values_missing.
rewrite public_inputs_run public_values_ok //.
eexists; first by [].
split=> //= [|i lt_i|i le_i].
- by rewrite size_cat size_map size_nseq -maxnE maxnC.
- by rewrite nth_cat size_map lt_i (nth_map None).
- by rewrite nth_cat size_map ltnNge le_i /= nth_nseq if_same.
Qed.

(* The wire names of the gates, in the order round_1 looks them up. *)
Definition wire_names (gs : seq Wire) : seq (option string) :=
  seq.flatten [seq [:: wire_L g; wire_R g; wire_O g] | g <- gs].

Lemma covers_wire_names (w : witness) gs :
  covers w gs = all (dict_mem^~ w) (wire_names gs).
Proof.
rewrite /covers /wire_names; elim: gs => [//|g gs IH] /=.
by rewrite IH -!andbA.
Qed.

Lemma assign_wires_missing (w : witness) gs :
  ~~ covers w gs -> forall i (A B C : seq F),
  (i + size gs <= size A)%N -> (i + size gs <= size B)%N ->
  (i + size gs <= size C)%N ->
  assign_wires w i gs (A, B, C)
  = Raise (KeyError (first_missing w (wire_names gs))).
Proof.
rewrite /first_missing; elim: gs => [//|g gs IH] /=.
rewrite !dict_lookupE /list_set => miss i A B C.
rewrite !addnS => iA iB iC.
case kL: (dict_mem _ _) miss => //=.
rewrite (leq_trans _ iA) ?ltnS ?leq_addr //=.
case kR: (dict_mem _ _) => //=.
rewrite (leq_trans _ iB) ?ltnS ?leq_addr //=.
case kO: (dict_mem _ _) => //= miss.
rewrite (leq_trans _ iC) ?ltnS ?leq_addr //=.
by apply: IH => //; rewrite size_set_nth addSn leq_max ?iA ?iB ?iC orbT.
Qed.

Lemma assign_wires_overflow (w : witness) gs m :
  covers w gs -> forall i (A B C : seq F),
  size A = m -> size B = m -> size C = m ->
  (i <= m < i + size gs)%N ->
  assign_wires w i gs (A, B, C) = Raise IndexError.
Proof.
elim: gs => [|g gs IH] /=.
  by move=> _ i A B C _ _ _; rewrite addn0 leqNgt andNb.
case/andP=> /and3P[kL kR kO] cov i A B C sA sB sC /andP[le_i lt_m].
rewrite !dict_lookupE kL kR kO /list_set /= sA sB sC.
move: le_i; rewrite leq_eqVlt => /orP[/eqP->|lt_i]; first by rewrite ltnn.
rewrite lt_i /=; apply: IH => //.
- by rewrite size_set_nth sA; apply/maxn_idPr.
- by rewrite size_set_nth sB; apply/maxn_idPr.
- by rewrite size_set_nth sC; apply/maxn_idPr.
by rewrite lt_i addSnnS.
Qed.

(** X3: round_1 on a program with more gates than the group order. When
    the witness has every wire variable, the loop over the gates runs out
    of the lists of group_order zeros and raises IndexError; by then the
    witness has its None entry, and A, B, C are not assigned. *)
Theorem round_1_rejects_more_gates_than_group_order (h : Heap) :
  let s := self h in
  let w' := normalize (wit h) in
  covers w' (wires (program s)) ->
  (group_order s < size (wires (program s)))%N ->
  round_1 commit h = (Raise IndexError, MkHeap s w').
Proof.
move=> s w' cov lt_n; rewrite round_1_run.
by rewrite (@assign_wires_overflow _ _ (group_order s)) ?size_nseq.
Qed.

(** X4: round_1 on a witness that lacks a wire variable. With at most
    group_order gates, round_1 raises the KeyError of the first missing
    name, in the order gate by gate, L then R then O; by then the witness
    has its None entry (so a wire named None is never the missing one),
    and A, B, C are not assigned. *)
Theorem round_1_reports_the_first_missing_wire (h : Heap) :
  let s := self h in
  let w' := normalize (wit h) in
  let gs := wires (program s) in
  (size gs <= group_order s)%N -> ~~ covers w' gs ->
  [/\ round_1 commit h
      = (Raise (KeyError (first_missing w' (wire_names gs))), MkHeap s w'),
      first_missing w' (wire_names gs) \in wire_names gs,
      ~~ dict_mem (first_missing w' (wire_names gs)) w'
    & first_missing w' (wire_names gs) != None].
Proof.
move=> s w' gs le_n miss.
have found : has (fun k => ~~ dict_mem k w') (wire_names gs).
  by rewrite has_predC -covers_wire_names.
have absent : ~~ dict_mem (first_missing w' (wire_names gs)) w'.
  exact: (@nth_find _ None (fun k => ~~ dict_mem k w')).
split=> //.
- by rewrite round_1_run assign_wires_missing ?size_nseq.
- by rewrite /first_missing mem_nth // -has_find.
apply: contraNneq absent => ->.
rewrite /w' /normalize /dict_mem; case E: (dict_get (wit h) None) => [x|].
  by rewrite E.
by rewrite dict_get_set eqxx.
Qed.

(** X5: what round_1 leaves on the Prover. With at most group_order gates
    and a witness that has every wire variable, round_1 assigns A, B and C
    before it checks the gates: whether the check passes, fails or cannot
    be made, A, B and C hold group_order values each, the wire values of
    the gates followed by zeros, the witness has its None entry, and no
    other attribute has changed. *)
Theorem round_1_assigns_the_wire_polynomials (h : Heap) :
  let s := self h in
  let w' := normalize (wit h) in
  let gs := wires (program s) in
  let n := group_order s in
  let h' := (round_1 commit h).2 in
  (size gs <= n)%N -> covers w' gs ->
  [/\ wit h' = w',
      [/\ attrs (self h') "A"%string
          = Some (VPoly (tab n (wire_at F wire_L w' gs))),
          attrs (self h') "B"%string
          = Some (VPoly (tab n (wire_at F wire_R w' gs)))
        & attrs (self h') "C"%string
          = Some (VPoly (tab n (wire_at F wire_O w' gs)))]
    & forall k, k \notin [:: "A"; "B"; "C"]%string ->
        attrs (self h') k = attrs s k].
Proof.
move=> s w' gs n h' le_n cov; rewrite /h' round_1_run.
rewrite assign_wires_zeros //=; split=> // k.
rewrite !inE !negb_or => /and3P[/negPf nA /negPf nB /negPf nC].
rewrite /store_set.
by move: nA nB nC; do 3![case: (String.eqb_spec k _) => [->|_]; rewrite ?eqxx //].
Qed.

(** X6: round_1 reads self.PI, which only prove assigns. Called on a
    Prover that has no PI (a new one, say), with selectors in LAGRANGE(n),
    at most n gates and a witness that has every wire variable, round_1
    assigns A, B and C, and then fails in its gate check with the
    AttributeError of PI. *)
Theorem round_1_needs_the_public_inputs (h : Heap) :
  let s := self h in
  let w' := normalize (wit h) in
  let gs := wires (program s) in
  (size gs <= group_order s)%N -> covers w' gs ->
  selectors_in_lagrange s -> attrs s "PI"%string = None ->
  (round_1 commit h).1 = Raise (AttributeError "PI").
Proof.
move=> s w' gs le_n cov /and5P[qL qR qM qO qC] noPI; rewrite round_1_run.
rewrite assign_wires_zeros //= /gate_check /gate_constraint /attr_poly /=.
rewrite /store_set /= noPI -!/(tab _ _).
rewrite [in LHS](lagrange_tab qL) [in LHS](lagrange_tab qR).
rewrite [in LHS](lagrange_tab qM) [in LHS](lagrange_tab qO).
by do !rewrite ?pmul_tab ?padd_tab /=.
Qed.

(** X7: prove changes the witness of the caller at most once. After a
    first call, on the dictionary as that call has left it, a second call
    changes nothing in it. *)
Theorem prove_changes_the_witness_once (h : Heap) :
  wit (prove (prove h).2).2 = wit (prove h).2.
Proof.
case ok: (is_ok (public_inputs h).1); last first.
  have same : (prove h).2 = h.
    rewrite /prove {1}/bind; move: ok; rewrite public_inputs_run.
    by case: (public_values _ _ _).
  by rewrite !same.
have E : wit (prove h).2 = normalize (wit h) by rewrite prove_witness ok.
set h1 := (prove h).2 in E *.
by rewrite prove_witness E normalize_idem; case: ifP.
Qed.

End RoundOne.

Section RoundTwoAndFour.

Variables (F : fieldType) (root_of_unity : nat -> F) (G1 Setup : Type).
Variable commit : Setup -> Polynomial F -> G1.

Notation Prover := (Prover F G1 Setup).
Notation Heap := (Heap F G1 Setup).
Notation round_2 := (round_2 root_of_unity commit).
Notation round_4 := (@round_4 F root_of_unity G1 Setup).



(** X10: round_4 returns what it has stored. When round_4 completes, the
    six fields of its message are the six attributes a_eval, b_eval,
    c_eval, s1_eval, s2_eval and z_shifted_eval of the Prover, and round_4
    has assigned no other attribute. *)
Theorem round_4_returns_what_it_stores (h : Heap) m4 h4 :
  round_4 h = (Ok m4, h4) ->
  [/\ [/\ attrs (self h4) "a_eval"%string = Some (VScalar (a_eval m4)),
          attrs (self h4) "b_eval"%string = Some (VScalar (b_eval m4))
        & attrs (self h4) "c_eval"%string = Some (VScalar (c_eval m4))],
      [/\ attrs (self h4) "s1_eval"%string = Some (VScalar (s1_eval m4)),
          attrs (self h4) "s2_eval"%string = Some (VScalar (s2_eval m4))
        & attrs (self h4) "z_shifted_eval"%string
          = Some (VScalar (z_shifted_eval m4))]
    & forall k,
        k \notin [:: "a_eval"; "b_eval"; "c_eval"; "s1_eval"; "s2_eval";
                     "z_shifted_eval"]%string ->
        attrs (self h4) k = attrs (self h) k].
Proof.
rewrite /round_4 /bind /with_self /=.
do 5![case: (eval_at_zeta _ _ _) => [?|?] //=].
case: (lift2 _ _ _) => [?|?] //=.
rewrite /attr_scalar /= /store_set /= => -[<- <-] /=.
split=> // k; rewrite !inE !negb_or /store_set.
by do 6![case: (String.eqb_spec k _) => [->|_]; rewrite ?eqxx ?andbF //].
Qed.

End RoundTwoAndFour.

(* ===================================================================== *)
(* The attributes prove assigns                                           *)
(* ===================================================================== *)

Section Assigns.

Variables (F : fieldType) (G1 Setup : Type).
Notation M := (M F G1 Setup).

(* A computation that assigns no attribute outside L. *)
Definition assigns_within (L : seq string) {A : Type} (m : M A) : Prop :=
  forall h name, name \notin L ->
    attrs (self (m h).2) name = attrs (self h) name.

Lemma assigns_ret L A (a : A) : assigns_within L (ret a : M A).
Proof. by []. Qed.

Lemma assigns_with_self L A (f : Prover F G1 Setup -> result A) :
  assigns_within L (with_self f).
Proof. by []. Qed.

Lemma assigns_assert L site b : assigns_within L (assert site b : M unit).
Proof. by []. Qed.

Lemma assigns_get_witness L : assigns_within L (get_witness : M witness).
Proof. by []. Qed.

Lemma assigns_set_witness L w : assigns_within L (set_witness w : M unit).
Proof. by []. Qed.

Lemma assigns_setattr L k v :
  k \in L -> assigns_within L (setattr k v : M unit).
Proof.
move=> kL h name; rewrite /= /store_set.
by case: (String.eqb_spec name k) => // ->; rewrite kL.
Qed.

Lemma assigns_bind L A B (m : M A) (k : A -> M B) :
  assigns_within L m -> (forall a, assigns_within L (k a)) ->
  assigns_within L (bind m k).
Proof.
move=> Hm Hk h name out; rewrite /bind; have := Hm h name out.
by case: (m h) => [[a|e] h'] //= <-; apply: Hk.
Qed.

End Assigns.

Ltac assigns_step :=
  lazymatch goal with
  | |- assigns_within _ (bind _ _) => refine (assigns_bind _ _); [|intro]
  | |- assigns_within _ (ret _) => refine (assigns_ret _ _)
  | |- assigns_within _ (with_self _) => refine (assigns_with_self _ _)
  | |- assigns_within _ (setattr _ _) =>
      refine (assigns_setattr _ _); reflexivity
  | |- assigns_within _ (assert _ _) => refine (assigns_assert _ _ _)
  | |- assigns_within _ get_witness => refine (assigns_get_witness _)
  | |- assigns_within _ (set_witness _) => refine (assigns_set_witness _ _)
  | |- assigns_within _ (let (_, _) := ?e in _) => destruct e
  | |- assigns_within _ (if ?b then _ else _) => destruct b
  end.

Section ProveAssigns.

Variables (F : fieldType) (root_of_unity : nat -> F) (G1 Setup : Type).
Variable commit : Setup -> Polynomial F -> G1.
Variable Transcript : Type.
Variable Transcript_init : string -> Transcript.
Variable transcript_round_1 : Transcript -> Message1 G1 -> (F * F) * Transcript.
Variable transcript_round_2 : Transcript -> Message2 G1 -> (F * F) * Transcript.
Variable transcript_round_3 : Transcript -> Message3 G1 -> F * Transcript.
Variable transcript_round_4 : Transcript -> Message4 F -> F * Transcript.

Notation Heap := (Heap F G1 Setup).
Notation prove := (prove root_of_unity commit Transcript_init
                     transcript_round_1 transcript_round_2
                     transcript_round_3 transcript_round_4).

(* The attributes that prove and its rounds assign. *)
Definition prove_attributes : seq string :=
  [:: "PI"; "A"; "B"; "C"; "beta"; "gamma"; "Z"; "alpha"; "fft_cofactor";
      "roots_of_unity"; "A_expanded"; "B_expanded"; "C_expanded";
      "PI_expanded"; "QL_expanded"; "QR_expanded"; "QM_expanded";
      "QO_expanded"; "QC_expanded"; "Z_expanded"; "Z_W_expanded";
      "S1_expanded"; "S2_expanded"; "S3_expanded"; "Z_H"; "L0";
      "L0_expanded"; "gates"; "roots_of_unity_polynomial";
      "permutation_grand_product"; "QUOT_expanded"; "QUOT_coefficients";
      "T1"; "T2"; "T3"; "zeta"; "a_eval"; "b_eval"; "c_eval"; "s1_eval";
      "s2_eval"; "z_shifted_eval"; "v"; "L0_eval"; "Z_H_eval";
      "T1_expanded"; "T2_expanded"; "T3_expanded"; "PI_eval"; "permutation";
      "T_argument"; "R_argument"; "R"; "R_commit"; "quarter_roots";
      "root_of_unity"; "W_Z_argument"; "W_z"; "W_z_1"; "W_zw_argument";
      "W_zw"; "W_zw_1"]%string.

(** X11: what prove leaves alone on the Prover. Whether prove returns a
    proof or fails, and wherever it fails, every attribute of the Prover
    other than the sixty-two that prove and its rounds assign is as it was
    before the call. *)
Theorem prove_assigns_only_its_attributes (h : Heap) name :
  name \notin prove_attributes ->
  attrs (self (prove h).2) name = attrs (self h) name.
Proof.
have frame : assigns_within prove_attributes prove.
  rewrite /prove /public_inputs /round_1 /round_2 /round_3 /round_4 /round_5.
  by cbv zeta; repeat assigns_step.
exact: frame.
Qed.

End ProveAssigns.

(* ===================================================================== *)
(* Attributes are assigned before they are read                           *)
(* ===================================================================== *)

(* The exceptions of reading self.name: the attribute is not there, or
   is not what the reader expects. *)
Definition attribute_error (e : exn) : bool :=
  match e with
  | AttributeError _ | TypeError => true
  | _ => false
  end.

Definition reads_ok {A : Type} (r : result A) : bool :=
  if r is Raise e then ~~ attribute_error e else true.

(* What kind of value an attribute holds. *)
Inductive kind : Type := KScalar | KPoly | KList | KPoint.

Section Kinds.

Variables (F : fieldType) (root_of_unity : nat -> F) (G1 Setup : Type).
Notation Prover := (Prover F G1 Setup).
Notation Heap := (Heap F G1 Setup).
Notation M := (M F G1 Setup).

Definition kind_of (v : value F G1) : kind :=
  match v with
  | VScalar _ => KScalar
  | VPoly _ => KPoly
  | VList _ => KList
  | VPoint _ => KPoint
  end.

Definition has_kind (kd : kind) (o : option (value F G1)) : bool :=
  match kd, o with
  | KScalar, Some (VScalar _) | KPoly, Some (VPoly _)
  | KList, Some (VList _) | KPoint, Some (VPoint _) => true
  | _, _ => false
  end.

(* The kinds of the attributes assigned so far, the latest first. *)
Definition kinds : Type := seq (string * kind).

Fixpoint kind_at (D : kinds) (name : string) : option kind :=
  if D is (k, kd) :: D' then
    if String.eqb name k then Some kd else kind_at D' name
  else None.

Definition kinded (D : kinds) (s : Prover) : Prop :=
  forall name,
    if kind_at D name is Some kd then has_kind kd (attrs s name) else true.

(* Run on a Prover whose attributes have the kinds D, m fails in no
   attribute read, and when it completes the attributes have the kinds
   D'. *)
Definition defined (D : kinds) {A : Type} (m : M A) (D' : kinds) : Prop :=
  forall h, kinded D (self h) ->
    match m h with
    | (Ok _, h') => kinded D' (self h')
    | (Raise e, _) => ~~ attribute_error e
    end.

Lemma reads_rbind A B (x : result A) (k : A -> result B) :
  reads_ok x -> (forall a, reads_ok (k a)) -> reads_ok (rbind x k).
Proof. by case: x => //= a _; apply. Qed.

Lemma reads_lift2 A B C (op : A -> B -> result C) x y :
  reads_ok x -> reads_ok y -> (forall a b, reads_ok (op a b)) ->
  reads_ok (lift2 op x y).
Proof. by rewrite /lift2; case: x => //= a _; case: y => //= b _; apply. Qed.

Lemma reads_attr_scalar (s : Prover) k :
  has_kind KScalar (attrs s k) -> reads_ok (attr_scalar s k).
Proof. by rewrite /attr_scalar; case: (attrs s k) => [[]|]. Qed.

Lemma reads_attr_poly (s : Prover) k :
  has_kind KPoly (attrs s k) -> reads_ok (attr_poly s k).
Proof. by rewrite /attr_poly; case: (attrs s k) => [[]|]. Qed.

Lemma reads_attr_list (s : Prover) k :
  has_kind KList (attrs s k) -> reads_ok (attr_list s k).
Proof. by rewrite /attr_list; case: (attrs s k) => [[]|]. Qed.

Lemma reads_attr_point (s : Prover) k :
  has_kind KPoint (attrs s k) -> reads_ok (attr_point s k).
Proof. by rewrite /attr_point; case: (attrs s k) => [[]|]. Qed.

Lemma reads_list_get A (x0 : A) l i : reads_ok (list_get x0 l i).
Proof. by rewrite /list_get; case: ifP. Qed.

Lemma reads_list_pop (l : seq F) : reads_ok (list_pop l).
Proof. by case: l. Qed.

Lemma reads_sdiv (x y : F) : reads_ok (sdiv x y).
Proof. by rewrite /sdiv; case: ifP. Qed.

Lemma reads_padd (p q : Polynomial F) : reads_ok (padd p q).
Proof. by rewrite /padd; case: ifP. Qed.

Lemma reads_psub (p q : Polynomial F) : reads_ok (psub p q).
Proof. by rewrite /psub; case: ifP. Qed.

Lemma reads_pmul (p q : Polynomial F) : reads_ok (pmul p q).
Proof. by rewrite /pmul; case: ifP. Qed.

Lemma reads_div_values (s t : seq F) : reads_ok (div_values s t).
Proof.
elim: s t => [|x s IH] [|y t] //=; rewrite /sdiv; case: ifP => //= _.
by have := IH t; case: (div_values s t).
Qed.

Lemma reads_pdiv (p q : Polynomial F) : reads_ok (pdiv p q).
Proof.
rewrite /pdiv; case: ifP => //= _.
by have := reads_div_values (values p) (values q); case: (div_values _ _).
Qed.

Lemma reads_padd_s (p : Polynomial F) x : reads_ok (padd_s p x).
Proof. exact: reads_padd. Qed.

Lemma reads_psub_s (p : Polynomial F) x : reads_ok (psub_s p x).
Proof. exact: reads_psub. Qed.

Lemma reads_pmul_s (p : Polynomial F) x : reads_ok (pmul_s p x).
Proof. by []. Qed.

Lemma reads_shift (p : Polynomial F) k : reads_ok (shift p k).
Proof. by rewrite /shift; case: ifP. Qed.

Lemma reads_fft (p : Polynomial F) : reads_ok (fft root_of_unity p).
Proof. by rewrite /fft; case: ifP. Qed.

Lemma reads_ifft (p : Polynomial F) : reads_ok (ifft root_of_unity p).
Proof. by rewrite /ifft /sdiv; case: ifP => //= _; case: ifP. Qed.

Lemma reads_to_coset (p : Polynomial F) x :
  reads_ok (to_coset_extended_lagrange root_of_unity p x).
Proof.
rewrite /to_coset_extended_lagrange; case: ifP => //= _.
have := reads_ifft p; case: (ifft _ _) => //= q _; exact: reads_fft.
Qed.

Lemma reads_coset_to_coeffs (p : Polynomial F) x :
  reads_ok (coset_extended_lagrange_to_coeffs root_of_unity p x).
Proof.
rewrite /coset_extended_lagrange_to_coeffs; case: ifP => //= _.
have := reads_ifft p; case: (ifft _ _) => //= q _.
by rewrite /sdiv; case: ifP.
Qed.

Lemma reads_barycentric_sum (vs rs : seq F) x :
  reads_ok (barycentric_sum vs rs x).
Proof.
elim: vs rs => [|v vs IH] [|r rs] //=; rewrite /sdiv; case: ifP => //= _.
by have := IH rs; case: (barycentric_sum vs rs x).
Qed.

Lemma reads_barycentric_eval (p : Polynomial F) x :
  reads_ok (barycentric_eval root_of_unity p x).
Proof.
rewrite /barycentric_eval; case: ifP => //= _.
case: ifP => _; first exact: reads_list_get.
rewrite /sdiv; case: ifP => //= _.
by have := reads_barycentric_sum (values p)
             (roots_of_unity root_of_unity (size (values p))) x;
  case: (barycentric_sum _ _ _).
Qed.

Lemma reads_public_values (w : witness) vars :
  reads_ok (public_values F w vars).
Proof.
elim: vars => [|v vars IH] //=.
rewrite /dict_lookup; case: (dict_get w v) => //= x.
by move: IH; case: (public_values F w vars).
Qed.

Lemma reads_assign_wires (w : witness) gs :
  forall i (ABC : seq F * seq F * seq F), reads_ok (assign_wires w i gs ABC).
Proof.
elim: gs => [|g gs IH] i [[A B] C] //=.
rewrite /dict_lookup /list_set.
case: (dict_get w (wire_L g)) => //= a; case: ifP => //= _.
case: (dict_get w (wire_R g)) => //= b; case: ifP => //= _.
case: (dict_get w (wire_O g)) => //= c; case: ifP => //= _.
Qed.

Lemma reads_vanishing_values (s : Prover) rs acc :
  has_kind KScalar (attrs s "fft_cofactor"%string) ->
  reads_ok (vanishing_values s rs acc).
Proof.
move=> Hk; rewrite vanishing_valuesE; case: rs => [|r rs] //.
by have := reads_attr_scalar Hk; case: (attr_scalar _ _).
Qed.

(* --- computations ---------------------------------------------------- *)

Lemma kinded_set D (s : Prover) k v :
  kinded D s -> kinded ((k, kind_of v) :: D) (set_attr s k v).
Proof.
move=> Hk name /=; rewrite /store_set.
by case: (String.eqb name k); [case: v | apply: Hk].
Qed.

Lemma defined_bind D D1 D2 A B (m : M A) (k : A -> M B) :
  defined D m D1 -> (forall a, defined D1 (k a) D2) ->
  defined D (bind m k) D2.
Proof.
move=> Hm Hk h /Hm; rewrite /bind.
by case: (m h) => [[a|e] h'] //; apply: Hk.
Qed.

Lemma defined_ret D A (a : A) : defined D (ret a : M A) D.
Proof. by move=> h. Qed.

Lemma defined_assert D site b : defined D (assert site b : M unit) D.
Proof. by move=> h Hk /=; case: b. Qed.

Lemma defined_get_witness D : defined D (get_witness : M witness) D.
Proof. by move=> h. Qed.

Lemma defined_set_witness D w : defined D (set_witness w : M unit) D.
Proof. by move=> h. Qed.

Lemma defined_setattr D k v :
  defined D (setattr k v : M unit) ((k, kind_of v) :: D).
Proof. by move=> h Hk; apply: kinded_set. Qed.

Lemma defined_setattr_scalar D k (x : F) :
  defined D (setattr k (VScalar x) : M unit) ((k, KScalar) :: D).
Proof. by move=> h Hk; apply: (kinded_set k (VScalar x) Hk). Qed.

Lemma defined_setattr_poly D k (p : Polynomial F) :
  defined D (setattr k (VPoly p) : M unit) ((k, KPoly) :: D).
Proof. by move=> h Hk; apply: (kinded_set k (VPoly p) Hk). Qed.

Lemma defined_setattr_list D k (l : seq F) :
  defined D (setattr k (VList l) : M unit) ((k, KList) :: D).
Proof. by move=> h Hk; apply: (kinded_set k (VList l) Hk). Qed.

Lemma defined_setattr_point D k (g : G1) :
  defined D (setattr k (VPoint g) : M unit) ((k, KPoint) :: D).
Proof. by move=> h Hk; apply: (kinded_set k (VPoint g) Hk). Qed.

Lemma defined_with_self D A (f : Prover -> result A) :
  (forall s, kinded D s -> reads_ok (f s)) -> defined D (with_self f) D.
Proof.
move=> Hf h Hk; rewrite /with_self.
by have := Hf _ Hk; case: (f (self h)).
Qed.

End Kinds.

Ltac kind_lookup :=
  first
    [ eassumption
    | lazymatch goal with
      | Hk : kinded _ _ |- is_true (has_kind _ (attrs _ ?k)) => exact (Hk k)
      end ].

Ltac reads_expr :=
  cbv beta;
  lazymatch goal with
  | |- is_true (reads_ok (rbind _ _)) =>
      eapply reads_rbind; [ reads_expr | intros ?; reads_expr ]
  | |- is_true (reads_ok (lift2 _ _ _)) =>
      eapply reads_lift2; [ reads_expr | reads_expr | intros ? ?; reads_expr ]
  | |- is_true (reads_ok (attr_scalar _ _)) =>
      eapply reads_attr_scalar; kind_lookup
  | |- is_true (reads_ok (attr_poly _ _)) =>
      eapply reads_attr_poly; kind_lookup
  | |- is_true (reads_ok (attr_list _ _)) =>
      eapply reads_attr_list; kind_lookup
  | |- is_true (reads_ok (attr_point _ _)) =>
      eapply reads_attr_point; kind_lookup
  | |- is_true (reads_ok (list_get _ _ _)) => eapply reads_list_get
  | |- is_true (reads_ok (list_pop _)) => eapply reads_list_pop
  | |- is_true (reads_ok (sdiv _ _)) => eapply reads_sdiv
  | |- is_true (reads_ok (padd _ _)) => eapply reads_padd
  | |- is_true (reads_ok (psub _ _)) => eapply reads_psub
  | |- is_true (reads_ok (pmul _ _)) => eapply reads_pmul
  | |- is_true (reads_ok (pdiv _ _)) => eapply reads_pdiv
  | |- is_true (reads_ok (padd_s _ _)) => eapply reads_padd_s
  | |- is_true (reads_ok (psub_s _ _)) => eapply reads_psub_s
  | |- is_true (reads_ok (pmul_s _ _)) => eapply reads_pmul_s
  | |- is_true (reads_ok (shift _ _)) => eapply reads_shift
  | |- is_true (reads_ok (fft _ _)) => eapply reads_fft
  | |- is_true (reads_ok (to_coset_extended_lagrange _ _ _)) =>
      eapply reads_to_coset
  | |- is_true (reads_ok (coset_extended_lagrange_to_coeffs _ _ _)) =>
      eapply reads_coset_to_coeffs
  | |- is_true (reads_ok (barycentric_eval _ _ _)) =>
      eapply reads_barycentric_eval
  | |- is_true (reads_ok (public_values _ _ _)) => eapply reads_public_values
  | |- is_true (reads_ok (assign_wires _ _ _ _)) => eapply reads_assign_wires
  | |- is_true (reads_ok (vanishing_values _ _ _)) =>
      eapply reads_vanishing_values; kind_lookup
  | |- is_true (reads_ok (Ok _)) => reflexivity
  end.

Section KindsRoundTwo.

Variables (F : fieldType) (root_of_unity : nat -> F) (G1 Setup : Type).
Variable commit : Setup -> Polynomial F -> G1.
Notation Prover := (Prover F G1 Setup).

Section Loops.

Variable s : Prover.
Hypothesis kA : has_kind KPoly (attrs s "A"%string).
Hypothesis kB : has_kind KPoly (attrs s "B"%string).
Hypothesis kC : has_kind KPoly (attrs s "C"%string).
Hypothesis kbeta : has_kind KScalar (attrs s "beta"%string).
Hypothesis kgamma : has_kind KScalar (attrs s "gamma"%string).

Lemma reads_accumulate roots steps : forall Zs,
  reads_ok (accumulate s roots steps Zs).
Proof.
elim: steps => [|[idx i] steps IH] Zs //=.
have : reads_ok
         (lift2 (fun a b : F => Ok (a * b)) (list_get 0 Zs (idx - 1))
            (lift2 (@sdiv F) (perm_numerator s roots i)
               (perm_denominator s i))).
  by unfold_expr; reads_expr.
by case: (lift2 _ _ _) => //= z _.
Qed.

Lemma reads_check_accumulator roots idxs Zs :
  reads_ok (check_accumulator s roots idxs Zs).
Proof.
elim: idxs => [|i idxs IH] //=.
have : reads_ok
         (lift2 (fun a b : F => Ok (a - b))
            (lift2 (fun a b : F => Ok (a * b)) (perm_numerator s roots i)
               (list_get 0 Zs i))
            (lift2 (fun a b : F => Ok (a * b)) (perm_denominator s i)
               (list_get 0 Zs ((i + 1) %% group_order s)))).
  by unfold_expr; reads_expr.
by case: (lift2 _ _ _) => //= d _; case: ifP.
Qed.

End Loops.

Lemma defined_round_2 D :
  kind_at D "A"%string = Some KPoly -> kind_at D "B"%string = Some KPoly ->
  kind_at D "C"%string = Some KPoly -> kind_at D "beta"%string = Some KScalar ->
  kind_at D "gamma"%string = Some KScalar ->
  defined D (round_2 root_of_unity commit) (("Z"%string, KPoly) :: D).
Proof.
move=> kA kB kC kb kg; rewrite /round_2.
eapply defined_bind.
  eapply defined_with_self => s Hk.
  have := Hk "A"%string; rewrite kA => hA.
  have := Hk "B"%string; rewrite kB => hB.
  have := Hk "C"%string; rewrite kC => hC.
  have := Hk "beta"%string; rewrite kb => hb.
  have := Hk "gamma"%string; rewrite kg => hg.
  have := reads_accumulate hA hB hC hb hg
            (roots_of_unity root_of_unity (group_order s))
            (zip (iota 1 (group_order s)) (iota 0 (group_order s)))
            [:: Scalar F 1].
  case: (accumulate _ _ _ _) => //= Zs _.
  have := reads_list_pop Zs; case: (list_pop Zs) => [[z Zs']|e] //= _.
  case: ifP => //= _.
  have := reads_check_accumulator hA hB hC hb hg
            (roots_of_unity root_of_unity (group_order s))
            (iota 0 (group_order s)) Zs'.
  by case: (check_accumulator _ _ _ _).
move=> Zs; eapply defined_bind; first exact: defined_setattr_poly.
move=> _; eapply defined_bind; last by move=> a; eapply defined_ret.
eapply defined_with_self => s Hk.
by unfold_expr; reads_expr.
Qed.

End KindsRoundTwo.

Ltac defined_step :=
  lazymatch goal with
  | |- forall a, defined _ _ _ => intro
  | |- defined _ (bind _ _) _ => eapply defined_bind
  | |- defined _ (ret _) _ => eapply defined_ret
  | |- defined _ (with_self _) _ =>
      eapply defined_with_self;
      let s := fresh "s" in let Hk := fresh "Hk" in
      intros s Hk; unfold_expr; reads_expr
  | |- defined _ (round_2 _ _) _ => eapply defined_round_2; reflexivity
  | |- defined _ (setattr _ (VScalar _)) _ => eapply defined_setattr_scalar
  | |- defined _ (setattr _ (VPoly _)) _ => eapply defined_setattr_poly
  | |- defined _ (setattr _ (VList _)) _ => eapply defined_setattr_list
  | |- defined _ (setattr _ (VPoint _)) _ => eapply defined_setattr_point
  | |- defined _ (assert _ _) _ => eapply defined_assert
  | |- defined _ get_witness _ => eapply defined_get_witness
  | |- defined _ (set_witness _) _ => eapply defined_set_witness
  | |- defined _ (let (_, _) := ?e in _) _ => destruct e
  | |- defined _ (if ?b then _ else _) _ => destruct b
  end.

Section ProveReads.

Variables (F : fieldType) (root_of_unity : nat -> F) (G1 Setup : Type).
Variable commit : Setup -> Polynomial F -> G1.
Variable Transcript : Type.
Variable Transcript_init : string -> Transcript.
Variable transcript_round_1 : Transcript -> Message1 G1 -> (F * F) * Transcript.
Variable transcript_round_2 : Transcript -> Message2 G1 -> (F * F) * Transcript.
Variable transcript_round_3 : Transcript -> Message3 G1 -> F * Transcript.
Variable transcript_round_4 : Transcript -> Message4 F -> F * Transcript.

Notation Heap := (Heap F G1 Setup).
Notation prove := (prove root_of_unity commit Transcript_init
                     transcript_round_1 transcript_round_2
                     transcript_round_3 transcript_round_4).

Lemma defined_prove :
  exists2 D', defined [::] prove D'
  & all (fun name => isSome (kind_at D' name)) prove_attributes.
Proof.
eexists.
  rewrite /prove /public_inputs /round_1 /round_3 /round_4 /round_5.
  by cbv zeta; repeat defined_step.
by [].
Qed.

(** X12: prove reads no attribute that it has not assigned. On any
    Prover, new or left by earlier calls, with attributes of any kind
    under any name, prove never fails in reading an attribute: whatever a
    round reads has been assigned, by prove or by a round, earlier in the
    same call, with a value of the kind the reader expects. When prove
    returns a proof, each of its sixty-two attributes is set. *)
Theorem prove_reads_only_what_it_has_assigned (h : Heap) :
  [/\ forall e, (prove h).1 = Raise e -> ~~ attribute_error e
    & forall pf hf, prove h = (Ok pf, hf) ->
      forall name, name \in prove_attributes ->
        isSome (attrs (self hf) name)].
Proof.
have [D' run sets] := defined_prove.
have start : kinded [::] (self h) by [].
split=> [e E|pf hf E name /(allP sets)].
  by have := run h start; case: (prove h) E => [[pf|e'] hf] //= [->].
have := run h start; rewrite E => /(_ name).
by case: (kind_at D' name) => // kd; case: kd; case: (attrs _ _) => [[]|].
Qed.

End ProveReads.

Section Rlc.

Variables (F : fieldType) (G1 Setup : Type).
Notation Prover := (Prover F G1 Setup).

(** X13: rlc on polynomials is rlc on their values. With beta and gamma
    assigned, rlc of two scalars is x + y * beta + gamma, rlc of two
    LAGRANGE polynomials of one size is the LAGRANGE polynomial whose
    value at each position is the rlc of the two values there, and rlc of
    two LAGRANGE polynomials of different sizes is rejected by the
    addition. *)
Theorem rlc_of_polynomials_is_pointwise (s : Prover) (beta gamma : F) :
  attr_scalar s "beta" = Ok beta -> attr_scalar s "gamma" = Ok gamma ->
  [/\ forall x y : F, rlc s (Ok x) (Ok y) = Ok (x + y * beta + gamma),
      forall n f g,
        rlc_poly s (Ok (tab n f)) (Ok (tab n g))
        = Ok (tab n (fun i => f i + g i * beta + gamma))
    & forall n m f g, n != m ->
        rlc_poly s (Ok (tab n f)) (Ok (tab m g)) = Raise BasisError].
Proof.
move=> Eb Eg; split=> [x y|n f g|n m f g ne].
- by rewrite /rlc /lift2 /= Eb Eg.
- rewrite /rlc_poly /lift2 /= Eb Eg /= -map_comp.
  rewrite -[MkPolynomial _ _]/(tab n (fun i => g i * beta)).
  by rewrite padd_tab /= padd_s_tab.
rewrite /rlc_poly /lift2 /= Eb Eg /= -map_comp.
rewrite -[MkPolynomial _ _]/(tab m (fun i => g i * beta)).
by rewrite /padd /same_shape !size_tab (negPf ne) andbF.
Qed.

End Rlc.

Section FailedProve.

Variables (F : fieldType) (root_of_unity : nat -> F) (G1 Setup : Type).
Variable commit : Setup -> Polynomial F -> G1.
Variable Transcript : Type.
Variable Transcript_init : string -> Transcript.
Variable transcript_round_1 : Transcript -> Message1 G1 -> (F * F) * Transcript.
Variable transcript_round_2 : Transcript -> Message2 G1 -> (F * F) * Transcript.
Variable transcript_round_3 : Transcript -> Message3 G1 -> F * Transcript.
Variable transcript_round_4 : Transcript -> Message4 F -> F * Transcript.

Notation Prover := (Prover F G1 Setup).
Notation Heap := (Heap F G1 Setup).
Notation prove := (prove root_of_unity commit Transcript_init
                     transcript_round_1 transcript_round_2
                     transcript_round_3 transcript_round_4).

(** X14: a call of prove that fails the gate check is not undone. With
    the selectors in LAGRANGE(n), at most n gates and n public inputs and
    a witness that has every wire and public variable but violates a gate,
    prove raises the assertion of round_1 and leaves behind what it has
    done so far: the witness has its None entry, PI, A, B and C are
    assigned, and every other attribute, beta and gamma among them, is as
    it was before the call. *)
Theorem failed_gate_check_leaves_its_state (h : Heap) :
  let s := self h in
  let n := group_order s in
  let gs := wires (program s) in
  let public_vars := get_public_assignments (program s) in
  let w' := normalize (wit h) in
  let hf := (prove h).2 in
  (size gs <= n)%N -> (size public_vars <= n)%N ->
  covers w' gs -> all (dict_mem^~ (wit h)) public_vars ->
  selectors_in_lagrange s ->
  ~~ all (fun i => gate_value s (wit h) i == 0) (iota 0 n) ->
  [/\ (prove h).1 = Raise (AssertionError GateCheck),
      wit hf = w',
      [/\ attrs (self hf) "PI"%string
          = Some (VPoly (tab n (public_at F (wit h) public_vars))),
          attrs (self hf) "A"%string
          = Some (VPoly (tab n (wire_at F wire_L w' gs))),
          attrs (self hf) "B"%string
          = Some (VPoly (tab n (wire_at F wire_R w' gs)))
        & attrs (self hf) "C"%string
          = Some (VPoly (tab n (wire_at F wire_O w' gs)))]
    & forall k, k \notin [:: "PI"; "A"; "B"; "C"]%string ->
        attrs (self hf) k = attrs s k].
Proof.
move=> s n gs public_vars w' hf le_gs le_pubs cov covp sel bad.
have fails := first_round_run commit le_gs le_pubs cov covp sel.
rewrite (negPf bad) in fails.
have -> : (prove h).1 = Raise (AssertionError GateCheck).
  exact: prove_first_round_raise fails.
have Ehf : hf = (first_round commit h).2.
  rewrite /hf prove_rounds /run_rounds.
  by case: (first_round commit h) fails => [[m|e] h1].
rewrite Ehf /first_round /bind public_inputs_run public_values_ok //.
rewrite public_tab // round_1_run /= assign_wires_zeros //=.
split=> // k; rewrite !inE !negb_or /store_set.
by do 4![case: (String.eqb_spec k _) => [->|_]; rewrite ?eqxx ?andbF //].
Qed.

End FailedProve.

(* ===================================================================== *)
(* How prove fails                                                        *)
(* ===================================================================== *)

(* The failures prove has on a well-formed input: one of its assertions,
   other than the one inside the second loop of round_2, or a division by
   zero. *)
Definition expected_failure (e : exn) : bool :=
  match e with
  | AssertionError GrandProductStep => false
  | AssertionError _ | ZeroDivisionError => true
  | _ => false
  end.

(* What no expression of the rounds raises by itself: the failure of a
   lookup, witness[k] or l[i], and the failure of an assert statement. *)
Definition stray (e : exn) : bool :=
  match e with
  | KeyError _ | IndexError | AssertionError _ => true
  | _ => false
  end.

Definition quiet {A : Type} (r : result A) : bool :=
  if r is Raise e then ~~ stray e else true.

(* What no statement of prove raises on a well-formed input: the failure
   of a lookup, and the assertion inside the second loop of round_2. *)
Definition misplaced (e : exn) : bool :=
  match e with
  | KeyError _ | IndexError | AssertionError GrandProductStep => true
  | _ => false
  end.

Definition tame {A : Type} (r : result A) : bool :=
  if r is Raise e then ~~ misplaced e else true.

Lemma quiet_tame A (r : result A) : quiet r -> tame r.
Proof. by case: r => [a|[k| |k| |site| |]]. Qed.

Lemma expected_failureE (e : exn) :
  expected_failure e
  = [&& ~~ basis_error e, ~~ attribute_error e & ~~ misplaced e].
Proof. by case: e => [k| |k| |[]| |]. Qed.

Section Quiet.

Variables (F : fieldType) (root_of_unity : nat -> F) (G1 Setup : Type).
Notation Prover := (Prover F G1 Setup).
Notation Heap := (Heap F G1 Setup).
Notation M := (M F G1 Setup).

Variable n : nat.

(* --- expressions ---------------------------------------------------- *)

Lemma quiet_rbind A B (x : result A) (k : A -> result B) :
  quiet x -> (forall a, quiet (k a)) -> quiet (rbind x k).
Proof. by case: x => [a|e] //= _ /(_ a). Qed.

Lemma quiet_lift2 A B C (op : A -> B -> result C) x y :
  quiet x -> quiet y -> (forall a b, quiet (op a b)) ->
  quiet (lift2 op x y).
Proof. by case: x => [a|e] //= _; case: y => [b|e] //= _ /(_ a b). Qed.

Lemma quiet_attr_scalar (s : Prover) k : quiet (attr_scalar s k).
Proof. by rewrite /attr_scalar; case: (attrs s k) => [[]|]. Qed.

Lemma quiet_attr_poly (s : Prover) k : quiet (attr_poly s k).
Proof. by rewrite /attr_poly; case: (attrs s k) => [[]|]. Qed.

Lemma quiet_attr_list (s : Prover) k : quiet (attr_list s k).
Proof. by rewrite /attr_list; case: (attrs s k) => [[]|]. Qed.

Lemma quiet_attr_point (s : Prover) k : quiet (attr_point s k).
Proof. by rewrite /attr_point; case: (attrs s k) => [[]|]. Qed.

Lemma quiet_sdiv (x y : F) : quiet (sdiv x y).
Proof. by rewrite /sdiv; case: ifP. Qed.

Lemma quiet_padd (p q : Polynomial F) : quiet (padd p q).
Proof. by rewrite /padd; case: ifP. Qed.

Lemma quiet_psub (p q : Polynomial F) : quiet (psub p q).
Proof. by rewrite /psub; case: ifP. Qed.

Lemma quiet_pmul (p q : Polynomial F) : quiet (pmul p q).
Proof. by rewrite /pmul; case: ifP. Qed.

Lemma quiet_div_values (s t : seq F) : quiet (div_values s t).
Proof.
elim: s t => [|x s IH] [|y t] //=; rewrite /sdiv; case: ifP => //= _.
by have := IH t; case: (div_values s t).
Qed.

Lemma quiet_pdiv (p q : Polynomial F) : quiet (pdiv p q).
Proof.
rewrite /pdiv; case: ifP => // _.
by have := quiet_div_values (values p) (values q); case: (div_values _ _).
Qed.

Lemma quiet_padd_s (p : Polynomial F) x : quiet (padd_s p x).
Proof. exact: quiet_padd. Qed.

Lemma quiet_psub_s (p : Polynomial F) x : quiet (psub_s p x).
Proof. exact: quiet_psub. Qed.

Lemma quiet_pmul_s (p : Polynomial F) x : quiet (pmul_s p x).
Proof. by []. Qed.

Lemma quiet_shift (p : Polynomial F) k : quiet (shift p k).
Proof. by rewrite /shift; case: ifP. Qed.

Lemma quiet_fft (p : Polynomial F) : quiet (fft root_of_unity p).
Proof. by rewrite /fft; case: ifP. Qed.

Lemma quiet_ifft (p : Polynomial F) : quiet (ifft root_of_unity p).
Proof. by rewrite /ifft; case: ifP => // _; rewrite /sdiv; case: ifP. Qed.

Lemma quiet_to_coset (p : Polynomial F) x :
  quiet (to_coset_extended_lagrange root_of_unity p x).
Proof.
rewrite /to_coset_extended_lagrange; case: ifP => // _.
by apply: quiet_rbind => [|a]; [apply: quiet_ifft | apply: quiet_fft].
Qed.

Lemma quiet_coset_to_coeffs (p : Polynomial F) x :
  quiet (coset_extended_lagrange_to_coeffs root_of_unity p x).
Proof.
rewrite /coset_extended_lagrange_to_coeffs; case: ifP => // _.
apply: quiet_rbind => [|a]; first exact: quiet_ifft.
by rewrite /sdiv; case: ifP.
Qed.

Lemma quiet_barycentric_sum (vs rs : seq F) x :
  quiet (barycentric_sum vs rs x).
Proof.
elim: vs rs => [|v vs IH] [|r rs] //=; rewrite /sdiv; case: ifP => //= _.
by have := IH rs; case: (barycentric_sum vs rs x).
Qed.

(* The fallback of barycentric_eval looks the point up among as many roots
   as the polynomial has values: the index it finds is in range. *)
Lemma quiet_barycentric_eval (p : Polynomial F) x :
  quiet (barycentric_eval root_of_unity p x).
Proof.
rewrite /barycentric_eval; case: ifP => // _.
have sz : size (roots_of_unity root_of_unity (size (values p)))
          = size (values p).
  by rewrite /roots_of_unity size_map size_iota.
case: ifP => [|_]; first by rewrite -index_mem sz /list_get => ->.
rewrite /sdiv; case: ifP => //= _.
by have := quiet_barycentric_sum (values p)
             (roots_of_unity root_of_unity (size (values p))) x;
  case: (barycentric_sum _ _ _).
Qed.

Lemma quiet_vanishing_values (s : Prover) rs : forall acc,
  quiet (vanishing_values s rs acc).
Proof.
elim: rs => [|r rs IH] acc //=.
by rewrite /attr_scalar; case: (attrs s _) => [[x|p|l|g]|] //=.
Qed.

(* p.values[0] of an attribute known to hold c * n values *)
Lemma quiet_value_at_0 (s : Prover) k b c :
  has_shape n (PolyOf b c) (attrs s k) -> (0 < c * n)%N ->
  quiet (value_at (attr_poly s k) 0).
Proof.
case=> p E [_ sz] pos; rewrite /value_at /attr_poly E /= /list_get.
by rewrite sz pos.
Qed.

(* --- statements ------------------------------------------------------ *)

(* Run from a heap of context D, m raises neither BasisError nor a
   misplaced failure, and when it completes its value satisfies P and the
   heap it leaves has context D'. *)
Definition calm (D : ctx) {A : Type} (m : M A) (P : A -> Prop) (D' : ctx)
    : Prop :=
  safe n D m P D' /\ forall h, typed n D h -> tame (m h).1.

Lemma calm_bind D D1 D2 A B (m : M A) (k : A -> M B) (Q : A -> Prop)
    (P : B -> Prop) :
  calm D m Q D1 -> (forall a, Q a -> calm D1 (k a) P D2) ->
  calm D (bind m k) P D2.
Proof.
move=> [sm qm] Hk; split.
  by apply: (safe_bind sm) => a /Hk[].
move=> h ty; have := sm h ty; have := qm h ty; rewrite /bind.
case: (m h) => [[a|e] h'] //= _ [Qa ty'].
by have [_ /(_ h' ty')] := Hk a Qa.
Qed.

Lemma calm_plain D D' A (m : M A) (P : A -> Prop) :
  safe n D m P D' -> (forall h, tame (m h).1) -> calm D m P D'.
Proof. by move=> sm qm; split=> // h _. Qed.

Lemma calm_with_self D A (f : Prover -> result A) (P : A -> Prop) :
  (forall s, wf n s -> typed_attrs n D s -> good P (f s)) ->
  (forall s, wf n s -> typed_attrs n D s -> quiet (f s)) ->
  calm D (with_self f) P D.
Proof.
move=> Hg Hq; split; first exact: safe_with_self.
by move=> h [wfs ty]; apply/quiet_tame/Hq.
Qed.

Lemma tame_ret A (a : A) (h : Heap) : tame (ret a h).1.
Proof. by []. Qed.

Lemma tame_setattr k v (h : Heap) : tame (setattr k v h).1.
Proof. by []. Qed.

Lemma tame_assert site b (h : Heap) :
  ~~ misplaced (AssertionError site) -> tame (assert site b h).1.
Proof. by rewrite /assert /=; case: b. Qed.

Lemma typed_set_scalar D (h : Heap) k x :
  typed n D h -> typed n ((k, Other) :: D) (set_scalar h k x).
Proof. by move=> ty; have [] := safe_setattr_other k (VScalar x) ty. Qed.

End Quiet.

Ltac quiet_expr :=
  cbv beta;
  lazymatch goal with
  | |- is_true (quiet (value_at (attr_poly _ _) 0)) =>
      eapply quiet_value_at_0; [ typed_lookup | by rewrite muln_gt0 ]
  | |- is_true (quiet (rbind _ _)) =>
      eapply quiet_rbind; [ quiet_expr | intros ?; quiet_expr ]
  | |- is_true (quiet (lift2 _ _ _)) =>
      eapply quiet_lift2; [ quiet_expr | quiet_expr | intros ? ?; quiet_expr ]
  | |- is_true (quiet (attr_scalar _ _)) => eapply quiet_attr_scalar
  | |- is_true (quiet (attr_point _ _)) => eapply quiet_attr_point
  | |- is_true (quiet (attr_poly _ _)) => eapply quiet_attr_poly
  | |- is_true (quiet (attr_list _ _)) => eapply quiet_attr_list
  | |- is_true (quiet (sdiv _ _)) => eapply quiet_sdiv
  | |- is_true (quiet (padd _ _)) => eapply quiet_padd
  | |- is_true (quiet (psub _ _)) => eapply quiet_psub
  | |- is_true (quiet (pmul _ _)) => eapply quiet_pmul
  | |- is_true (quiet (pdiv _ _)) => eapply quiet_pdiv
  | |- is_true (quiet (padd_s _ _)) => eapply quiet_padd_s
  | |- is_true (quiet (psub_s _ _)) => eapply quiet_psub_s
  | |- is_true (quiet (pmul_s _ _)) => eapply quiet_pmul_s
  | |- is_true (quiet (shift _ _)) => eapply quiet_shift
  | |- is_true (quiet (fft _ _)) => eapply quiet_fft
  | |- is_true (quiet (to_coset_extended_lagrange _ _ _)) =>
      eapply quiet_to_coset
  | |- is_true (quiet (coset_extended_lagrange_to_coeffs _ _ _)) =>
      eapply quiet_coset_to_coeffs
  | |- is_true (quiet (barycentric_eval _ _ _)) =>
      eapply quiet_barycentric_eval
  | |- is_true (quiet (vanishing_values _ _ _)) =>
      eapply quiet_vanishing_values
  | |- is_true (quiet (Ok _)) => reflexivity
  end.

Ltac quiet_unfold :=
  unfold quotient_gates, quotient_permutation, quotient_part,
    quotient_split_holds, eval_at_zeta, linearized_gates,
    linearized_permutation, linearization, opening_at_zeta,
    opening_at_zeta_omega, rlc_poly, rlc, fft_expand,
    expanded_evals_to_coeffs;
  cbv beta zeta.

Ltac quiet_self :=
  let s := fresh "s" in let Hty := fresh "Hty" in
  let n_gt0 := fresh "n_gt0" in
  intros s [n_gt0 _ _ _] Hty; quiet_unfold; quiet_expr.

Ltac calm_step :=
  lazymatch goal with
  | |- forall a, _ -> calm _ _ _ _ _ => good_intro
  | |- calm _ _ (bind _ _) _ _ => eapply calm_bind
  | |- calm _ _ (with_self _) _ _ =>
      eapply calm_with_self; [ safe_expr | quiet_self ]
  | |- calm _ _ (ret _) _ _ =>
      eapply calm_plain; [ eapply safe_ret | eapply tame_ret ]
  | |- calm _ _ (setattr _ _) _ _ =>
      eapply calm_plain; [ safe_step | eapply tame_setattr ]
  | |- calm _ _ (assert _ _) _ _ =>
      eapply calm_plain;
      [ eapply safe_assert | intros ?; eapply tame_assert; reflexivity ]
  | |- calm _ _ (let (_, _) := ?e in _) _ _ => destruct e
  | |- calm _ _ (if ?b then _ else _) _ _ => destruct b
  end.

Section Failures.

Variables (F : fieldType) (root_of_unity : nat -> F) (G1 Setup : Type).
Variable commit : Setup -> Polynomial F -> G1.
Variable Transcript : Type.
Variable Transcript_init : string -> Transcript.
Variable transcript_round_1 : Transcript -> Message1 G1 -> (F * F) * Transcript.
Variable transcript_round_2 : Transcript -> Message2 G1 -> (F * F) * Transcript.
Variable transcript_round_3 : Transcript -> Message3 G1 -> F * Transcript.
Variable transcript_round_4 : Transcript -> Message4 F -> F * Transcript.

Notation Prover := (Prover F G1 Setup).
Notation Heap := (Heap F G1 Setup).
Notation prove := (prove root_of_unity commit Transcript_init
                     transcript_round_1 transcript_round_2
                     transcript_round_3 transcript_round_4).

(* The context round_3 starts from, D being the one round_1 leaves: the
   challenges of rounds 1 and 2 and the accumulator polynomial. *)
Definition before_round_3 (D : ctx) : ctx :=
  [:: ("fft_cofactor"%string, Other), ("alpha"%string, Other),
      ("Z"%string, PolyOf LAGRANGE 1), ("gamma"%string, Other),
      ("beta"%string, Other)
    & D].

Lemma calm_rounds (n : nat) :
  exists D1 D3 D4 D5,
    [/\ safe n [::] (first_round commit) (fun _ => True) D1,
        calm n (before_round_3 D1) (round_3 root_of_unity commit)
          (fun _ => True) D3,
        calm n (("zeta"%string, Other) :: D3)
          (@round_4 F root_of_unity G1 Setup) (fun _ => True) D4
      & calm n (("v"%string, Other) :: D4) (round_5 root_of_unity commit)
          (fun _ => True) D5].
Proof.
do 4 eexists; split.
- rewrite /first_round /public_inputs /round_1; cbv zeta.
  by repeat safe_step.
- by rewrite /round_3 /before_round_3; repeat calm_step.
- by rewrite /round_4; repeat calm_step.
- by rewrite /round_5; repeat calm_step.
Qed.


End Failures.

(* ===================================================================== *)
(* The repeated degree checks of round_5                                  *)
(* ===================================================================== *)

Section Rechecks.

Variables (F : fieldType) (G1 Setup : Type).
Notation Prover := (Prover F G1 Setup).
Notation Heap := (Heap F G1 Setup).
Notation M := (M F G1 Setup).

(* The group order, the assert statements looked at, the attribute
   assigned between them, and the heap the round starts from. *)
Variable n : nat.
Variable at_site : assert_site -> bool.
Variable name : string.
Variable h0 : Heap.

Definition raised_at (e : exn) : bool :=
  if e is AssertionError site then at_site site else false.

Definition untouched (h : Heap) : Prop :=
  attrs (self h) name = attrs (self h0) name.

(* m is run with the attribute untouched so far (b) or already assigned
   (~~ b): one of the asserts looked at fails only while the attribute is
   untouched, and leaves it so. When m completes, its value satisfies P
   and b' tells whether the attribute is still untouched. *)
Definition once (b : bool) {A : Type} (m : M A) (P : A -> Prop) (b' : bool)
    : Prop :=
  forall h, group_order (self h) = n -> (b -> untouched h) ->
    match m h with
    | (Ok a, h') =>
        [/\ P a, group_order (self h') = n & b' -> b /\ untouched h']
    | (Raise e, h') => raised_at e -> b /\ untouched h'
    end.

Lemma once_bind b b1 b2 A B (m : M A) (k : A -> M B) (Q : A -> Prop)
    (P : B -> Prop) :
  once b m Q b1 -> (forall a, Q a -> once b1 (k a) P b2) ->
  once b (bind m k) P b2.
Proof.
move=> Hm Hk h Hn unt; have := Hm h Hn unt; rewrite /bind.
case: (m h) => [[a|e] h'] // [Qa Hn' unt'].
have unt1 : b1 -> untouched h' by case/unt'.
have := Hk a Qa h' Hn' unt1.
case: (k a h') => [[c|e] h''] => [[Pc Hn'' unt'']|fails at_e].
  by split=> // /unt''[/unt'[]].
by have [/unt'[]] := fails at_e.
Qed.

Lemma once_ret b A (a : A) : once b (ret a : M A) (fun _ => True) b.
Proof. by move=> h Hn unt; split=> // Hb; split=> //; apply: unt. Qed.

Lemma once_with_self b A (f : Prover -> result A) :
  (forall s, quiet (f s)) -> once b (with_self f) (fun _ => True) b.
Proof.
move=> Hq h Hn unt; rewrite /with_self; have := Hq (self h).
case: (f (self h)) => [a|[]] //= _.
by split=> // Hb; split=> //; apply: unt.
Qed.

(* The value of an expression that cannot fail, as a function of a self
   of group order n. *)
Lemma once_with_self_value b A (g : Prover -> A) :
  once b (with_self (fun s => Ok (g s)))
    (fun a => exists2 s, group_order s = n & a = g s) b.
Proof.
move=> h Hn unt; split=> //; first by exists (self h).
by move=> Hb; split=> //; apply: unt.
Qed.

Lemma once_setattr_other b k v :
  String.eqb name k = false ->
  once b (setattr k v : M unit) (fun _ => True) b.
Proof.
move=> ne h Hn unt; split=> // Hb; split=> //.
by rewrite /untouched /= /store_set ne; apply: unt.
Qed.

Lemma once_setattr_name b v :
  once b (setattr name v : M unit) (fun _ => True) false.
Proof. by move=> h Hn unt. Qed.

Lemma once_assert_other b site c :
  at_site site = false -> once b (assert site c : M unit) (fun _ => True) b.
Proof.
move=> ne h Hn unt; rewrite /assert; case: c => /=; last by rewrite ne.
by split=> // Hb; split=> //; apply: unt.
Qed.

Lemma once_assert_site b site (c : bool) :
  (~~ b -> c) -> once b (assert site c : M unit) (fun _ => c) b.
Proof.
move=> Hc h Hn unt; rewrite /assert; case: c Hc => /= Hc.
  by split=> // Hb; split=> //; apply: unt.
by move=> _; case: b Hc unt => [_ /(_ isT)|/(_ isT)].
Qed.

End Rechecks.

Ltac once_intro :=
  let a := fresh "a" in let Ha := fresh "Ha" in
  intros a Ha; cbv beta in Ha;
  lazymatch type of Ha with
  | ex2 _ _ =>
      let s := fresh "s" in let Hs := fresh "Hs" in
      destruct Ha as [s Hs ->]; rewrite ?Hs; clear s Hs
  | _ => idtac
  end.

Ltac once_step :=
  lazymatch goal with
  | |- forall a, _ -> once _ _ _ _ _ _ _ _ => once_intro
  | |- once _ _ _ _ _ (bind _ _) _ _ => eapply once_bind
  | |- once _ _ _ _ _ (ret _) _ _ => eapply once_ret
  | |- once _ _ _ _ _ (with_self (fun s => Ok _)) _ _ =>
      eapply once_with_self_value
  | |- once _ _ _ _ _ (with_self _) _ _ =>
      eapply once_with_self; intros ?; quiet_unfold; quiet_expr
  | |- once _ _ _ _ _ (setattr _ _) _ _ =>
      first [ eapply once_setattr_other; reflexivity
            | eapply once_setattr_name ]
  | |- once _ _ _ _ _ (assert _ _) _ _ =>
      first [ eapply once_assert_other; reflexivity
            | eapply once_assert_site;
              first [ intros; assumption | discriminate ] ]
  end.

Section RoundFiveRechecks.

Variables (F : fieldType) (root_of_unity : nat -> F) (G1 Setup : Type).
Variable commit : Setup -> Polynomial F -> G1.

Notation Heap := (Heap F G1 Setup).
Notation round_5 := (round_5 root_of_unity commit).

Lemma once_W_z (n : nat) (h0 : Heap) :
  once n (fun site => if site is WzDegree then true else false) "W_z" h0
    true round_5 (fun _ => True) false.
Proof. by rewrite /round_5; repeat once_step. Qed.

Lemma once_W_zw (n : nat) (h0 : Heap) :
  once n (fun site => if site is WzwDegree then true else false) "W_zw" h0
    true round_5 (fun _ => True) false.
Proof. by rewrite /round_5; repeat once_step. Qed.

(** X16: the degree checks that round_5 repeats. round_5 asserts that
    W_z_coeffs has no coefficient from n on, assigns self.W_z, and asserts
    the same once more; likewise for W_zw_coeffs and self.W_zw. When
    round_5 fails the assertion on W_z_coeffs, self.W_z is as it was
    before the call, and when it fails the assertion on W_zw_coeffs,
    self.W_zw is as it was before the call: the assertion that fails is
    the one before the assignment, never the repeated one. *)
Theorem round_5_degree_rechecks_never_fail (h : Heap) :
  let r := round_5 h in
  [/\ r.1 = Raise (AssertionError WzDegree) ->
      attrs (self r.2) "W_z"%string = attrs (self h) "W_z"%string
    & r.1 = Raise (AssertionError WzwDegree) ->
      attrs (self r.2) "W_zw"%string = attrs (self h) "W_zw"%string].
Proof.
move=> r; split=> E.
  have := @once_W_z (group_order (self h)) h h erefl (fun=> erefl).
  by rewrite -/r; case: r E => [[m|e] h'] //= [->] /(_ isT)[].
have := @once_W_zw (group_order (self h)) h h erefl (fun=> erefl).
by rewrite -/r; case: r E => [[m|e] h'] //= [->] /(_ isT)[].
Qed.

End RoundFiveRechecks.

(* ===================================================================== *)
(* A small circuit over the field of 17 elements                          *)
(* ===================================================================== *)

Module Tiny.

(* Two gates: the public input x, and x * y = z. The generator of the
   multiplicative group is 3, so the n-th roots of unity are the powers of
   3^(16/n). *)
Definition F17 : fieldType := 'F_17.

Definition root_of_unity (n : nat) : F17 := 3%:R ^+ (16 %/ n).

(* A commitment that evaluates the committed values at the setup's point. *)
Definition commit (tau : F17) (p : Polynomial F17) : F17 :=
  eval_coeffs (values p) tau.

(* A transcript that adds up what it absorbs. *)
Definition transcript_round_1 (t : F17) (m : Message1 F17) : (F17 * F17) * F17 :=
  let t' := t + a_1 m + b_1 m * 2%:R + c_1 m * 3%:R in
  ((t' + 1, t' + 5%:R), t').

Definition transcript_round_2 (t : F17) (m : Message2 F17) : (F17 * F17) * F17 :=
  let t' := t + z_1 m in ((t' + 2%:R, 3%:R + 0 * t'), t').

Definition transcript_round_3 (t : F17) (m : Message3 F17) : F17 * F17 :=
  let t' := t + t_lo_1 m + t_mid_1 m + t_hi_1 m in (2%:R + 0 * t', t').

Definition transcript_round_4 (t : F17) (m : Message4 F17) : F17 * F17 :=
  let t' := t + a_eval m + b_eval m in (t' + 7%:R, t').

Definition lagrange2 (x y : F17) : Polynomial F17 :=
  MkPolynomial [:: x; y] LAGRANGE.

Definition pk : CommonPreprocessedInput F17 :=
  MkCommonPreprocessedInput
    (lagrange2 0 1) (lagrange2 1 0) (lagrange2 0 0) (lagrange2 0 (-1))
    (lagrange2 0 0)
    (lagrange2 16%:R 1) (lagrange2 2%:R 15%:R) (lagrange2 3%:R 14%:R).

Definition program : Program F17 :=
  MkProgram 2
    [:: MkWire (Some "x"%string) None None;
        MkWire (Some "x"%string) (Some "y"%string) (Some "z"%string)]
    [:: Some "x"%string] pk.

Definition prover : Prover F17 F17 F17 := @Prover_init F17 F17 F17 5%:R program.

Definition good_witness : witness :=
  [:: (Some "x"%string, 3%:Z); (Some "y"%string, 4%:Z);
      (Some "z"%string, 12%:Z)].

(* The same assignment with a None entry, of value 5, already there. *)
Definition witness_with_None : witness :=
  [:: (None, 5%:Z); (Some "x"%string, 3%:Z); (Some "y"%string, 4%:Z);
      (Some "z"%string, 12%:Z)].

Notation prove :=
  (prove root_of_unity commit (fun _ => 0) transcript_round_1
     transcript_round_2 transcript_round_3 transcript_round_4).

Definition heap : Heap F17 F17 F17 := MkHeap prover good_witness.

(* The value of a computation that has completed. *)
Definition value_of {A : Type} (d : A) (r : result A) : A :=
  if r is Ok a then a else d.

Lemma run_eta A (d : A) (r : result A * Heap F17 F17 F17) :
  is_ok r.1 -> r = (Ok (value_of d r.1), r.2).
Proof. by case: r => [[a|e] h]. Qed.

Lemma result_eta A (d : A) (r : result A) : is_ok r -> r = Ok (value_of d r).
Proof. by case: r. Qed.

(* The rounds of the run of prove on the good witness. *)
Definition run_1 := first_round commit heap.

Definition m1 : Message1 F17 := value_of (MkMessage1 0 0 0) run_1.1.

Definition heap_1 :=
  after_round_1 (fun _ => 0) transcript_round_1 run_1.2 m1.

Definition run_2 := round_2 root_of_unity commit heap_1.

Definition m2 : Message2 F17 := value_of (MkMessage2 0) run_2.1.

Definition heap_2 :=
  after_round_2 (fun _ => 0) transcript_round_1 transcript_round_2
    run_2.2 m1 m2.

Definition run_3 := round_3 root_of_unity commit heap_2.

Definition no_proof : Proof F17 F17 :=
  MkProof (MkMessage1 0 0 0) (MkMessage2 0) (MkMessage3 0 0 0)
    (MkMessage4 0 0 0 0 0 0) (MkMessage5 0 0).

(* The same wires and witness in a circuit without constraints. *)
Definition free_pk : CommonPreprocessedInput F17 :=
  MkCommonPreprocessedInput
    (lagrange2 0 0) (lagrange2 0 0) (lagrange2 0 0) (lagrange2 0 0)
    (lagrange2 0 0)
    (lagrange2 1 16%:R) (lagrange2 2%:R 15%:R) (lagrange2 3%:R 14%:R).

Definition free_program : Program F17 :=
  MkProgram 2 (wires program) [::] free_pk.

Definition free_heap : Heap F17 F17 F17 :=
  MkHeap (@Prover_init F17 F17 F17 5%:R free_program) good_witness.

(* A prover whose coset offset is the inverse of the 8th root of unity 9:
   its square is 4, and not 1. *)
Definition bad_offset : Prover F17 F17 F17 :=
  set_attr prover "fft_cofactor" (VScalar (2%:R : F17)).

Definition good_offset : Prover F17 F17 F17 :=
  set_attr prover "fft_cofactor" (VScalar (3%:R : F17)).

End Tiny.

(* ===================================================================== *)
(* Runs at the edges: too many gates, a missing variable, no gates        *)
(* ===================================================================== *)

Module Edge.

Import Tiny.

(* The two gates of the circuit above on a domain of one point. *)
Definition crowded_program : Program F17 :=
  MkProgram 1 (wires program) [::] pk.

Definition crowded_heap : Heap F17 F17 F17 :=
  MkHeap (@Prover_init F17 F17 F17 5%:R crowded_program) good_witness.

(* A witness without the output z of the second gate. *)
Definition partial_witness : witness :=
  [:: (Some "x"%string, 3%:Z); (Some "y"%string, 4%:Z)].

Definition partial_heap : Heap F17 F17 F17 := MkHeap prover partial_witness.

(* A witness that has every variable but violates x * y = z. *)
Definition wrong_witness : witness :=
  [:: (Some "x"%string, 3%:Z); (Some "y"%string, 4%:Z);
      (Some "z"%string, 13%:Z)].

Definition wrong_heap : Heap F17 F17 F17 := MkHeap prover wrong_witness.

(* The circuit without gates, on the empty domain. *)
Definition empty_program : Program F17 := MkProgram 0 [::] [::] pk.

Definition empty_heap : Heap F17 F17 F17 :=
  MkHeap (@Prover_init F17 F17 F17 5%:R empty_program) [::].

(* The run of prove on the good witness, continued to round 4. *)
Definition m3 : Message3 F17 := value_of (MkMessage3 0 0 0) run_3.1.

Definition heap_3 :=
  after_round_3 (fun _ => 0) transcript_round_1 transcript_round_2
    transcript_round_3 run_3.2 m1 m2 m3.

(* A Prover of group order 1 as round_5 could find it: every polynomial
   zero but the coset extended A. *)
Definition zeros (k : nat) : Polynomial F17 :=
  MkPolynomial (nseq k 0) LAGRANGE.

Definition before_round_5 : seq (string * value F17 F17) :=
  [seq (k, VPoly (zeros 1)) | k <- [:: "L0"; "T1"; "T2"; "T3"; "PI"]%string]
  ++ [seq (k, VScalar (0 : F17))
     | k <- [:: "zeta"; "a_eval"; "b_eval"; "c_eval"; "s1_eval"; "s2_eval";
                "z_shifted_eval"; "alpha"; "beta"; "gamma"]%string]
  ++ [seq (k, VPoly (zeros 4))
     | k <- [:: "QL_expanded"; "QR_expanded"; "QM_expanded"; "QO_expanded";
                "QC_expanded"; "Z_expanded"; "S1_expanded"; "S2_expanded";
                "S3_expanded"; "B_expanded"; "C_expanded"]%string]
  ++ [:: ("A_expanded"%string,
          VPoly (MkPolynomial [:: 1; 2%:R; 3%:R; 5%:R] LAGRANGE));
         ("v"%string, VScalar 1); ("fft_cofactor"%string, VScalar 3%:R);
         ("roots_of_unity"%string, VList (roots_of_unity root_of_unity 4))].

Definition heap_5 : Heap F17 F17 F17 :=
  MkHeap (foldr (fun kv s => set_attr s kv.1 kv.2)
            (@Prover_init F17 F17 F17 5%:R crowded_program) before_round_5)
    [::].

End Edge.

Lemma round_1_completes_iff_gates_vanish_witness :
  is_ok (first_round Tiny.commit (MkHeap Tiny.prover Tiny.good_witness)).1.
Proof.
have [-> _ _] :=
  @round_1_completes_iff_gates_vanish Tiny.F17 Tiny.root_of_unity _ _
    Tiny.commit _ (fun _ => 0) Tiny.transcript_round_1
    Tiny.transcript_round_2 Tiny.transcript_round_3 Tiny.transcript_round_4
    (MkHeap Tiny.prover Tiny.good_witness)
    isT isT isT isT isT.
by vm_compute.
Defined.



Lemma challenges_ignore_circuit_and_public_inputs_witness :
  Tiny.m1 = Tiny.value_of (MkMessage1 0 0 0)
              (first_round Tiny.commit Tiny.free_heap).1.
Proof.
have ok1 : is_ok Tiny.run_1.1 by vm_compute.
have run1 := Tiny.run_eta (MkMessage1 0 0 0) ok1.
have ok1' : is_ok (first_round Tiny.commit Tiny.free_heap).1 by vm_compute.
have run1' := Tiny.run_eta (MkMessage1 0 0 0) ok1'.
have [_ H _] :=
  @challenges_ignore_circuit_and_public_inputs Tiny.F17 Tiny.root_of_unity
    _ _ Tiny.commit _ (fun _ => 0) Tiny.transcript_round_1
    Tiny.transcript_round_2 Tiny.transcript_round_3
    Tiny.transcript_round_4 Tiny.heap Tiny.free_heap.
by have [E _] := H _ _ _ _ erefl erefl erefl erefl run1 run1'.
Defined.

Lemma prove_is_deterministic_witness :
  (Tiny.prove (MkHeap Tiny.bad_offset Tiny.good_witness)).1
  = (Tiny.prove Tiny.heap).1.
Proof.
have [ignores _ _] :=
  @prove_is_deterministic Tiny.F17 Tiny.root_of_unity _ _ Tiny.commit _
    (fun _ => 0) Tiny.transcript_round_1 Tiny.transcript_round_2
    Tiny.transcript_round_3 Tiny.transcript_round_4
    (MkHeap Tiny.bad_offset Tiny.good_witness) Tiny.heap.
exact (ignores (erefl _) (erefl _)).
Defined.



(* C4 as stated fails for n = 2 and the offset h = 2: h^2 = 4 is not 1,
   the 8th root of unity 9 is primitive, and the entry of Z_H at i = 1 is
   (9 * 2)^2 - 1 = 0, so that a division by Z_H divides by zero. *)
Lemma offset_of_order_4n_meets_a_zero :
  let mu := Tiny.root_of_unity 8 in
  let zh := Tiny.value_of [::]
              (vanishing_values Tiny.bad_offset
                 (roots_of_unity Tiny.root_of_unity 8) [::]) in
  [/\ (2%:R : Tiny.F17) ^+ 2 != 1,
      (mu ^+ 8 == 1) && all (fun i => mu ^+ i != 1) (iota 1 7),
      size zh == 8,
      zh`_1 == 0
    & ~~ is_ok (pdiv (MkPolynomial (nseq 8 1) LAGRANGE)
                  (MkPolynomial zh LAGRANGE))].
Proof. by split; vm_compute. Qed.

Lemma vanishing_polynomial_nonzero_on_coset_witness :
  all (fun y => y != 0)
    (Tiny.value_of [::]
       (vanishing_values Tiny.good_offset
          (roots_of_unity Tiny.root_of_unity 8) [::])).
Proof.
have ok : is_ok (vanishing_values Tiny.good_offset
                   (roots_of_unity Tiny.root_of_unity 8) [::]).
  by vm_compute.
have run := Tiny.result_eta [::] ok.
have mu1 : Tiny.root_of_unity (2 * 4) ^+ (2 * 4) = 1.
  by apply/eqP; vm_compute.
have hn1 : (3%:R : Tiny.F17) ^+ (2 * 4) != 1 by vm_compute.
have [-> _ _] :=
  @vanishing_polynomial_nonzero_on_coset Tiny.F17 Tiny.root_of_unity _ _
    Tiny.good_offset 3%:R _ erefl mu1 hn1 run.
by vm_compute.
Defined.



Lemma public_inputs_polynomial_witness :
  is_ok (@public_inputs Tiny.F17 Tiny.F17 Tiny.F17 Tiny.heap).1.
Proof.
have [complete _] :=
  @public_inputs_polynomial Tiny.F17 Tiny.F17 Tiny.F17 Tiny.heap.
by have [PI -> _] := complete isT.
Defined.

Lemma round_1_rejects_more_gates_than_group_order_witness :
  (round_1 Tiny.commit Edge.crowded_heap).1 = Raise IndexError.
Proof.
by rewrite (@round_1_rejects_more_gates_than_group_order _ _ _ Tiny.commit
              Edge.crowded_heap isT isT).
Defined.

Lemma round_1_reports_the_first_missing_wire_witness :
  (round_1 Tiny.commit Edge.partial_heap).1
  = Raise (KeyError (Some "z"%string)).
Proof.
have [-> _ _ _] :=
  @round_1_reports_the_first_missing_wire _ _ _ Tiny.commit
    Edge.partial_heap isT isT.
by [].
Defined.

Lemma round_1_assigns_the_wire_polynomials_witness :
  attrs (self (round_1 Tiny.commit Tiny.heap).2) "A"%string
  = Some (VPoly (Tiny.lagrange2 3%:R 3%:R)).
Proof.
have [_ [-> _ _] _] :=
  @round_1_assigns_the_wire_polynomials _ _ _ Tiny.commit Tiny.heap isT isT.
by [].
Defined.

Lemma round_1_needs_the_public_inputs_witness :
  (round_1 Tiny.commit Tiny.heap).1 = Raise (AttributeError "PI").
Proof.
exact: (@round_1_needs_the_public_inputs _ _ _ Tiny.commit Tiny.heap
          isT isT isT erefl).
Defined.



Lemma round_4_returns_what_it_stores_witness :
  let r := @round_4 Tiny.F17 Tiny.root_of_unity Tiny.F17 Tiny.F17
             Edge.heap_3 in
  attrs (self r.2) "a_eval"%string
  = Some (VScalar (a_eval (Tiny.value_of (MkMessage4 0 0 0 0 0 0) r.1))).
Proof.
move=> r.
have ok : is_ok r.1 by vm_compute.
have run := Tiny.run_eta (MkMessage4 0 0 0 0 0 0) ok.
have [[stored _ _] _ _] := round_4_returns_what_it_stores run.
exact stored.
Defined.

Lemma prove_assigns_only_its_attributes_witness :
  attrs (self (Tiny.prove Tiny.heap).2) "label"%string
  = attrs (self Tiny.heap) "label"%string.
Proof.
exact: (@prove_assigns_only_its_attributes _ Tiny.root_of_unity _ _
          Tiny.commit _ (fun _ => 0) Tiny.transcript_round_1
          Tiny.transcript_round_2 Tiny.transcript_round_3
          Tiny.transcript_round_4 Tiny.heap "label"%string isT).
Defined.

Lemma prove_reads_only_what_it_has_assigned_witness :
  isSome (attrs (self (Tiny.prove Tiny.heap).2) "W_zw_1"%string).
Proof.
have ok : is_ok (Tiny.prove Tiny.heap).1 by vm_compute.
have run := Tiny.run_eta Tiny.no_proof ok.
have [_ sets] :=
  @prove_reads_only_what_it_has_assigned _ Tiny.root_of_unity _ _
    Tiny.commit _ (fun _ => 0) Tiny.transcript_round_1
    Tiny.transcript_round_2 Tiny.transcript_round_3
    Tiny.transcript_round_4 Tiny.heap.
exact: (sets _ _ run "W_zw_1"%string isT).
Defined.

Lemma rlc_of_polynomials_is_pointwise_witness :
  rlc (self Tiny.heap_1) (Ok 1) (Ok 2%:R)
  = Ok (1 + 2%:R * scalar_value (self Tiny.heap_1) "beta"
        + scalar_value (self Tiny.heap_1) "gamma").
Proof.
have Eb : attr_scalar (self Tiny.heap_1) "beta"
          = Ok (scalar_value (self Tiny.heap_1) "beta").
  by apply: attr_scalar_value; vm_compute.
have Eg : attr_scalar (self Tiny.heap_1) "gamma"
          = Ok (scalar_value (self Tiny.heap_1) "gamma").
  by apply: attr_scalar_value; vm_compute.
by have [-> _ _] := rlc_of_polynomials_is_pointwise Eb Eg.
Defined.

Lemma failed_gate_check_leaves_its_state_witness :
  (Tiny.prove Edge.wrong_heap).1 = Raise (AssertionError GateCheck).
Proof.
by have [-> _ _ _] :=
  @failed_gate_check_leaves_its_state _ Tiny.root_of_unity _ _ Tiny.commit _
    (fun _ => 0) Tiny.transcript_round_1 Tiny.transcript_round_2
    Tiny.transcript_round_3 Tiny.transcript_round_4 Edge.wrong_heap
    isT isT isT isT isT isT.
Defined.


Lemma round_5_degree_rechecks_never_fail_witness :
  attrs (self (round_5 Tiny.root_of_unity Tiny.commit Edge.heap_5).2)
    "W_z"%string
  = None.
Proof.
have failed : (round_5 Tiny.root_of_unity Tiny.commit Edge.heap_5).1
              = Raise (AssertionError WzDegree) by vm_compute.
have [keeps _] :=
  @round_5_degree_rechecks_never_fail _ Tiny.root_of_unity _ _ Tiny.commit
    Edge.heap_5.
by rewrite (keeps failed).
Defined.
